(** * Listening-history aggregation and genre resolution

    A shallow embedding of [scripts/analyze_history.py] and
    [scripts/make_playlists.py]: the per-track and per-artist aggregation
    of raw play events, the persistent genre cache, the retrying genre
    resolver, the ranking by play count and the drum-and-bass selection. *)

From Stdlib Require Import ZArith String Ascii List Sorted Permutation Lia.
From stdpp Require Import base option list gmap sets strings sorting.

Local Open Scope Z_scope.

(** ** Python values and exceptions *)

(** The values that [json.load] puts into the fields of a play event that
    the code reads: [None], strings and integers. Arrays and objects, which
    cannot be keys of a dictionary or members of a set, are outside the
    model. *)
Inductive jval : Type :=
  | JNull
  | JStr (s : string)
  | JInt (z : Z).

Global Instance jval_eq_dec : EqDecision jval.
Proof. solve_decision. Defined.

Definition jval_to_sum (v : jval) : unit + (string + Z) :=
  match v with
  | JNull => inl tt
  | JStr s => inr (inl s)
  | JInt z => inr (inr z)
  end.

Definition jval_of_sum (x : unit + (string + Z)) : jval :=
  match x with
  | inl _ => JNull
  | inr (inl s) => JStr s
  | inr (inr z) => JInt z
  end.

Global Instance jval_countable : Countable jval.
Proof.
  refine (inj_countable' jval_to_sum jval_of_sum _).
  intros []; reflexivity.
Defined.

(** The exceptions the modelled code can raise. *)
Inductive pyexn : Type :=
  | KeyError (key : string)
  | TypeError
  | ValueError.

Inductive result (A : Type) : Type :=
  | Ok (a : A)
  | Raise (e : pyexn).
Arguments Ok {A} a.
Arguments Raise {A} e.

Global Instance result_ret : MRet result := fun _ a => Ok a.

Global Instance result_bind : MBind result := fun _ _ k r =>
  match r with
  | Ok a => k a
  | Raise e => Raise e
  end.

(** [for x in l: s = body(s, x)], stopping at the first exception. *)
Fixpoint for_each {S A : Type} (body : S -> A -> result S) (s : S) (l : list A)
  : result S :=
  match l with
  | [] => Ok s
  | x :: l' => s' ← body s x; for_each body s' l'
  end.

(** Python truthiness: [None], [''] and [0] are false. *)
Definition truthy (v : jval) : bool :=
  match v with
  | JNull => false
  | JStr s => negb (String.eqb s "")
  | JInt z => negb (z =? 0)
  end.

(** A play event is a JSON object. *)
Abbreviation entry := (gmap string jval).

(** [e.get(k)] *)
Definition get (e : entry) (k : string) : jval := default JNull (e !! k).

(** [e.get(k, d)] *)
Definition get_default (e : entry) (k : string) (d : jval) : jval :=
  default d (e !! k).

(** [e[k]] *)
Definition getitem (e : entry) (k : string) : result jval :=
  match e !! k with
  | Some v => Ok v
  | None => Raise (KeyError k)
  end.

(** [v < n] for an [int] [n]. *)
Definition py_lt_int (v : jval) (n : Z) : result bool :=
  match v with
  | JInt z => Ok (z <? n)
  | _ => Raise TypeError
  end.

(** [n + v] for an [int] [n]. *)
Definition py_int_add (n : Z) (v : jval) : result Z :=
  match v with
  | JInt z => Ok (n + z)
  | _ => Raise TypeError
  end.

(** ** Insertion-ordered dictionaries

    A [dict] whose iteration order matters is an association list with
    unique keys, in insertion order. *)

Abbreviation dict V := (list (jval * V)).

Fixpoint dict_get {V : Type} (d : dict V) (k : jval) : option V :=
  match d with
  | [] => None
  | (k', v) :: d' => if decide (k = k') then Some v else dict_get d' k
  end.

(** [d[k] = v]: an existing key keeps its position, a new key is
    appended. *)
Fixpoint dict_set {V : Type} (d : dict V) (k : jval) (v : V) : dict V :=
  match d with
  | [] => [(k, v)]
  | (k', v') :: d' =>
      if decide (k = k') then (k', v) :: d'
      else (k', v') :: dict_set d' k v
  end.

(** [d.values()] *)
Definition values {V : Type} (d : dict V) : list V := map snd d.

(** ** [sorted(l, key=key, reverse=True)]

    Python's sort is stable, also with [reverse=True]: elements with equal
    keys keep their order. *)

Fixpoint insert_desc {A : Type} (key : A -> Z) (x : A) (l : list A) : list A :=
  match l with
  | [] => [x]
  | y :: l' => if key x <? key y then y :: insert_desc key x l' else x :: y :: l'
  end.

Definition sorted_desc {A : Type} (key : A -> Z) (l : list A) : list A :=
  foldr (insert_desc key) [] l.

(** [enumerate(l, start)] *)
Fixpoint enumerate {A : Type} (start : Z) (l : list A) : list (Z * A) :=
  match l with
  | [] => []
  | x :: l' => (start, x) :: enumerate (start + 1) l'
  end.

Definition sum_Z (l : list Z) : Z := foldr Z.add 0 l.

(** ** [scripts/analyze_history.py]: aggregation *)

Module TrackStat.
Record t : Type := mk {
  track_name : jval;
  artist_name : jval;
  album_name : jval;
  play_count : Z;
  total_ms : Z;
}.
(** The [defaultdict] factory of [aggregate_tracks]. *)
Definition default : t := mk (JStr "") (JStr "") (JStr "") 0 0.
End TrackStat.

Module ArtistStat.
Record t : Type := mk {
  play_count : Z;
  total_ms : Z;
  track_uris : gset jval;
}.
(** The [defaultdict] factory of [aggregate_artists]. *)
Definition default : t := mk 0 0 ∅.
End ArtistStat.

(** One iteration of the loop of [aggregate_tracks]. *)
Definition aggregate_tracks_body (min_ms : Z) (tracks : dict TrackStat.t)
    (e : entry) : result (dict TrackStat.t) :=
  let uri := get e "spotify_track_uri" in
  let name := get e "master_metadata_track_name" in
  if negb (truthy uri) || negb (truthy name) then Ok tracks
  else
    ms ← getitem e "ms_played";
    skip ← py_lt_int ms min_ms;
    if (skip : bool) then Ok tracks
    else
      let t := default TrackStat.default (dict_get tracks uri) in
      ms' ← getitem e "ms_played";
      total ← py_int_add (TrackStat.total_ms t) ms';
      Ok (dict_set tracks uri
            (TrackStat.mk name
               (get_default e "master_metadata_album_artist_name" (JStr ""))
               (get_default e "master_metadata_album_album_name" (JStr ""))
               (TrackStat.play_count t + 1)
               total)).

Definition aggregate_tracks (entries : list entry) (min_ms : Z)
  : result (dict TrackStat.t) :=
  for_each (aggregate_tracks_body min_ms) [] entries.

(** One iteration of the loop of [aggregate_artists]. *)
Definition aggregate_artists_body (min_ms : Z) (artists : dict ArtistStat.t)
    (e : entry) : result (dict ArtistStat.t) :=
  let artist := get e "master_metadata_album_artist_name" in
  let uri := get e "spotify_track_uri" in
  if negb (truthy artist) || negb (truthy uri) then Ok artists
  else
    ms ← getitem e "ms_played";
    skip ← py_lt_int ms min_ms;
    if (skip : bool) then Ok artists
    else
      let a := default ArtistStat.default (dict_get artists artist) in
      ms' ← getitem e "ms_played";
      total ← py_int_add (ArtistStat.total_ms a) ms';
      Ok (dict_set artists artist
            (ArtistStat.mk (ArtistStat.play_count a + 1) total
               ({[uri]} ∪ ArtistStat.track_uris a))).

Definition aggregate_artists (entries : list entry) (min_ms : Z)
  : result (dict ArtistStat.t) :=
  for_each (aggregate_artists_body min_ms) [] entries.

(** The default of the parameter [min_ms]. *)
Definition default_min_ms : Z := 30000.

(** The event [{uri, name, artist, ms}] of the examples. *)
Definition play (uri name artist : string) (ms : Z) : entry :=
  <["spotify_track_uri" := JStr uri]>
  (<["master_metadata_track_name" := JStr name]>
  (<["master_metadata_album_artist_name" := JStr artist]>
  (<["ms_played" := JInt ms]> ∅))).

Definition spec_events : list entry :=
  [play "a" "X" "Art1" 31000; play "a" "X" "Art1" 29000; play "b" "Y" "Art1" 40000].

(** ** [scripts/analyze_history.py]: the genre cache and the resolver *)

(** The genre cache maps an artist name to its list of genre tags. *)
Abbreviation genre_cache := (gmap string (list string)).

(** What the code uses of Python itself: [int(s)] on a string ([None] when
    it raises [ValueError]) and [s.lower()]. *)
Class PyBuiltins : Type := {
  py_int_of_str : string -> option Z;
  py_lower : string -> string;
}.

(** [json.dump(cache, f, ensure_ascii=False, indent=2)] as the text it
    writes, and [json.load(f)] on the text of a file. *)
Class JsonCodec : Type := {
  json_dump : genre_cache -> string;
  json_load : string -> result genre_cache;
}.

(** A tag of the tag source: a dictionary with the keys ['name'] and
    ['count'], either of which may be absent. *)
Module Tag.
Record t : Type := mk {
  name : option string;
  count : option jval;
}.
End Tag.

Module Artist.
Record t : Type := mk {
  tag_list : option (list Tag.t);
}.
End Artist.

Record response : Type := mk_response {
  artist_list : option (list Artist.t);
}.

(** [musicbrainzngs.search_artists(artist=name, limit=1)]: the answer to the
    [n]-th lookup of a run ([n] counts the lookups issued before it), [None]
    when the call raises. *)
Class TagSource : Type := {
  search_artists : nat -> string -> option response;
}.

(** What a run does to the outside. *)
Inductive event : Type :=
  | EvSearch (name : string) (ok : bool)
  | EvSleep (ms : Z)
  | EvSave (cache : genre_cache).

(** The outside of a run: the file at [GENRE_CACHE_PATH] ([None] when it
    does not exist), the number of lookups issued and the events so far, in
    the order they happened. *)
Record world : Type := mk_world {
  cache_file : option string;
  lookups : nat;
  events : list event;
}.

Definition new_world (file : option string) : world := mk_world file 0 [].

Definition log (ev : event) (w : world) : world :=
  mk_world (cache_file w) (lookups w) (events w ++ [ev]).

(** [time.sleep(s)], in milliseconds. *)
Definition sleep (ms : Z) (w : world) : world := log (EvSleep ms) w.

Definition default_max_retries : Z := 3.

Section Resolver.
Context `{PyBuiltins} `{JsonCodec} `{TagSource}.

Definition load_genre_cache (w : world) : result genre_cache :=
  match cache_file w with
  | Some text => json_load text
  | None => Ok ∅
  end.

Definition save_genre_cache (cache : genre_cache) (w : world) : world :=
  mk_world (Some (json_dump cache)) (lookups w) (events w ++ [EvSave cache]).

(** [int(t.get('count', 0))] *)
Definition tag_key (t : Tag.t) : option Z :=
  match Tag.count t with
  | None => Some 0
  | Some (JInt z) => Some z
  | Some (JStr s) => py_int_of_str s
  | Some JNull => None
  end.

(** [sorted(tags, key=lambda t: int(t.get('count', 0)), reverse=True)];
    the keys of all the tags are computed before the sort. *)
Definition sorted_tags (tags : list Tag.t) : option (list Tag.t) :=
  keyed ← mapM (fun t => k ← tag_key t; Some (k, t)) tags;
  Some (map snd (sorted_desc fst keyed)).

(** The body of the [try], from the answer of the tag source to the list
    stored in the cache; [None] when it raises. *)
Definition top_tags (answer : option response) : option (list string) :=
  result ← answer;
  match default [] (artist_list result) with
  | [] => Some []
  | a :: _ =>
      sorted ← sorted_tags (default [] (Artist.tag_list a));
      mapM Tag.name (take 5 sorted)
  end.

(** One iteration of the loop over [to_fetch]. *)
Definition fetch_one (st : genre_cache * list string * world) (name : string)
  : genre_cache * list string * world :=
  let '(cache, failed, w) := st in
  let answer := search_artists (lookups w) name in
  let w := mk_world (cache_file w) (S (lookups w)) (events w) in
  match top_tags answer with
  | Some tags =>
      (<[name := tags]> cache, failed, sleep 1100 (log (EvSearch name true) w))
  | None =>
      (cache, failed ++ [name], sleep 1100 (log (EvSearch name false) w))
  end.

(** One attempt: the lookups of every name of [to_fetch]. *)
Definition fetch_round (to_fetch : list string) (cache : genre_cache) (w : world)
  : genre_cache * list string * world :=
  foldl fetch_one (cache, [], w) to_fetch.

(** The loop [for attempt in range(1, max_retries + 1)], from [attempt]
    on, with [remaining] iterations left. *)
Fixpoint attempts (remaining : nat) (attempt max_retries : Z)
    (to_fetch : list string) (cache : genre_cache) (w : world)
  : genre_cache * list string * world :=
  match remaining with
  | O => (cache, to_fetch, w)
  | S remaining' =>
      match to_fetch with
      | [] => (cache, to_fetch, w)
      | _ :: _ =>
          let '(cache', failed, w') := fetch_round to_fetch cache w in
          let w'' :=
            match failed with
            | [] => w'
            | _ :: _ => if attempt <? max_retries then sleep (5000 * attempt) w' else w'
            end in
          attempts remaining' (attempt + 1) max_retries failed cache' w''
      end
  end.

(** [for name in to_fetch: cache[name] = []] *)
Definition mark_unresolved (to_fetch : list string) (cache : genre_cache) : genre_cache :=
  foldl (fun c name => <[name := []]> c) cache to_fetch.

(** [{name: cache.get(name, []) for name in names}] *)
Definition result_mapping (names : list string) (cache : genre_cache) : genre_cache :=
  foldl (fun r name => <[name := default [] (cache !! name)]> r) ∅ names.

(** The state of [fetch_artist_genres] before [save_genre_cache]: the
    cache, and the outside. *)
Definition resolve (cache : genre_cache) (names : list string) (max_retries : Z)
    (w : world) : genre_cache * world :=
  let to_fetch := filter (fun n => cache !! n = None) names in
  let '(cache', to_fetch', w') :=
    attempts (Z.to_nat max_retries) 1 max_retries to_fetch cache w in
  (mark_unresolved to_fetch' cache', w').

Definition fetch_artist_genres (artist_names : list string) (max_retries : Z)
    (w : world) : result (genre_cache * world) :=
  cache ← load_genre_cache w;
  let names := artist_names in
  let '(cache', w') := resolve cache names max_retries w in
  let w'' := save_genre_cache cache' w' in
  Ok (result_mapping names cache', w'').
End Resolver.

(** ** [scripts/analyze_history.py]: ranking in [main] *)

(** [sorted(tracks.items(), key=lambda x: x[1]['play_count'], reverse=True)] *)
Definition top_tracks (tracks : dict TrackStat.t) : list (jval * TrackStat.t) :=
  sorted_desc (fun x => TrackStat.play_count (snd x)) tracks.

(** [sorted(artists.items(), key=lambda x: x[1]['play_count'], reverse=True)] *)
Definition top_artists (artists : dict ArtistStat.t) : list (jval * ArtistStat.t) :=
  sorted_desc (fun x => ArtistStat.play_count (snd x)) artists.

(** [enumerate(rows[:n], 1)], the ranked rows printed and exported. *)
Definition ranked {A : Type} (n : nat) (rows : list A) : list (Z * A) :=
  enumerate 1 (take n rows).

(** ** [scripts/make_playlists.py] *)

Module MakePlaylists.

Module TrackStat.
Record t : Type := mk {
  track_name : jval;
  artist_name : jval;
  play_count : Z;
  total_ms : Z;
}.
Definition default : t := mk (JStr "") (JStr "") 0 0.
End TrackStat.

Definition aggregate_tracks_body (min_ms : Z) (tracks : dict TrackStat.t)
    (e : entry) : result (dict TrackStat.t) :=
  let uri := get e "spotify_track_uri" in
  let name := get e "master_metadata_track_name" in
  if negb (truthy uri) || negb (truthy name) then Ok tracks
  else
    ms ← getitem e "ms_played";
    skip ← py_lt_int ms min_ms;
    if (skip : bool) then Ok tracks
    else
      let t := default TrackStat.default (dict_get tracks uri) in
      ms' ← getitem e "ms_played";
      total ← py_int_add (TrackStat.total_ms t) ms';
      Ok (dict_set tracks uri
            (TrackStat.mk name
               (get_default e "master_metadata_album_artist_name" (JStr ""))
               (TrackStat.play_count t + 1)
               total)).

Definition aggregate_tracks (entries : list entry) (min_ms : Z)
  : result (dict TrackStat.t) :=
  for_each (aggregate_tracks_body min_ms) [] entries.

Definition DNB_EXCLUDE : gset string :=
  {[ "Lane 8"; "The Kite String Tangle"; "BCee feat. Rocky Nti"; "BCee" ]}.

(** [needle in hay] on strings. *)
Fixpoint str_contains (needle hay : string) : bool :=
  String.prefix needle hay ||
  match hay with
  | EmptyString => false
  | String _ hay' => str_contains needle hay'
  end.

Section Main.
Context `{PyBuiltins}.

(** [any('drum and bass' in g.lower() for g in genres)] *)
Definition any_dnb (genres : list string) : bool :=
  existsb (fun g => str_contains "drum and bass" (py_lower g)) genres.

(** The loop over [genre_cache.items()] that fills [dnb_artists]. *)
Definition dnb_artists_of (items : list (string * list string)) : gset string :=
  foldl (fun acc '(artist_name, genres) =>
           if any_dnb genres then
             if decide (artist_name ∈ DNB_EXCLUDE) then acc
             else {[artist_name]} ∪ acc
           else acc) ∅ items.

Definition dnb_artists (cache : genre_cache) : gset string :=
  dnb_artists_of (map_to_list cache).

(** [v in dnb_artists] for a value [v]: only a string can be a member
    of a set of strings. *)
Definition in_artists (v : jval) (artists : gset string) : bool :=
  match v with
  | JStr s => bool_decide (s ∈ artists)
  | _ => false
  end.

(** [{uri: t for uri, t in all_tracks.items() if t['artist_name'] in dnb_artists}] *)
Definition dnb_tracks (cache : genre_cache) (all_tracks : dict TrackStat.t)
  : dict TrackStat.t :=
  List.filter (fun x => in_artists (TrackStat.artist_name (snd x)) (dnb_artists cache))
    all_tracks.

(** [top_100_dnb] of [main], from the streaming history and the genre
    cache. *)
Definition top_100_dnb (entries : list entry) (cache : genre_cache)
  : result (list (jval * TrackStat.t)) :=
  all_tracks ← aggregate_tracks entries default_min_ms;
  Ok (take 100 (sorted_desc (fun x => TrackStat.play_count (snd x))
                  (dnb_tracks cache all_tracks))).
End Main.

End MakePlaylists.

(** ** Reference implementations of the interfaces

    The properties below hold for every implementation of [PyBuiltins],
    [JsonCodec] and [TagSource]. The following ones are used to run the
    model on examples. *)

(** [int(s)] and [s.lower()] on ASCII text: an optional sign followed by
    decimal digits, and the letters [A] to [Z]. *)
Module AsciiText.
Definition digit (c : ascii) : option Z :=
  let n := Z.of_nat (nat_of_ascii c) in
  if (48 <=? n) && (n <=? 57) then Some (n - 48) else None.

Fixpoint digits (acc : Z) (s : string) : option Z :=
  match s with
  | EmptyString => Some acc
  | String c s' => d ← digit c; digits (10 * acc + d) s'
  end.

Definition unsigned (s : string) : option Z :=
  match s with
  | EmptyString => None
  | String _ _ => digits 0 s
  end.

Definition int_of_str (s : string) : option Z :=
  match s with
  | String c s' =>
      let n := Z.of_nat (nat_of_ascii c) in
      if n =? 45 then Z.opp <$> unsigned s'
      else if n =? 43 then unsigned s'
      else unsigned s
  | EmptyString => None
  end.

Definition lower_char (c : ascii) : ascii :=
  let n := nat_of_ascii c in
  if ((65 <=? n) && (n <=? 90))%nat then ascii_of_nat (n + 32) else c.

Fixpoint lower (s : string) : string :=
  match s with
  | EmptyString => EmptyString
  | String c s' => String (lower_char c) (lower s')
  end.

Definition builtins : PyBuiltins :=
  {| py_int_of_str := int_of_str; py_lower := lower |}.
End AsciiText.

(** The JSON text of a genre cache as [json.dump] lays it out with
    [ensure_ascii=False, indent=2], over the bytes of the UTF-8 text, and a
    reader of JSON objects whose values are arrays of strings. The members
    are written in the order of [map_to_list]. A text that is not such an
    object, or that has an escape [\uXXXX] above code 255, is outside the
    model and is read as an error. *)
Module JsonText.
Local Open Scope nat_scope.

Definition chr (n : nat) : ascii := ascii_of_nat n.
Definition dquote : ascii := chr 34.
Definition backslash : ascii := chr 92.
Definition newline : ascii := chr 10.
Definition str1 (c : ascii) : string := String c EmptyString.

Definition hex_digit (n : nat) : ascii :=
  if n <? 10 then chr (48 + n) else chr (87 + n).

Definition escape_char (c : ascii) : string :=
  let n := nat_of_ascii c in
  if n =? 34 then String backslash (str1 dquote)
  else if n =? 92 then String backslash (str1 backslash)
  else if n =? 10 then String backslash "n"
  else if n =? 13 then String backslash "r"
  else if n =? 9 then String backslash "t"
  else if n =? 8 then String backslash "b"
  else if n =? 12 then String backslash "f"
  else if n <? 32 then
    String backslash
      ("u00" +:+ String (hex_digit (n / 16)) (str1 (hex_digit (n mod 16))))
  else str1 c.

Fixpoint escape (s : string) : string :=
  match s with
  | EmptyString => EmptyString
  | String c s' => escape_char c +:+ escape s'
  end.

Definition dump_string (s : string) : string :=
  String dquote (escape s +:+ str1 dquote).

Fixpoint join (sep : string) (l : list string) : string :=
  match l with
  | [] => EmptyString
  | [x] => x
  | x :: l' => x +:+ sep +:+ join sep l'
  end.

(** The separators of the elements of a list and of the members of the
    object, at their indentation. *)
Definition elem_sep : string := "," +:+ String newline "    ".
Definition member_sep : string := "," +:+ String newline "  ".

Definition dump_list (l : list string) : string :=
  match l with
  | [] => "[]"
  | _ :: _ =>
      "[" +:+ String newline "    "
      +:+ join elem_sep (map dump_string l)
      +:+ String newline "  ]"
  end.

Definition dump_member (kv : string * list string) : string :=
  dump_string (fst kv) +:+ ": " +:+ dump_list (snd kv).

Definition dump_items (items : list (string * list string)) : string :=
  match items with
  | [] => "{}"
  | _ :: _ =>
      "{" +:+ String newline "  "
      +:+ join member_sep (map dump_member items)
      +:+ String newline "}"
  end.

Definition dump (cache : genre_cache) : string := dump_items (map_to_list cache).

Definition is_ws (c : ascii) : bool :=
  let n := nat_of_ascii c in
  (n =? 32) || (n =? 10) || (n =? 13) || (n =? 9).

Fixpoint skip_ws (s : string) : string :=
  match s with
  | String c s' => if is_ws c then skip_ws s' else s
  | EmptyString => s
  end.

Definition unhex (c : ascii) : option nat :=
  let n := nat_of_ascii c in
  if (48 <=? n) && (n <=? 57) then Some (n - 48)
  else if (97 <=? n) && (n <=? 102) then Some (n - 87)
  else if (65 <=? n) && (n <=? 70) then Some (n - 55)
  else None.

(** The character of a two-character escape. *)
Definition unescape (c : ascii) : option ascii :=
  let n := nat_of_ascii c in
  if n =? 34 then Some dquote
  else if n =? 92 then Some backslash
  else if n =? 47 then Some (chr 47)
  else if n =? 110 then Some (chr 10)
  else if n =? 114 then Some (chr 13)
  else if n =? 116 then Some (chr 9)
  else if n =? 98 then Some (chr 8)
  else if n =? 102 then Some (chr 12)
  else None.

(** The characters of a string up to its closing quote, and the rest. *)
Fixpoint parse_chars (s : string) : option (string * string) :=
  match s with
  | EmptyString => None
  | String c s' =>
      let n := nat_of_ascii c in
      if n =? 34 then Some (EmptyString, s')
      else if n =? 92 then
        match s' with
        | EmptyString => None
        | String e s'' =>
            if nat_of_ascii e =? 117 then
              match s'' with
              | String h1 (String h2 (String h3 (String h4 r))) =>
                  match unhex h1, unhex h2, unhex h3, unhex h4 with
                  | Some 0, Some 0, Some d3, Some d4 =>
                      match parse_chars r with
                      | Some (t, rest) => Some (String (chr (16 * d3 + d4)) t, rest)
                      | None => None
                      end
                  | _, _, _, _ => None
                  end
              | _ => None
              end
            else
              match unescape e, parse_chars s'' with
              | Some c', Some (t, rest) => Some (String c' t, rest)
              | _, _ => None
              end
        end
      else if n <? 32 then None
      else
        match parse_chars s' with
        | Some (t, rest) => Some (String c t, rest)
        | None => None
        end
  end.

(** [s] without its first character, when that is [chr n]. *)
Definition expect (n : nat) (s : string) : option string :=
  match s with
  | String c s' => if nat_of_ascii c =? n then Some s' else None
  | EmptyString => None
  end.

Definition parse_string (s : string) : option (string * string) :=
  s' ← expect 34 s; parse_chars s'.

(** The elements of a non-empty array, from its first element on. *)
Fixpoint parse_elements (fuel : nat) (s : string) : option (list string * string) :=
  match fuel with
  | O => None
  | S fuel' =>
      '(x, s1) ← parse_string s;
      let s2 := skip_ws s1 in
      match expect 44 s2, expect 93 s2 with
      | Some s3, _ =>
          '(xs, s4) ← parse_elements fuel' (skip_ws s3); Some (x :: xs, s4)
      | None, Some s3 => Some ([x], s3)
      | None, None => None
      end
  end.

Definition parse_array (s : string) : option (list string * string) :=
  s1 ← expect 91 s;
  let s2 := skip_ws s1 in
  match expect 93 s2 with
  | Some s3 => Some ([], s3)
  | None => parse_elements (String.length s2) s2
  end.

(** The members of a non-empty object, from its first key on. *)
Fixpoint parse_members (fuel : nat) (s : string)
  : option (list (string * list string) * string) :=
  match fuel with
  | O => None
  | S fuel' =>
      '(k, s1) ← parse_string s;
      s2 ← expect 58 (skip_ws s1);
      '(v, s3) ← parse_array (skip_ws s2);
      let s4 := skip_ws s3 in
      match expect 44 s4, expect 125 s4 with
      | Some s5, _ =>
          '(kvs, s6) ← parse_members fuel' (skip_ws s5); Some ((k, v) :: kvs, s6)
      | None, Some s5 => Some ([(k, v)], s5)
      | None, None => None
      end
  end.

Definition parse_object (s : string)
  : option (list (string * list string) * string) :=
  s1 ← expect 123 s;
  let s2 := skip_ws s1 in
  match expect 125 s2 with
  | Some s3 => Some ([], s3)
  | None => parse_members (String.length s2) s2
  end.

Definition parse (s : string) : option (list (string * list string)) :=
  '(items, rest) ← parse_object (skip_ws s);
  match skip_ws rest with
  | EmptyString => Some items
  | String _ _ => None
  end.

(** A key that occurs twice keeps its last value, as in a Python [dict]. *)
Definition load (s : string) : result genre_cache :=
  match parse s with
  | Some items => Ok (foldl (fun m kv => <[fst kv := snd kv]> m) ∅ items)
  | None => Raise ValueError
  end.

Definition codec : JsonCodec := {| json_dump := dump; json_load := load |}.
End JsonText.

(** A tag source whose lookups always raise. *)
Definition failing_source : TagSource :=
  {| search_artists := fun _ _ => None |}.

(** A tag source that matches every name with one entity tagged
    [("rock", 10)] and [("pop", 3)]. *)
Definition rock_pop_source : TagSource :=
  {| search_artists := fun _ _ =>
       Some (mk_response (Some [Artist.mk (Some
         [Tag.mk (Some "rock") (Some (JStr "10"));
          Tag.mk (Some "pop") (Some (JStr "3"))])])) |}.

(** A tag source whose entity has seven tags, two pairs of them with equal
    counts. *)
Definition seven_tags : list Tag.t :=
  [Tag.mk (Some "indie") (Some (JStr "2"));
   Tag.mk (Some "rock") (Some (JStr "10"));
   Tag.mk (Some "pop") (Some (JStr "3"));
   Tag.mk (Some "electronic") (Some (JStr "10"));
   Tag.mk (Some "british") None;
   Tag.mk (Some "dance") (Some (JInt 3));
   Tag.mk (Some "house") (Some (JStr "7"))].

Definition seven_tags_source : TagSource :=
  {| search_artists := fun _ _ =>
       Some (mk_response (Some [Artist.mk (Some seven_tags)])) |}.

(** ** Example data *)

Definition example_cache : genre_cache :=
  <["Lane 8" := ["Drum and Bass"]]>
  (<["Netsky" := ["liquid DRUM AND BASS"; "electronic"]]>
  (<["Ghost" := []]> ∅)).

(** A world whose cache file holds [example_cache]. *)
Definition example_world : world :=
  new_world (Some (JsonText.dump example_cache)).

Definition example_names : list string := ["Ghost"; "Netsky"; "NewArtist"].

Definition dnb_events : list entry :=
  [play "a" "X" "Lane 8" 31000; play "b" "Y" "Netsky" 40000;
   play "b" "Y" "Netsky" 45000; play "c" "Z" "Ghost" 50000].

(** ** Notions used to state the properties *)

(** The sum of [f] over the values of a dictionary. *)
Definition dict_sum {V : Type} (f : V -> Z) (d : dict V) : Z :=
  sum_Z (map f (values d)).

(** What the loop of [aggregate_tracks] does with one event: count it
    ([Ok true]), skip it ([Ok false]) or raise. *)
Definition track_outcome (min_ms : Z) (e : entry) : result bool :=
  if negb (truthy (get e "spotify_track_uri"))
     || negb (truthy (get e "master_metadata_track_name")) then Ok false
  else
    match e !! "ms_played" with
    | None => Raise (KeyError "ms_played")
    | Some (JInt z) => Ok (negb (z <? min_ms))
    | Some _ => Raise TypeError
    end.

(** The same for [aggregate_artists]. *)
Definition artist_outcome (min_ms : Z) (e : entry) : result bool :=
  if negb (truthy (get e "master_metadata_album_artist_name"))
     || negb (truthy (get e "spotify_track_uri")) then Ok false
  else
    match e !! "ms_played" with
    | None => Raise (KeyError "ms_played")
    | Some (JInt z) => Ok (negb (z <? min_ms))
    | Some _ => Raise TypeError
    end.

Definition track_count : dict TrackStat.t -> Z := dict_sum TrackStat.play_count.
Definition artist_count : dict ArtistStat.t -> Z := dict_sum ArtistStat.play_count.

(** The number of events of [l] that [outcome] counts. *)
Definition counted (outcome : entry -> result bool) (l : list entry) : Z :=
  sum_Z (map (fun e => match outcome e with Ok true => 1 | _ => 0 end) l).

(** An integer [ms_played]. *)
Definition ms_played_int (e : entry) : option Z :=
  match e !! "ms_played" with
  | Some (JInt z) => Some z
  | _ => None
  end.

Definition has_uri (e : entry) : bool := truthy (get e "spotify_track_uri").
Definition has_track_name (e : entry) : bool :=
  truthy (get e "master_metadata_track_name").
Definition has_artist (e : entry) : bool :=
  truthy (get e "master_metadata_album_artist_name").

(** [ms_played] is an integer and at least [min_ms]. *)
Definition long_enough (min_ms : Z) (e : entry) : bool :=
  match ms_played_int e with
  | Some z => min_ms <=? z
  | None => false
  end.

(** A qualifying event: non-empty [track_uri], non-empty [track_name],
    [ms_played >= min_ms]. *)
Definition qualifies (min_ms : Z) (e : entry) : bool :=
  has_uri e && has_track_name e && long_enough min_ms e.

(** An event with a missing or empty [track_uri] or [track_name], or with an
    integer [ms_played] below [min_ms]. *)
Definition track_rejected (min_ms : Z) (e : entry) : bool :=
  negb (has_uri e) || negb (has_track_name e)
  || match ms_played_int e with Some z => z <? min_ms | None => false end.

(** An event with a missing or empty artist name or [track_uri], or with an
    integer [ms_played] below [min_ms]. *)
Definition artist_rejected (min_ms : Z) (e : entry) : bool :=
  negb (has_artist e) || negb (has_uri e)
  || match ms_played_int e with Some z => z <? min_ms | None => false end.

(** [rows] is [stats] ranked by [key]: the same elements, in descending
    order of the key, those with equal keys in the order of [stats]. *)
Definition stable_ranking {A : Type} (key : A -> Z) (stats rows : list A) : Prop :=
  rows ≡ₚ stats
  /\ StronglySorted (fun x y => key y <= key x) rows
  /\ forall k, filter (fun x => key x = k) rows = filter (fun x => key x = k) stats.

(** [ranked_rows] is [rows] with the ranks 1, 2, 3, ... *)
Definition numbered_from_one {A : Type} (rows : list A) (ranked_rows : list (Z * A))
  : Prop :=
  forall i, ranked_rows !! i = (fun x => (Z.of_nat i + 1, x)) <$> rows !! i.

(** An event with a track URI and an artist but no track name. *)
Definition nameless_play : entry :=
  <["spotify_track_uri" := JStr "a"]>
  (<["master_metadata_album_artist_name" := JStr "Art1"]>
  (<["ms_played" := JInt 40000]> ∅)).

(** An event without [ms_played]. *)
Definition play_without_ms : entry :=
  <["spotify_track_uri" := JStr "a"]>
  (<["master_metadata_track_name" := JStr "X"]>
  (<["master_metadata_album_artist_name" := JStr "Art1"]> ∅)).

(** The (tag name, relevance count) pair of a tag that has both. *)
Definition tag_pair `{PyBuiltins} (t : Tag.t) : option (string * Z) :=
  n ← Tag.name t; k ← tag_key t; Some (n, k).

(** In a list of events in the order they happened, no lookup is issued
    for a name after a lookup for it has succeeded. *)
Fixpoint no_search_after_success (evs : list event) : Prop :=
  match evs with
  | [] => True
  | ev :: evs' =>
      (forall n, ev = EvSearch n true -> forall ok, EvSearch n ok ∉ evs')
      /\ no_search_after_success evs'
  end.

(** An event of the fetch rounds over the names [todo]: a lookup of one of
    them, or a pause; never a save. *)
Definition round_event (todo : list string) (ev : event) : Prop :=
  match ev with
  | EvSearch n _ => n ∈ todo
  | EvSleep _ => True
  | EvSave _ => False
  end.

(** What a part of the fetch rounds does: it starts with the cache [c] and
    the names [todo] still to resolve, issues the events [evs], and ends with
    the cache [c'] and the names [todo']. *)
Record round_facts (todo : list string) (c c' : genre_cache)
    (todo' : list string) (evs : list event) : Prop := {
  rf_events : Forall (round_event todo) evs;
  rf_sub : todo' `sublist_of` todo;
  rf_frame : forall k, k ∉ todo -> c' !! k = c !! k;
  rf_mono : forall k, is_Some (c !! k) -> is_Some (c' !! k);
  rf_done : forall n, n ∈ todo -> is_Some (c' !! n) \/ n ∈ todo';
  rf_fail : forall n, (forall ok, EvSearch n ok ∈ evs -> ok = false) ->
            c' !! n = c !! n /\ (n ∈ todo -> n ∈ todo');
  rf_once : NoDup todo ->
            no_search_after_success evs
            /\ forall n, n ∈ todo' -> EvSearch n true ∉ evs;
}.

(** A call of [fetch_artist_genres] in the world [w] returns [result]
    after the events [evs] followed by one save of the cache [saved], which
    is then the content of the cache file. *)
Definition fetch_returns `{PyBuiltins} `{JsonCodec} `{TagSource}
    (artist_names : list string) (max_retries : Z) (w : world)
    (result : genre_cache) (evs : list event) (saved : genre_cache) : Prop :=
  exists w',
    fetch_artist_genres artist_names max_retries w = Ok (result, w')
    /\ events w' = events w ++ evs ++ [EvSave saved]
    /\ cache_file w' = Some (json_dump saved).

(** ** [scripts/analyze_history.py]: the rest of [main] *)

(** [[name for name, _ in top_artists[:200]]] *)
Definition top_artist_names (artists : dict ArtistStat.t) : list jval :=
  map fst (take 200 (top_artists artists)).

(** [artist_genres.get(name, [])]: the keys of [artist_genres] are strings,
    so a name that is not a string is not found. *)
Definition genres_of (artist_genres : genre_cache) (name : jval) : list string :=
  match name with
  | JStr s => default [] (artist_genres !! s)
  | _ => []
  end.

(** [d[genre] += amount] on a [defaultdict(int)] *)
Definition add_to_genre (amount : Z) (d : dict Z) (genre : string) : dict Z :=
  dict_set d (JStr genre) (default 0 (dict_get d (JStr genre)) + amount).

(** The loop of the genre breakdown: [genre_ms] and [genre_plays]. *)
Definition genre_breakdown (artists : dict ArtistStat.t)
    (artist_genres : genre_cache) : dict Z * dict Z :=
  foldl (fun st na =>
           foldl (fun '(genre_ms, genre_plays) genre =>
                    (add_to_genre (ArtistStat.total_ms (snd na)) genre_ms genre,
                     add_to_genre (ArtistStat.play_count (snd na)) genre_plays genre))
             st (genres_of artist_genres (fst na)))
    ([], []) artists.

(** [sorted(genre_ms.items(), key=lambda x: x[1], reverse=True)] *)
Definition top_genres (genre_ms : dict Z) : list (jval * Z) :=
  sorted_desc snd genre_ms.

(** ** [scripts/make_playlists.py]: the playlist of the last ten years *)

Module Recent.

(** [v >= s] for a string [s]; strings compare by their code points, which
    is the order of the bytes of their UTF-8 text. *)
Definition py_ge_str (v : jval) (s : string) : result bool :=
  match v with
  | JStr t => Ok (String.leb s t)
  | _ => Raise TypeError
  end.

(** [[e for e in entries if e.get('ts', '') >= '2016-01-01']] *)
Definition recent (entries : list entry) : result (list entry) :=
  for_each (fun acc e =>
              keep ← py_ge_str (get_default e "ts" (JStr "")) "2016-01-01";
              Ok (if (keep : bool) then acc ++ [e] else acc))
    [] entries.

(** [sorted(tracks.items(), key=lambda x: x[1]['play_count'], reverse=True)[:100]] *)
Definition top_100 (tracks : dict MakePlaylists.TrackStat.t)
  : list (jval * MakePlaylists.TrackStat.t) :=
  take 100 (sorted_desc (fun x => MakePlaylists.TrackStat.play_count (snd x)) tracks).

Definition top_100_recent (entries : list entry)
  : result (list (jval * MakePlaylists.TrackStat.t)) :=
  recent_entries ← recent entries;
  recent_tracks ← MakePlaylists.aggregate_tracks recent_entries default_min_ms;
  Ok (top_100 recent_tracks).

End Recent.

(** ** [scripts/create_playlist.py] *)

Module CreatePlaylist.

(** The requests that [create_playlist] posts. *)
Inductive request : Type :=
  | PostPlaylist (name : string) (public : bool) (description : string)
  | PostItems (playlist_id : string) (uris : list jval).

(** What [create_playlist] reads of the answer to the first request: the
    text of [playlist['id']], and [playlist['external_urls']] with its key
    ['spotify']; each of the keys may be missing. *)
Record playlist : Type := mk_playlist {
  id : option string;
  external_urls : option (option string);
}.

Inductive error : Type :=
  | ApiError
  | MissingKey (key : string).

(** [sp._post]: the answer to the [n]-th request of a call, [None] when the
    request raises. The answer to [PostItems] is not used. *)
Class Api : Type := {
  post : nat -> request -> option playlist;
}.

(** [range(0, stop, step)] *)
Definition py_range_step (stop step : nat) : list nat :=
  map (fun k => (k * step)%nat) (seq 0 ((stop + step - 1) / step)).

(** [[track_uris[i:i + 100] for i in range(0, len(track_uris), 100)]] *)
Definition batches {A : Type} (track_uris : list A) : list (list A) :=
  map (fun i => take 100 (drop i track_uris)) (py_range_step (length track_uris) 100).

Section Calls.
Context `{Api}.

(** The loop over the batches, from the [n]-th request on: the requests
    posted, in order, and whether all of them were answered. *)
Fixpoint post_batches (n : nat) (playlist_id : string) (bs : list (list jval))
  : list request * bool :=
  match bs with
  | [] => ([], true)
  | b :: bs' =>
      match post n (PostItems playlist_id b) with
      | Some _ =>
          let '(reqs, ok) := post_batches (S n) playlist_id bs' in
          (PostItems playlist_id b :: reqs, ok)
      | None => ([PostItems playlist_id b], false)
      end
  end.

(** [playlist['external_urls']['spotify']] *)
Definition playlist_url (p : playlist) : error + string :=
  match external_urls p with
  | None => inl (MissingKey "external_urls")
  | Some None => inl (MissingKey "spotify")
  | Some (Some url) => inr url
  end.

(** [create_playlist]: the requests it posts and the URL it returns or the
    exception it raises. [playlist['id']] is evaluated in the loop only. *)
Definition create_playlist (name : string) (track_uris : list jval)
    (description : string) (public : bool) : list request * (error + string) :=
  let first := PostPlaylist name public description in
  match post 0 first with
  | None => ([first], inl ApiError)
  | Some playlist =>
      match batches track_uris, id playlist with
      | _ :: _, None => ([first], inl (MissingKey "id"))
      | bs, playlist_id =>
          let '(reqs, ok) := post_batches 1 (default "" playlist_id) bs in
          (first :: reqs, if ok then playlist_url playlist else inl ApiError)
      end
  end.
End Calls.

(** A service that answers every request with the playlist [p]. *)
Definition accepting (p : playlist) : Api := {| post := fun _ _ => Some p |}.

(** A service that answers with [p], except for the [n]-th request, which
    raises. *)
Definition failing_at (n : nat) (p : playlist) : Api :=
  {| post := fun k _ => if decide (k = n) then None else Some p |}.

End CreatePlaylist.

(** ** [scripts/make_playlists.py]: [create_playlist] *)

Module Playlists.

(** The same requests as in [create_playlist.py], with ['public': True]. *)
Definition create_playlist `{CreatePlaylist.Api} (name : string)
    (track_uris : list jval) (description : string)
  : list CreatePlaylist.request * (CreatePlaylist.error + string) :=
  CreatePlaylist.create_playlist name track_uris description true.

End Playlists.

(** ** [scripts/analyze_history.py]: [load_streaming_history] *)

Module History.

(** [sorted(names)] on strings, ascending. *)
Fixpoint insert_asc (x : string) (l : list string) : list string :=
  match l with
  | [] => [x]
  | y :: l' => if String.leb x y then x :: y :: l' else y :: insert_asc x l'
  end.

Definition sorted_names (l : list string) : list string := foldr insert_asc [] l.

(** [s.endswith(suffix)] *)
Definition ends_with (suffix s : string) : bool :=
  String.prefix (String.rev suffix) (String.rev s).

(** [filename.startswith('Streaming_History_Audio') and
    filename.endswith('.json')] *)
Definition is_history_file (filename : string) : bool :=
  String.prefix "Streaming_History_Audio" filename && ends_with ".json" filename.

(** [load_streaming_history], from [os.listdir(DATA_DIR)] and from what
    opening a file of the directory and [json.load] give. *)
Definition load_streaming_history (listdir : list string)
    (read : string -> result (list entry)) : result (list entry) :=
  for_each (fun entries filename =>
              if is_history_file filename then
                loaded ← read filename; Ok (entries ++ loaded)
              else Ok entries)
    [] (sorted_names listdir).

End History.

(** A track of [analyze_history.py] as [make_playlists.py] keeps it. *)
Definition drop_album (t : TrackStat.t) : MakePlaylists.TrackStat.t :=
  MakePlaylists.TrackStat.mk (TrackStat.track_name t) (TrackStat.artist_name t)
    (TrackStat.play_count t) (TrackStat.total_ms t).

Definition drop_albums (tracks : dict TrackStat.t) : dict MakePlaylists.TrackStat.t :=
  map (fun kt => (fst kt, drop_album (snd kt))) tracks.

(** ** Notions used to state the further properties *)

Definition uri_of (e : entry) : jval := get e "spotify_track_uri".
Definition artist_of (e : entry) : jval :=
  get e "master_metadata_album_artist_name".

Global Instance pyexn_eq_dec : EqDecision pyexn.
Proof. solve_decision. Defined.
Global Instance result_eq_dec {A : Type} `{EqDecision A} : EqDecision (result A).
Proof. solve_decision. Defined.

(** The counted plays of one track, and of one artist, in the order of the
    input. *)
Definition track_plays (min_ms : Z) (uri : jval) (entries : list entry)
  : list entry :=
  filter (fun e => track_outcome min_ms e = Ok true /\ uri_of e = uri) entries.
Definition artist_plays (min_ms : Z) (artist : jval) (entries : list entry)
  : list entry :=
  filter (fun e => artist_outcome min_ms e = Ok true /\ artist_of e = artist) entries.

(** [ms_played] of an event that has an integer one. *)
Definition ms_of (e : entry) : Z := default 0 (ms_played_int e).

(** The elements of a list in the order of their first occurrence. *)
Definition add_key (acc : list jval) (k : jval) : list jval :=
  if decide (k ∈ acc) then acc else acc ++ [k].
Definition first_seen (l : list jval) : list jval := foldl add_key [] l.

(** What one counted event does to the statistics of its track and of its
    artist. *)
Definition track_update (t : TrackStat.t) (e : entry) : TrackStat.t :=
  TrackStat.mk (get e "master_metadata_track_name")
    (get_default e "master_metadata_album_artist_name" (JStr ""))
    (get_default e "master_metadata_album_album_name" (JStr ""))
    (TrackStat.play_count t + 1) (TrackStat.total_ms t + ms_of e).
Definition artist_update (a : ArtistStat.t) (e : entry) : ArtistStat.t :=
  ArtistStat.mk (ArtistStat.play_count a + 1) (ArtistStat.total_ms a + ms_of e)
    ({[uri_of e]} ∪ ArtistStat.track_uris a).

(** The result of [aggregate_tracks] and of [aggregate_artists] on
    [spec_events]. *)
Definition spec_tracks : dict TrackStat.t :=
  [(JStr "a", TrackStat.mk (JStr "X") (JStr "Art1") (JStr "") 1 31000);
   (JStr "b", TrackStat.mk (JStr "Y") (JStr "Art1") (JStr "") 1 40000)].
Definition spec_artists : dict ArtistStat.t :=
  [(JStr "Art1", ArtistStat.mk 2 71000 {[JStr "a"; JStr "b"]})].

(** A list of events in which every lookup is directly followed by the
    pause of 1.1 seconds. *)
Inductive paced : list event -> Prop :=
  | paced_nil : paced []
  | paced_search (n : string) (ok : bool) (evs : list event) :
      paced evs -> paced (EvSearch n ok :: EvSleep 1100 :: evs)
  | paced_sleep (ms : Z) (evs : list event) :
      paced evs -> paced (EvSleep ms :: evs).

Definition is_search (ev : event) : bool :=
  match ev with EvSearch _ _ => true | _ => false end.

(** The number of lookups in a list of events. *)
Definition searches (evs : list event) : nat :=
  length (List.filter is_search evs).

Definition is_search_of (name : string) (ev : event) : bool :=
  match ev with EvSearch n _ => bool_decide (n = name) | _ => false end.

(** The number of lookups of [name] in a list of events. *)
Definition searches_of (name : string) (evs : list event) : nat :=
  length (List.filter (is_search_of name) evs).

(** The number of times [name] is in [names]. *)
Definition times (name : string) (names : list string) : nat :=
  length (filter (fun n => n = name) names).

(** The names of [names] that are not keys of [cache], as [to_fetch]
    starts. *)
Definition pending (cache : genre_cache) (names : list string) : list string :=
  filter (fun n => cache !! n = None) names.

(** The events of a round over [l] in which every lookup fails. *)
Definition failed_round (l : list string) : list event :=
  flat_map (fun n => [EvSearch n false; EvSleep 1100]) l.

(** The events of [rounds] rounds over [l], numbered from [first], in
    which every lookup fails, when [n] attempts are allowed: after round
    [k] comes a pause of [5 * k] seconds, except after round [n]. *)
Definition failing_rounds (l : list string) (first rounds n : nat) : list event :=
  flat_map (fun k => failed_round l ++
                     if decide (k < n)%nat then [EvSleep (5000 * Z.of_nat k)] else [])
    (seq first rounds).

Definition failing_schedule (l : list string) (n : nat) : list event :=
  match l with
  | [] => []
  | _ :: _ => failing_rounds l 1 n n
  end.

(** An event that the playlist of the last ten years keeps: its [ts] is
    a string not before ['2016-01-01']; an event without [ts] is not kept. *)
Definition is_recent (e : entry) : bool :=
  match get_default e "ts" (JStr "") with
  | JStr t => String.leb "2016-01-01" t
  | _ => false
  end.

(** An event whose [ts] is absent or a string. *)
Definition ts_comparable (e : entry) : bool :=
  match get_default e "ts" (JStr "") with
  | JStr _ => true
  | _ => false
  end.

(** The event [{uri, name, artist, ms, ts}]. *)
Definition play_at (uri name artist : string) (ms : Z) (ts : string) : entry :=
  <["ts" := JStr ts]> (play uri name artist ms).

Definition dated_events : list entry :=
  [play_at "a" "X" "Art1" 31000 "2015-12-31T23:59:59Z";
   play_at "a" "X" "Art1" 32000 "2016-01-01T00:00:00Z";
   play "b" "Y" "Art1" 40000;
   play_at "c" "Z" "Art2" 50000 "2020-05-17T10:00:00Z"].

(** The URIs of the items requests among [reqs], in order. *)
Definition posted_uris (reqs : list CreatePlaylist.request) : list jval :=
  flat_map (fun r => match r with
                    | CreatePlaylist.PostItems _ uris => uris
                    | CreatePlaylist.PostPlaylist _ _ _ => []
                    end)
    reqs.

(** A list of 150 URIs, and the answer of a service to the creation of a
    playlist. *)
Definition many_uris : list jval :=
  replicate 150 (JStr "spotify:track:6rqhFgbbKwnb9MLmUQDhG6").

Definition example_playlist : CreatePlaylist.playlist :=
  CreatePlaylist.mk_playlist (Some "p1")
    (Some (Some "https://open.spotify.com/playlist/p1")).

Definition playlist_without_id : CreatePlaylist.playlist :=
  CreatePlaylist.mk_playlist None
    (Some (Some "https://open.spotify.com/playlist/p1")).

(** The files that [load_streaming_history] reads, in the order it reads
    them. *)
Definition history_files (listdir : list string) : list string :=
  List.filter History.is_history_file (History.sorted_names listdir).

(** Two ways of reading the directory: the first fails on what is not a
    history file. *)
Definition example_read (filename : string) : result (list entry) :=
  if History.is_history_file filename then Ok [play filename "X" "Art1" 31000]
  else Raise ValueError.

Definition example_read_all (filename : string) : result (list entry) :=
  Ok [play filename "X" "Art1" 31000].

(** The names as [fetch_artist_genres] takes them, when all of them are
    strings. *)
Definition names_of (names : list jval) : option (list string) :=
  mapM (fun v => match v with JStr s => Some s | _ => None end) names.

(** The genres that the loop of the genre breakdown meets, in order and
    with repetitions. *)
Definition all_genres (artists : dict ArtistStat.t) (artist_genres : genre_cache)
  : list string :=
  flat_map (fun na => genres_of artist_genres (fst na)) artists.

(** The number of times [genre] is among [genres]. *)
Definition occurrences (genre : string) (genres : list string) : Z :=
  Z.of_nat (length (filter (fun g => g = genre) genres)).

(** The sum of [amount] over the artists, once for each occurrence of
    [genre] among the genres of the artist. *)
Definition genre_total (amount : ArtistStat.t -> Z) (artists : dict ArtistStat.t)
    (artist_genres : genre_cache) (genre : string) : Z :=
  sum_Z (map (fun na => amount (snd na)
                        * occurrences genre (genres_of artist_genres (fst na)))
           artists).

(** One of the two dictionaries of the genre breakdown, from [d] on. *)
Definition breakdown_by (amount : ArtistStat.t -> Z) (artist_genres : genre_cache)
    (d : dict Z) (artists : dict ArtistStat.t) : dict Z :=
  foldl (fun d na => foldl (add_to_genre (amount (snd na))) d
                       (genres_of artist_genres (fst na)))
    d artists.

(** An artist whose name is among [top_artist_names]. *)
Definition in_top_200 (artists : dict ArtistStat.t) (na : jval * ArtistStat.t) : bool :=
  bool_decide (fst na ∈ top_artist_names artists).

(** Three artists of [example_cache] with their statistics. *)
Definition two_genre_artists : dict ArtistStat.t :=
  [(JStr "Netsky", ArtistStat.mk 2 85000 {[JStr "b"]});
   (JStr "Ghost", ArtistStat.mk 1 50000 {[JStr "c"]});
   (JStr "Lane 8", ArtistStat.mk 1 31000 {[JStr "a"]})].

(** * Properties *)

(** ** Insertion-ordered dictionaries *)

Section DictSum.
Context {V : Type} (f : V -> Z).

Lemma dict_sum_set (d : dict V) (k : jval) (v : V) :
  dict_sum f (dict_set d k v) =
  dict_sum f d - from_option f 0 (dict_get d k) + f v.
Proof.
  unfold dict_sum, values.
  induction d as [|[k' v'] d IH]; simpl.
  - lia.
  - destruct (decide (k = k')) as [->|Hne]; simpl.
    + lia.
    + rewrite IH. lia.
Qed.
End DictSum.

Lemma for_each_app {S A : Type} (body : S -> A -> result S) (s : S) (l1 l2 : list A) :
  for_each body s (l1 ++ l2) = (s' ← for_each body s l1; for_each body s' l2).
Proof.
  revert s. induction l1 as [|x l1 IH]; intros s; simpl.
  - reflexivity.
  - destruct (body s x) as [s'|e]; simpl; [apply IH | reflexivity].
Qed.

(** ** Aggregation *)

(** The events of the example of the specification. *)
Example aggregate_tracks_spec_events :
  aggregate_tracks spec_events 30000 =
  Ok [(JStr "a", TrackStat.mk (JStr "X") (JStr "Art1") (JStr "") 1 31000);
      (JStr "b", TrackStat.mk (JStr "Y") (JStr "Art1") (JStr "") 1 40000)].
Proof. vm_compute. reflexivity. Qed.

Example aggregate_artists_spec_events :
  aggregate_artists spec_events 30000 =
  Ok [(JStr "Art1", ArtistStat.mk 2 71000 {[JStr "a"; JStr "b"]})].
Proof. vm_compute. reflexivity. Qed.

Lemma track_body_outcome (min_ms : Z) (d : dict TrackStat.t) (e : entry) :
  match track_outcome min_ms e with
  | Ok true =>
      exists d', aggregate_tracks_body min_ms d e = Ok d'
                 /\ track_count d' = track_count d + 1
  | Ok false => aggregate_tracks_body min_ms d e = Ok d
  | Raise x => aggregate_tracks_body min_ms d e = Raise x
  end.
Proof.
  unfold track_outcome, aggregate_tracks_body, getitem.
  destruct (negb _ || negb _); [reflexivity|].
  destruct (e !! "ms_played") as [[| |z]|]; simpl; try reflexivity.
  destruct (z <? min_ms); simpl; [reflexivity|].
  eexists. split; [reflexivity|].
  unfold track_count. rewrite dict_sum_set. simpl.
  destruct (dict_get d _); simpl; lia.
Qed.

Lemma artist_body_outcome (min_ms : Z) (d : dict ArtistStat.t) (e : entry) :
  match artist_outcome min_ms e with
  | Ok true =>
      exists d', aggregate_artists_body min_ms d e = Ok d'
                 /\ artist_count d' = artist_count d + 1
  | Ok false => aggregate_artists_body min_ms d e = Ok d
  | Raise x => aggregate_artists_body min_ms d e = Raise x
  end.
Proof.
  unfold artist_outcome, aggregate_artists_body, getitem.
  destruct (negb _ || negb _); [reflexivity|].
  destruct (e !! "ms_played") as [[| |z]|]; simpl; try reflexivity.
  destruct (z <? min_ms); simpl; [reflexivity|].
  eexists. split; [reflexivity|].
  unfold artist_count. rewrite dict_sum_set. simpl.
  destruct (dict_get d _); simpl; lia.
Qed.

(** A loop whose body follows [outcome]: when it returns, no event raises
    and [measure] has grown by the number of counted events; a skipped
    event leaves no trace, and an event that raises after a part that
    returns makes the loop raise. *)
Section Counting.
Context {S : Type} (body : S -> entry -> result S)
  (outcome : entry -> result bool) (measure : S -> Z).
Hypothesis body_outcome : forall s e,
  match outcome e with
  | Ok true => exists s', body s e = Ok s' /\ measure s' = measure s + 1
  | Ok false => body s e = Ok s
  | Raise x => body s e = Raise x
  end.

Lemma for_each_counted (l : list entry) (s s' : S) :
  for_each body s l = Ok s' ->
  measure s' = measure s + counted outcome l
  /\ Forall (fun e => exists b, outcome e = Ok b) l.
Proof.
  revert s. induction l as [|e l IH]; intros s; simpl.
  - intros [= <-]. unfold counted; simpl. split; [lia | constructor].
  - pose proof (body_outcome s e) as Hb. unfold counted; simpl.
    destruct (outcome e) as [[|]|x] eqn:Ho; simpl.
    + destruct Hb as (s1 & -> & Hm). simpl. intros Hl.
      destruct (IH _ Hl) as [Hs HF]. unfold counted in Hs.
      split; [lia | constructor; eauto].
    + rewrite Hb. simpl. intros Hl.
      destruct (IH _ Hl) as [Hs HF]. unfold counted in Hs.
      split; [lia | constructor; eauto].
    + rewrite Hb. simpl. discriminate.
Qed.

Lemma for_each_all_skipped (l : list entry) (s : S) :
  Forall (fun e => outcome e = Ok false) l -> for_each body s l = Ok s.
Proof.
  induction 1 as [|e l He _ IH]; simpl; [reflexivity|].
  pose proof (body_outcome s e) as Hb. rewrite He in Hb. rewrite Hb. exact IH.
Qed.

Lemma for_each_raises (l1 l2 : list entry) (e : entry) (s s1 : S) (x : pyexn) :
  for_each body s l1 = Ok s1 -> outcome e = Raise x ->
  for_each body s (l1 ++ e :: l2) = Raise x.
Proof.
  intros Hl1 He. rewrite for_each_app, Hl1. simpl.
  pose proof (body_outcome s1 e) as Hb. rewrite He in Hb. by rewrite Hb.
Qed.

Lemma for_each_skip (l1 l2 : list entry) (e : entry) (s : S) :
  outcome e = Ok false ->
  for_each body s (l1 ++ e :: l2) = for_each body s (l1 ++ l2).
Proof.
  intros He. rewrite !for_each_app.
  destruct (for_each body s l1) as [s1|x]; simpl; [|reflexivity].
  pose proof (body_outcome s1 e) as Hb. rewrite He in Hb.
  rewrite Hb. reflexivity.
Qed.
End Counting.

Lemma outcomes_agree (min_ms : Z) (e : entry) (b1 b2 : bool) :
  (qualifies min_ms e = true -> has_artist e = true) ->
  (has_uri e && has_artist e && long_enough min_ms e = true ->
   has_track_name e = true) ->
  track_outcome min_ms e = Ok b1 ->
  artist_outcome min_ms e = Ok b2 ->
  b1 = b2.
Proof.
  unfold qualifies, long_enough, ms_played_int, has_uri, has_track_name,
    has_artist, track_outcome, artist_outcome.
  destruct (truthy (get e "spotify_track_uri")),
    (truthy (get e "master_metadata_track_name")),
    (truthy (get e "master_metadata_album_artist_name")),
    (e !! "ms_played") as [[| |z]|]; simpl; try congruence;
    rewrite <- Z.leb_antisym; destruct (min_ms <=? z); simpl;
    intros H1 H2; try congruence;
    try (specialize (H1 eq_refl)); try (specialize (H2 eq_refl)); congruence.
Qed.

Lemma counted_agree (min_ms : Z) (entries : list entry) :
  Forall (fun e => qualifies min_ms e = true -> has_artist e = true) entries ->
  Forall (fun e => has_uri e && has_artist e && long_enough min_ms e = true ->
                   has_track_name e = true) entries ->
  Forall (fun e => exists b, track_outcome min_ms e = Ok b) entries ->
  Forall (fun e => exists b, artist_outcome min_ms e = Ok b) entries ->
  counted (track_outcome min_ms) entries = counted (artist_outcome min_ms) entries.
Proof.
  unfold counted.
  induction 1 as [|e l H1 _ IH]; intros H2 Ht Ha; [reflexivity|].
  inversion H2 as [|? ? H2e H2l]; subst.
  inversion Ht as [|? ? [b1 Hb1] Htl]; subst.
  inversion Ha as [|? ? [b2 Hb2] Hal]; subst.
  simpl. rewrite (IH H2l Htl Hal).
  rewrite (outcomes_agree min_ms e b1 b2 H1 H2e Hb1 Hb2) in Hb1.
  rewrite Hb1, Hb2. reflexivity.
Qed.

(** C1, as amended: when every qualifying event has a non-empty artist name
    and, conversely, every event with a non-empty track URI, a non-empty
    artist name and [ms_played >= min_ms] has a non-empty track name, the
    play counts of the tracks that [aggregate_tracks] returns and of the
    artists that [aggregate_artists] returns have the same sum. *)
Theorem play_count_sums_agree (entries : list entry) (min_ms : Z)
    (tracks : dict TrackStat.t) (artists : dict ArtistStat.t) :
  Forall (fun e => qualifies min_ms e = true -> has_artist e = true) entries ->
  Forall (fun e => has_uri e && has_artist e && long_enough min_ms e = true ->
                   has_track_name e = true) entries ->
  aggregate_tracks entries min_ms = Ok tracks ->
  aggregate_artists entries min_ms = Ok artists ->
  track_count tracks = artist_count artists.
Proof.
  intros H1 H2 Ht Ha.
  apply (for_each_counted _ _ track_count (track_body_outcome min_ms)) in Ht
    as [Hct HFt].
  apply (for_each_counted _ _ artist_count (artist_body_outcome min_ms)) in Ha
    as [Hca HFa].
  rewrite Hct, Hca. unfold track_count, artist_count, dict_sum; simpl.
  f_equal. apply counted_agree; assumption.
Qed.

(** C1, as stated, fails: an event with a track URI and an artist but no
    track name is not a qualifying event, so the condition of the claim
    holds, and [aggregate_artists] counts it while [aggregate_tracks] does
    not. *)
Lemma play_count_sums_differ :
  Forall (fun e => qualifies 30000 e = true -> has_artist e = true) [nameless_play]
  /\ aggregate_tracks [nameless_play] 30000 = Ok []
  /\ aggregate_artists [nameless_play] 30000 =
       Ok [(JStr "Art1", ArtistStat.mk 1 40000 {[JStr "a"]})]
  /\ track_count [] = 0
  /\ artist_count [(JStr "Art1", ArtistStat.mk 1 40000 {[JStr "a"]})] = 1.
Proof.
  split; [|repeat split; vm_compute; reflexivity].
  repeat constructor.
Qed.

(** The events of the example of the specification satisfy both conditions. *)
Lemma play_count_sums_agree_witness :
  track_count [(JStr "a", TrackStat.mk (JStr "X") (JStr "Art1") (JStr "") 1 31000);
               (JStr "b", TrackStat.mk (JStr "Y") (JStr "Art1") (JStr "") 1 40000)]
  = artist_count [(JStr "Art1", ArtistStat.mk 2 71000 {[JStr "a"; JStr "b"]})].
Proof.
  apply (play_count_sums_agree spec_events 30000).
  - repeat constructor; intros _; vm_compute; reflexivity.
  - repeat constructor; intros _; vm_compute; reflexivity.
  - vm_compute. reflexivity.
  - vm_compute. reflexivity.
Defined.

Lemma track_rejected_outcome (min_ms : Z) (e : entry) :
  track_rejected min_ms e = true -> track_outcome min_ms e = Ok false.
Proof.
  unfold track_rejected, has_uri, has_track_name, ms_played_int, track_outcome.
  destruct (negb _ || negb _); simpl; [reflexivity|].
  destruct (e !! "ms_played") as [[| |z]|]; simpl; try discriminate.
  intros ->. reflexivity.
Qed.

Lemma artist_rejected_outcome (min_ms : Z) (e : entry) :
  artist_rejected min_ms e = true -> artist_outcome min_ms e = Ok false.
Proof.
  unfold artist_rejected, has_uri, has_artist, ms_played_int, artist_outcome.
  destruct (negb _ || negb _); simpl; [reflexivity|].
  destruct (e !! "ms_played") as [[| |z]|]; simpl; try discriminate.
  intros ->. reflexivity.
Qed.

Lemma track_outcome_without_ms (min_ms : Z) (e : entry) :
  has_uri e = true -> has_track_name e = true -> e !! "ms_played" = None ->
  track_outcome min_ms e = Raise (KeyError "ms_played").
Proof.
  unfold has_uri, has_track_name, track_outcome. intros -> -> ->. reflexivity.
Qed.

Lemma artist_outcome_without_ms (min_ms : Z) (e : entry) :
  has_artist e = true -> has_uri e = true -> e !! "ms_played" = None ->
  artist_outcome min_ms e = Raise (KeyError "ms_played").
Proof.
  unfold has_uri, has_artist, artist_outcome. intros -> -> ->. reflexivity.
Qed.

(** C2, as amended: an event with a missing or empty [track_uri] or
    [track_name] (for [aggregate_artists]: artist name or [track_uri]), or
    with an integer [ms_played] below [min_ms], is silently excluded: the
    result is the one without the event, and events of this kind alone
    give the empty mapping. The first event that passes the test of the
    names without [ms_played] makes the function raise [KeyError]. *)
Theorem rejected_events_are_excluded (entries : list entry) (min_ms : Z) :
  (Forall (fun e => track_rejected min_ms e = true) entries ->
   aggregate_tracks entries min_ms = Ok [])
  /\ (Forall (fun e => artist_rejected min_ms e = true) entries ->
      aggregate_artists entries min_ms = Ok [])
  /\ (forall l1 e l2,
        entries = l1 ++ e :: l2 -> track_rejected min_ms e = true ->
        aggregate_tracks entries min_ms = aggregate_tracks (l1 ++ l2) min_ms)
  /\ (forall l1 e l2,
        entries = l1 ++ e :: l2 -> artist_rejected min_ms e = true ->
        aggregate_artists entries min_ms = aggregate_artists (l1 ++ l2) min_ms)
  /\ (forall l1 e l2 tracks,
        entries = l1 ++ e :: l2 -> aggregate_tracks l1 min_ms = Ok tracks ->
        has_uri e = true -> has_track_name e = true -> e !! "ms_played" = None ->
        aggregate_tracks entries min_ms = Raise (KeyError "ms_played"))
  /\ (forall l1 e l2 artists,
        entries = l1 ++ e :: l2 -> aggregate_artists l1 min_ms = Ok artists ->
        has_artist e = true -> has_uri e = true -> e !! "ms_played" = None ->
        aggregate_artists entries min_ms = Raise (KeyError "ms_played")).
Proof.
  split_and!.
  - intros HF.
    apply (for_each_all_skipped _ _ track_count (track_body_outcome min_ms)).
    eapply Forall_impl; [exact HF|]. intros e. apply track_rejected_outcome.
  - intros HF.
    apply (for_each_all_skipped _ _ artist_count (artist_body_outcome min_ms)).
    eapply Forall_impl; [exact HF|]. intros e. apply artist_rejected_outcome.
  - intros l1 e l2 -> He.
    apply (for_each_skip _ _ track_count (track_body_outcome min_ms)).
    by apply track_rejected_outcome.
  - intros l1 e l2 -> He.
    apply (for_each_skip _ _ artist_count (artist_body_outcome min_ms)).
    by apply artist_rejected_outcome.
  - intros l1 e l2 tracks -> Hl1 Hu Hn Hms.
    apply (for_each_raises _ _ track_count (track_body_outcome min_ms) l1 l2 e []
             tracks); [exact Hl1|].
    by apply track_outcome_without_ms.
  - intros l1 e l2 artists -> Hl1 Ha Hu Hms.
    apply (for_each_raises _ _ artist_count (artist_body_outcome min_ms) l1 l2 e []
             artists); [exact Hl1|].
    by apply artist_outcome_without_ms.
Qed.

(** C2, as stated, fails: an event with a track URI, a track name and an
    artist but no [ms_played] makes both functions raise [KeyError]. *)
Lemma missing_ms_played_raises :
  aggregate_tracks [play_without_ms] 30000 = Raise (KeyError "ms_played")
  /\ aggregate_artists [play_without_ms] 30000 = Raise (KeyError "ms_played").
Proof. split; vm_compute; reflexivity. Qed.

(** Two excluded events alone; the event of 29000 ms of the example; an
    event without [ms_played] after one that is counted. *)
Lemma rejected_events_are_excluded_witness :
  aggregate_tracks [play "a" "X" "Art1" 29000; nameless_play] 30000 = Ok []
  /\ aggregate_tracks ([play "a" "X" "Art1" 31000] ++ play "a" "X" "Art1" 29000
                        :: [play "b" "Y" "Art1" 40000]) 30000
     = aggregate_tracks ([play "a" "X" "Art1" 31000] ++ [play "b" "Y" "Art1" 40000])
         30000
  /\ aggregate_artists ([play "a" "X" "Art1" 31000] ++ play_without_ms
                         :: [play "b" "Y" "Art1" 40000]) 30000
     = Raise (KeyError "ms_played").
Proof.
  split_and!.
  - apply (rejected_events_are_excluded [play "a" "X" "Art1" 29000; nameless_play]
             30000).
    repeat (apply Forall_cons_2; [vm_compute; reflexivity|]). apply Forall_nil_2.
  - pose proof (rejected_events_are_excluded spec_events 30000)
      as (_ & _ & Hskip & _).
    apply (Hskip [play "a" "X" "Art1" 31000] (play "a" "X" "Art1" 29000)
             [play "b" "Y" "Art1" 40000]); reflexivity.
  - pose proof (rejected_events_are_excluded
                  ([play "a" "X" "Art1" 31000] ++ play_without_ms
                   :: [play "b" "Y" "Art1" 40000]) 30000)
      as (_ & _ & _ & _ & _ & Hraise).
    apply (Hraise [play "a" "X" "Art1" 31000] play_without_ms
             [play "b" "Y" "Art1" 40000]
             [(JStr "Art1", ArtistStat.mk 1 31000 {[JStr "a"]})]);
      vm_compute; reflexivity.
Defined.

(** ** Sorting *)

Section Sorting.
Context {A : Type} (key : A -> Z).

Lemma insert_desc_perm (x : A) (l : list A) :
  Permutation (insert_desc key x l) (x :: l).
Proof.
  induction l as [|y l IH]; simpl; [reflexivity|].
  destruct (key x <? key y); [|reflexivity].
  rewrite IH. apply perm_swap.
Qed.

Lemma sorted_desc_perm (l : list A) : Permutation (sorted_desc key l) l.
Proof.
  induction l as [|x l IH]; simpl; [reflexivity|].
  rewrite insert_desc_perm. by constructor.
Qed.

Lemma insert_desc_sorted (x : A) (l : list A) :
  StronglySorted (fun a b => key b <= key a) l ->
  StronglySorted (fun a b => key b <= key a) (insert_desc key x l).
Proof.
  induction 1 as [|y l Hs IH Hy]; simpl.
  - repeat constructor.
  - destruct (key x <? key y) eqn:Hlt.
    + apply Z.ltb_lt in Hlt. constructor; [exact IH|].
      rewrite insert_desc_perm. constructor; [lia | exact Hy].
    + apply Z.ltb_ge in Hlt. constructor; [by constructor|].
      constructor; [exact Hlt|].
      eapply Forall_impl; [exact Hy|]. simpl. intros; lia.
Qed.

Lemma sorted_desc_sorted (l : list A) :
  StronglySorted (fun a b => key b <= key a) (sorted_desc key l).
Proof.
  induction l as [|x l IH]; simpl; [constructor|].
  by apply insert_desc_sorted.
Qed.

Lemma insert_desc_stable (k : Z) (x : A) (l : list A) :
  filter (fun a => key a = k) (insert_desc key x l)
  = filter (fun a => key a = k) (x :: l).
Proof.
  induction l as [|y l IH]; simpl; [reflexivity|].
  destruct (key x <? key y) eqn:Hlt; [|reflexivity].
  apply Z.ltb_lt in Hlt.
  rewrite (filter_cons _ y), IH, !filter_cons.
  repeat case_decide; try reflexivity; lia.
Qed.

Lemma sorted_desc_stable (k : Z) (l : list A) :
  filter (fun a => key a = k) (sorted_desc key l) = filter (fun a => key a = k) l.
Proof.
  induction l as [|x l IH]; simpl; [reflexivity|].
  rewrite insert_desc_stable, !filter_cons, IH. reflexivity.
Qed.

Lemma enumerate_lookup (start : Z) (l : list A) (i : nat) :
  enumerate start l !! i = (fun x => (start + Z.of_nat i, x)) <$> l !! i.
Proof.
  revert start i. induction l as [|x l IH]; intros start [|i]; simpl;
    try reflexivity.
  - do 2 f_equal. lia.
  - rewrite IH. destruct (l !! i); simpl; [|reflexivity].
    do 2 f_equal. lia.
Qed.

Lemma enumerate_length (start : Z) (l : list A) :
  length (enumerate start l) = length l.
Proof. revert start. induction l; intros; simpl; auto. Qed.
End Sorting.

(** Sorting two lists whose elements are related pairwise, with the same
    keys, relates the results pairwise. *)
Section SortingRelated.
Context {A B : Type} (ka : A -> Z) (kb : B -> Z) (R : A -> B -> Prop).
Hypothesis R_key : forall a b, R a b -> ka a = kb b.

Lemma insert_desc_Forall2 (a : A) (b : B) (la : list A) (lb : list B) :
  R a b -> Forall2 R la lb ->
  Forall2 R (insert_desc ka a la) (insert_desc kb b lb).
Proof.
  intros Hab. induction 1 as [|a' b' la lb Hab' HF IH]; simpl.
  - by repeat constructor.
  - rewrite (R_key _ _ Hab), (R_key _ _ Hab').
    destruct (kb b <? kb b'); repeat constructor; assumption.
Qed.

Lemma sorted_desc_Forall2 (la : list A) (lb : list B) :
  Forall2 R la lb -> Forall2 R (sorted_desc ka la) (sorted_desc kb lb).
Proof.
  induction 1; simpl; [constructor|]. by apply insert_desc_Forall2.
Qed.
End SortingRelated.

(** [sorted(..., key=key, reverse=True)] ranks, whatever the key, and
    [enumerate(..., 1)] numbers from one. *)
Lemma sorted_desc_ranking {A : Type} (key : A -> Z) (stats : list A) :
  stable_ranking key stats (sorted_desc key stats).
Proof.
  split_and!.
  - apply sorted_desc_perm.
  - apply sorted_desc_sorted.
  - intros k. apply sorted_desc_stable.
Qed.

Lemma ranked_numbered {A : Type} (n : nat) (rows : list A) :
  numbered_from_one (take n rows) (ranked n rows).
Proof. intros i. unfold ranked. by rewrite enumerate_lookup, Z.add_comm. Qed.

(** C8: the rankings of [main], of the tracks and of the artists by play
    count and of the genres by listening time, hold the entries of the
    mapping in descending order of the key, entries with equal keys in the
    iteration order of the mapping; the rows printed and exported are the
    first [n] of the ranking, numbered 1, 2, 3, ... *)
Theorem ranking_is_stable_descending (tracks : dict TrackStat.t)
    (artists : dict ArtistStat.t) (genre_ms : dict Z) (n : nat) :
  stable_ranking (fun x => TrackStat.play_count (snd x)) tracks (top_tracks tracks)
  /\ stable_ranking (fun x => ArtistStat.play_count (snd x)) artists
       (top_artists artists)
  /\ stable_ranking snd genre_ms (top_genres genre_ms)
  /\ numbered_from_one (take n (top_tracks tracks)) (ranked n (top_tracks tracks))
  /\ numbered_from_one (take n (top_artists artists)) (ranked n (top_artists artists))
  /\ numbered_from_one (take n (top_genres genre_ms)) (ranked n (top_genres genre_ms)).
Proof.
  split_and!; try apply ranked_numbered.
  - apply (sorted_desc_ranking (fun x => TrackStat.play_count (snd x))).
  - apply (sorted_desc_ranking (fun x => ArtistStat.play_count (snd x))).
  - apply (sorted_desc_ranking snd).
Qed.

(** Four tracks with play counts 1, 2, 1, 2: the two with 2 plays come
    first, and tracks with equal counts keep the order of the mapping. *)
Example top_tracks_ties :
  let stat n := TrackStat.mk (JStr "X") (JStr "Art1") (JStr "") n 0 in
  ranked 3 (top_tracks [(JStr "a", stat 1); (JStr "b", stat 2);
                        (JStr "c", stat 1); (JStr "d", stat 2)])
  = [(1, (JStr "b", stat 2)); (2, (JStr "d", stat 2)); (3, (JStr "a", stat 1))].
Proof. reflexivity. Qed.

(** ** The resolver: one lookup *)

Section TopTags.
Context `{PyBuiltins}.

Lemma keyed_tags (tags : list Tag.t) (pairs : list (string * Z)) :
  mapM tag_pair tags = Some pairs ->
  exists keyed,
    mapM (fun t => k ← tag_key t; Some (k, t)) tags = Some keyed
    /\ Forall2 (fun (kt : Z * Tag.t) (p : string * Z) =>
                  fst kt = snd p /\ Tag.name (snd kt) = Some (fst p)) keyed pairs.
Proof.
  rewrite mapM_Some. induction 1 as [|t p tags pairs Hp _ (keyed & Hk & HF)].
  - exists []. split; [reflexivity | constructor].
  - unfold tag_pair in Hp.
    destruct (Tag.name t) as [n|] eqn:Hn; simpl in Hp; [|discriminate].
    destruct (tag_key t) as [k|] eqn:Hkey; simpl in Hp; [|discriminate].
    injection Hp as <-.
    exists ((k, t) :: keyed). split.
    + simpl. rewrite Hkey. simpl. rewrite Hk. reflexivity.
    + constructor; [split; [reflexivity | exact Hn] | exact HF].
Qed.

Lemma top_tags_pairs (a : Artist.t) (rest : list Artist.t)
    (tags : list Tag.t) (pairs : list (string * Z)) :
  Artist.tag_list a = Some tags ->
  mapM tag_pair tags = Some pairs ->
  top_tags (Some (mk_response (Some (a :: rest))))
  = Some (take 5 (map fst (sorted_desc snd pairs))).
Proof.
  intros Ha Hp. destruct (keyed_tags _ _ Hp) as (keyed & Hk & HF).
  unfold top_tags, sorted_tags. simpl. rewrite Ha. simpl. rewrite Hk. simpl.
  apply mapM_Some. apply Forall2_take.
  apply Forall2_fmap.
  eapply Forall2_impl.
  - apply (sorted_desc_Forall2 fst snd); [|exact HF].
    intros kt p [Hkey _]. exact Hkey.
  - simpl. intros kt p [_ Hn]. exact Hn.
Qed.
End TopTags.

(** C7: after a successful lookup that returns a matched entity with a list
    of (tag, relevance count) pairs, the entry stored for the name is the
    list of the tag names of the first five pairs in descending order of
    the count, pairs with equal counts in the order of the source; it has
    at most five elements. *)
Theorem stored_tags_are_top_five `{PyBuiltins} `{TagSource}
    (cache : genre_cache) (failed : list string) (w : world) (name : string)
    (r : response) (a : Artist.t) (rest : list Artist.t) (tags : list Tag.t)
    (pairs : list (string * Z)) :
  search_artists (lookups w) name = Some r ->
  artist_list r = Some (a :: rest) ->
  Artist.tag_list a = Some tags ->
  mapM tag_pair tags = Some pairs ->
  exists ranking : list (string * Z),
    Permutation ranking pairs
    /\ StronglySorted (fun x y => snd y <= snd x) ranking
    /\ (forall k, filter (fun x => snd x = k) ranking = filter (fun x => snd x = k) pairs)
    /\ (fetch_one (cache, failed, w) name).1.1 !! name
       = Some (take 5 (map fst ranking))
    /\ (length (take 5 (map fst ranking)) <= 5)%nat.
Proof.
  intros Hs Hr Ha Hp. exists (sorted_desc snd pairs).
  split; [apply sorted_desc_perm|].
  split; [apply sorted_desc_sorted|].
  split; [intros k; apply sorted_desc_stable|].
  split.
  - unfold fetch_one. rewrite Hs. destruct r as [al]. simpl in Hr. subst al.
    rewrite (top_tags_pairs a rest tags pairs Ha Hp). simpl.
    apply lookup_insert_eq.
  - rewrite length_take. lia.
Qed.

(** Seven tags, two pairs of them with equal counts. *)
Lemma stored_tags_are_top_five_witness :
  exists ranking : list (string * Z),
    Permutation ranking
      [("indie", 2); ("rock", 10); ("pop", 3); ("electronic", 10);
       ("british", 0); ("dance", 3); ("house", 7)]
    /\ StronglySorted (fun x y => snd y <= snd x) ranking
    /\ (forall k, filter (fun x => snd x = k) ranking
                  = filter (fun x => snd x = k)
                      [("indie", 2); ("rock", 10); ("pop", 3); ("electronic", 10);
                       ("british", 0); ("dance", 3); ("house", 7)])
    /\ (@fetch_one AsciiText.builtins seven_tags_source
          (∅, [], new_world None) "Artist").1.1 !! "Artist"
       = Some (take 5 (map fst ranking))
    /\ (length (take 5 (map fst ranking)) <= 5)%nat.
Proof.
  apply (@stored_tags_are_top_five AsciiText.builtins seven_tags_source
           ∅ [] (new_world None) "Artist"
           (mk_response (Some [Artist.mk (Some seven_tags)]))
           (Artist.mk (Some seven_tags)) [] seven_tags); reflexivity.
Defined.

Example fetch_one_seven_tags :
  (@fetch_one AsciiText.builtins seven_tags_source
     (∅, [], new_world None) "Artist").1.1 !! "Artist"
  = Some ["rock"; "electronic"; "house"; "pop"; "dance"].
Proof. vm_compute. reflexivity. Qed.

(** ** The resolver: the fetch rounds *)

Lemma no_search_after_success_app (e1 e2 : list event) :
  no_search_after_success e1 -> no_search_after_success e2 ->
  (forall n ok, EvSearch n true ∈ e1 -> EvSearch n ok ∉ e2) ->
  no_search_after_success (e1 ++ e2).
Proof.
  intros H1 H2 Hx. induction e1 as [|ev e1 IH]; simpl; [exact H2|].
  destruct H1 as [Hev H1]. split.
  - intros n -> ok. rewrite elem_of_app. intros [Hin|Hin].
    + exact (Hev n eq_refl ok Hin).
    + apply (Hx n ok); [left | exact Hin].
  - apply IH; [exact H1|]. intros n ok Hin. apply Hx. by right.
Qed.

Lemma no_search_after_success_split (evs e1 e2 : list event) (n : string) :
  no_search_after_success evs -> evs = e1 ++ EvSearch n true :: e2 ->
  forall ok, EvSearch n ok ∉ e2.
Proof.
  intros H ->. induction e1 as [|ev e1 IH]; simpl in H.
  - destruct H as [H _]. exact (H n eq_refl).
  - destruct H as [_ H]. exact (IH H).
Qed.

Lemma round_facts_refl (todo : list string) (c : genre_cache) :
  round_facts todo c c todo [].
Proof.
  split.
  - constructor.
  - reflexivity.
  - reflexivity.
  - auto.
  - auto.
  - auto.
  - intros _. split; [exact I|]. intros n _ Hin. inversion Hin.
Qed.

Lemma round_facts_trans (t t1 t2 : list string) (c c1 c2 : genre_cache)
    (e1 e2 : list event) :
  round_facts t c c1 t1 e1 -> round_facts t1 c1 c2 t2 e2 ->
  round_facts t c c2 t2 (e1 ++ e2).
Proof.
  intros F1 F2.
  assert (Hsub : forall n, n ∈ t1 -> n ∈ t).
  { intros n Hn. eapply elem_of_sublist; [exact Hn | apply F1]. }
  split.
  - apply Forall_app. split; [apply F1|].
    eapply Forall_impl; [apply F2|]. intros [n ok|ms|x]; simpl; auto.
  - etransitivity; [apply F2 | apply F1].
  - intros k Hk. rewrite (rf_frame _ _ _ _ _ F2), (rf_frame _ _ _ _ _ F1); auto.
  - intros k Hk. apply F2, F1, Hk.
  - intros n Hn. destruct (rf_done _ _ _ _ _ F1 n Hn) as [Hc|Ht].
    + left. apply F2, Hc.
    + apply F2, Ht.
  - intros n Hall.
    destruct (rf_fail _ _ _ _ _ F1 n) as [Hc1 Ht1].
    { intros ok Hin. apply Hall, elem_of_app. by left. }
    destruct (rf_fail _ _ _ _ _ F2 n) as [Hc2 Ht2].
    { intros ok Hin. apply Hall, elem_of_app. by right. }
    split; [congruence | auto].
  - intros Hnd.
    destruct (rf_once _ _ _ _ _ F1 Hnd) as [Hn1 Hs1].
    assert (Hnd1 : NoDup t1) by (eapply sublist_NoDup; [exact Hnd | apply F1]).
    destruct (rf_once _ _ _ _ _ F2 Hnd1) as [Hn2 Hs2].
    split.
    + apply no_search_after_success_app; [exact Hn1 | exact Hn2 |].
      intros n ok Hin1 Hin2.
      pose proof (rf_events _ _ _ _ _ F2) as Hev.
      rewrite Forall_forall in Hev. specialize (Hev _ Hin2). simpl in Hev.
      exact (Hs1 n Hev Hin1).
    + intros n Hn. rewrite elem_of_app. intros [Hin|Hin].
      * apply (Hs1 n); [|exact Hin]. eapply elem_of_sublist; [exact Hn | apply F2].
      * exact (Hs2 n Hn Hin).
Qed.

Lemma round_facts_sleep (todo : list string) (c : genre_cache) (ms : Z) :
  round_facts todo c c todo [EvSleep ms].
Proof.
  split.
  - by repeat constructor.
  - reflexivity.
  - reflexivity.
  - auto.
  - auto.
  - auto.
  - intros _. split.
    + simpl. split; [discriminate | exact I].
    + intros n _ Hin. apply list_elem_of_singleton in Hin. discriminate.
Qed.

Lemma elem_of_app_cons_ne (m n : string) (f rest : list string) :
  m <> n -> m ∈ f ++ n :: rest -> m ∈ f ++ rest.
Proof.
  intros Hne. rewrite !elem_of_app, elem_of_cons. intros [?|[?|?]]; auto. done.
Qed.

Section Rounds.
Context `{PyBuiltins} `{TagSource}.

Lemma fetch_one_facts (c : genre_cache) (f : list string) (w : world)
    (n : string) (rest : list string) :
  exists c' f' w' evs,
    fetch_one (c, f, w) n = (c', f', w')
    /\ cache_file w' = cache_file w
    /\ events w' = events w ++ evs
    /\ round_facts (f ++ n :: rest) c c' (f' ++ rest) evs.
Proof.
  unfold fetch_one.
  destruct (top_tags (search_artists (lookups w) n)) as [tags|].
  - exists (<[n := tags]> c), f, (sleep 1100 (log (EvSearch n true)
             (mk_world (cache_file w) (S (lookups w)) (events w)))),
      [EvSearch n true; EvSleep 1100].
    split; [reflexivity|]. split; [reflexivity|].
    split; [simpl; by rewrite <- app_assoc|].
    split.
    + repeat constructor. simpl. set_solver.
    + apply sublist_app; [reflexivity|]. by apply sublist_cons.
    + intros k Hk. apply lookup_insert_ne. set_solver.
    + intros k Hk. rewrite lookup_insert. case_decide; eauto.
    + intros m Hm. destruct (decide (m = n)) as [->|Hne].
      * left. rewrite lookup_insert_eq. eauto.
      * right. by apply (elem_of_app_cons_ne m n).
    + intros m Hall. destruct (decide (m = n)) as [->|Hne].
      * specialize (Hall true). discriminate Hall. by left.
      * split; [by apply lookup_insert_ne | by apply elem_of_app_cons_ne].
    + intros Hnd. apply NoDup_app in Hnd as (_ & Hf & Hn).
      apply NoDup_cons in Hn as [Hn _].
      split.
      * simpl. split; [|split; [discriminate | exact I]].
        intros n0 _ ok Hin. apply list_elem_of_singleton in Hin. discriminate.
      * intros m Hm Hin.
        apply elem_of_cons in Hin as [[= ->]|Hin];
          [|apply list_elem_of_singleton in Hin; discriminate].
        apply elem_of_app in Hm as [Hm|Hm]; [|done].
        apply (Hf n Hm). by left.
  - exists c, (f ++ [n]), (sleep 1100 (log (EvSearch n false)
             (mk_world (cache_file w) (S (lookups w)) (events w)))),
      [EvSearch n false; EvSleep 1100].
    split; [reflexivity|]. split; [reflexivity|].
    split; [simpl; by rewrite <- app_assoc|].
    rewrite <- app_assoc. simpl.
    split.
    + repeat constructor. simpl. set_solver.
    + reflexivity.
    + reflexivity.
    + auto.
    + auto.
    + auto.
    + intros _. split.
      * simpl. split; [discriminate|]. split; [discriminate | exact I].
      * intros m _ Hin.
        apply elem_of_cons in Hin as [[=]|Hin].
        apply list_elem_of_singleton in Hin. discriminate.
Qed.

Lemma foldl_fetch_one_facts (l : list string) (c : genre_cache)
    (f : list string) (w : world) :
  exists c' f' w' evs,
    foldl fetch_one (c, f, w) l = (c', f', w')
    /\ cache_file w' = cache_file w
    /\ events w' = events w ++ evs
    /\ round_facts (f ++ l) c c' f' evs.
Proof.
  revert c f w. induction l as [|n l IH]; intros c f w.
  - exists c, f, w, []. rewrite !app_nil_r.
    split; [reflexivity|]. split; [reflexivity|]. split; [reflexivity|].
    apply round_facts_refl.
  - destruct (fetch_one_facts c f w n l) as (c1 & f1 & w1 & e1 & Hone & Hf1 & He1 & F1).
    destruct (IH c1 f1 w1) as (c2 & f2 & w2 & e2 & Hfold & Hf2 & He2 & F2).
    exists c2, f2, w2, (e1 ++ e2). cbn [foldl]. rewrite Hone.
    split; [exact Hfold|]. split; [congruence|].
    split; [rewrite He2, He1; by rewrite app_assoc|].
    eapply round_facts_trans; eassumption.
Qed.

Lemma fetch_round_facts (to_fetch : list string) (c : genre_cache) (w : world) :
  exists c' failed w' evs,
    fetch_round to_fetch c w = (c', failed, w')
    /\ cache_file w' = cache_file w
    /\ events w' = events w ++ evs
    /\ round_facts to_fetch c c' failed evs.
Proof. apply (foldl_fetch_one_facts to_fetch c [] w). Qed.

Lemma attempts_facts (remaining : nat) (attempt max_retries : Z)
    (to_fetch : list string) (c : genre_cache) (w : world) :
  exists c' to_fetch' w' evs,
    attempts remaining attempt max_retries to_fetch c w = (c', to_fetch', w')
    /\ cache_file w' = cache_file w
    /\ events w' = events w ++ evs
    /\ round_facts to_fetch c c' to_fetch' evs.
Proof.
  revert attempt to_fetch c w.
  induction remaining as [|remaining IH]; intros attempt to_fetch c w; simpl.
  - exists c, to_fetch, w, []. rewrite app_nil_r.
    split; [reflexivity|]. split; [reflexivity|]. split; [reflexivity|].
    apply round_facts_refl.
  - destruct to_fetch as [|n to_fetch].
    { exists c, [], w, []. rewrite app_nil_r.
      split; [reflexivity|]. split; [reflexivity|]. split; [reflexivity|].
      apply round_facts_refl. }
    destruct (fetch_round_facts (n :: to_fetch) c w)
      as (c1 & failed & w1 & e1 & -> & Hf1 & He1 & F1).
    set (w1' := match failed with
                | [] => w1
                | _ :: _ => if attempt <? max_retries
                            then sleep (5000 * attempt) w1 else w1
                end).
    assert (exists es, cache_file w1' = cache_file w1
                       /\ events w1' = events w1 ++ es
                       /\ round_facts failed c1 c1 failed es)
      as (es & Hf1' & He1' & Fs).
    { subst w1'. destruct failed as [|m failed].
      - exists []. rewrite app_nil_r. auto using round_facts_refl.
      - destruct (attempt <? max_retries).
        + exists [EvSleep (5000 * attempt)]. auto using round_facts_sleep.
        + exists []. rewrite app_nil_r. auto using round_facts_refl. }
    destruct (IH (attempt + 1) failed c1 w1')
      as (c2 & t2 & w2 & e2 & -> & Hf2 & He2 & F2).
    exists c2, t2, w2, ((e1 ++ es) ++ e2).
    split; [reflexivity|]. split; [congruence|].
    split; [rewrite He2, He1', He1; by rewrite !app_assoc|].
    eapply round_facts_trans; [|exact F2].
    eapply round_facts_trans; eassumption.
Qed.
End Rounds.

(** ** The resolver: the whole call *)

Lemma mark_unresolved_lookup (to_fetch : list string) (c : genre_cache) (n : string) :
  mark_unresolved to_fetch c !! n = if decide (n ∈ to_fetch) then Some [] else c !! n.
Proof.
  unfold mark_unresolved. revert c.
  induction to_fetch as [|m l IH]; intros c; cbn [foldl].
  - case_decide as Hin; [inversion Hin | reflexivity].
  - rewrite IH. destruct (decide (n ∈ l)) as [Hl|Hl].
    + rewrite decide_True by (by right). reflexivity.
    + destruct (decide (n = m)) as [->|Hne].
      * rewrite decide_True by (by left). apply lookup_insert_eq.
      * rewrite decide_False by (rewrite elem_of_cons; intros [?|?]; done).
        by apply lookup_insert_ne.
Qed.

Lemma result_mapping_lookup (names : list string) (c : genre_cache) (n : string) :
  result_mapping names c !! n
  = if decide (n ∈ names) then Some (default [] (c !! n)) else None.
Proof.
  unfold result_mapping.
  assert (forall r : genre_cache,
            foldl (fun r name => <[name := default [] (c !! name)]> r) r names !! n
            = if decide (n ∈ names) then Some (default [] (c !! n)) else r !! n)
    as Hgen.
  { induction names as [|m l IH]; intros r; cbn [foldl].
    - case_decide as Hin; [inversion Hin | reflexivity].
    - rewrite IH. destruct (decide (n ∈ l)) as [Hl|Hl].
      + rewrite decide_True by (by right). reflexivity.
      + destruct (decide (n = m)) as [->|Hne].
        * rewrite decide_True by (by left). apply lookup_insert_eq.
        * rewrite decide_False by (rewrite elem_of_cons; intros [?|?]; done).
          by apply lookup_insert_ne. }
  rewrite Hgen. case_decide; [reflexivity | apply lookup_empty].
Qed.

Section Run.
Context `{PyBuiltins} `{JsonCodec} `{TagSource}.

(** Every call that loads a cache returns, and what it did is described
    by [round_facts] from the names missing in the loaded cache. *)
Lemma fetch_artist_genres_run (names : list string) (max_retries : Z)
    (w : world) (cache : genre_cache) :
  load_genre_cache w = Ok cache ->
  exists cache' to_fetch' evs,
    fetch_returns names max_retries w
      (result_mapping names (mark_unresolved to_fetch' cache')) evs
      (mark_unresolved to_fetch' cache')
    /\ round_facts (filter (fun n => cache !! n = None) names)
         cache cache' to_fetch' evs.
Proof.
  intros Hload. unfold fetch_returns, fetch_artist_genres, resolve.
  rewrite Hload. simpl.
  destruct (attempts_facts (Z.to_nat max_retries) 1 max_retries
              (filter (fun n => cache !! n = None) names) cache w)
    as (c' & t' & w' & evs & -> & Hfile & Hev & F).
  exists c', t', evs. split; [|exact F].
  eexists. split; [reflexivity|]. simpl.
  split; [rewrite Hev; by rewrite app_assoc | reflexivity].
Qed.

Lemma pending_name (names : list string) (cache : genre_cache) (n : string) :
  n ∈ filter (fun n => cache !! n = None) names <-> n ∈ names /\ cache !! n = None.
Proof. rewrite list_elem_of_filter. tauto. Qed.

(** A requested name that is missing in the loaded cache and whose
    lookups all fail ends as an empty list in the saved cache. *)
Lemma unresolved_name_empty (names : list string) (cache cache' : genre_cache)
    (to_fetch' : list string) (evs : list event) (n : string) :
  round_facts (filter (fun n => cache !! n = None) names) cache cache' to_fetch' evs ->
  n ∈ names -> cache !! n = None ->
  (forall ok, EvSearch n ok ∈ evs -> ok = false) ->
  mark_unresolved to_fetch' cache' !! n = Some [].
Proof.
  intros F Hn Hc Hall. destruct (rf_fail _ _ _ _ _ F n Hall) as [_ Hin].
  rewrite mark_unresolved_lookup, decide_True; [reflexivity|].
  apply Hin, pending_name. auto.
Qed.

(** Every requested name is a key of the saved cache. *)
Lemma requested_name_saved (names : list string) (cache cache' : genre_cache)
    (to_fetch' : list string) (evs : list event) (n : string) :
  round_facts (filter (fun n => cache !! n = None) names) cache cache' to_fetch' evs ->
  n ∈ names -> is_Some (mark_unresolved to_fetch' cache' !! n).
Proof.
  intros F Hn. rewrite mark_unresolved_lookup. case_decide as Hin; [eauto|].
  destruct (cache !! n) as [v|] eqn:Hc.
  - apply (rf_mono _ _ _ _ _ F). rewrite Hc. eauto.
  - destruct (rf_done _ _ _ _ _ F n) as [?|?]; [|done..].
    apply pending_name. auto.
Qed.

(** An entry of the loaded cache is in the saved cache as it was. *)
Lemma cached_entry_saved (names : list string) (cache cache' : genre_cache)
    (to_fetch' : list string) (evs : list event) (k : string) (v : list string) :
  round_facts (filter (fun n => cache !! n = None) names) cache cache' to_fetch' evs ->
  cache !! k = Some v -> mark_unresolved to_fetch' cache' !! k = Some v.
Proof.
  intros F Hk.
  assert (k ∉ filter (fun n => cache !! n = None) names) as Hnot.
  { rewrite pending_name. intros [_ Hnone]. congruence. }
  rewrite mark_unresolved_lookup, decide_False.
  - rewrite (rf_frame _ _ _ _ _ F k Hnot). exact Hk.
  - intros Hin. apply Hnot. eapply elem_of_sublist; [exact Hin | apply F].
Qed.
End Run.

(** C3: a requested name that is not in the loaded cache is a key of the
    saved cache after the call, never absent; when its lookups fail in every
    round it is saved as an empty list, and the result maps it to an empty
    list. *)
Theorem failed_name_is_cached_empty `{PyBuiltins} `{JsonCodec} `{TagSource}
    (artist_names : list string) (max_retries : Z) (w : world)
    (cache : genre_cache) (name : string) :
  load_genre_cache w = Ok cache ->
  name ∈ artist_names ->
  cache !! name = None ->
  exists result evs saved,
    fetch_returns artist_names max_retries w result evs saved
    /\ is_Some (saved !! name)
    /\ ((forall ok, EvSearch name ok ∈ evs -> ok = false) ->
        saved !! name = Some [] /\ result !! name = Some []).
Proof.
  intros Hload Hname Hnone.
  destruct (fetch_artist_genres_run artist_names max_retries w cache Hload)
    as (cache' & to_fetch' & evs & Hrun & F).
  eexists _, evs, _. split; [exact Hrun|].
  split; [exact (requested_name_saved _ _ _ _ _ name F Hname)|].
  intros Hall.
  pose proof (unresolved_name_empty _ _ _ _ _ _ F Hname Hnone Hall) as Hsaved.
  split; [exact Hsaved|].
  rewrite result_mapping_lookup, decide_True by done.
  rewrite Hsaved. reflexivity.
Qed.

(** One requested name, an empty cache and a tag source that always fails. *)
Lemma failed_name_is_cached_empty_witness :
  exists result evs saved,
    @fetch_returns AsciiText.builtins JsonText.codec failing_source
      ["Ghost"] 3 (new_world None) result evs saved
    /\ is_Some (saved !! "Ghost")
    /\ ((forall ok, EvSearch "Ghost" ok ∈ evs -> ok = false) ->
        saved !! "Ghost" = Some [] /\ result !! "Ghost" = Some []).
Proof.
  apply (@failed_name_is_cached_empty AsciiText.builtins JsonText.codec
           failing_source ["Ghost"] 3 (new_world None) ∅ "Ghost").
  - reflexivity.
  - apply list_elem_of_singleton. reflexivity.
  - reflexivity.
Defined.

(** The tag source always fails for "Ghost" across 3 retries. *)
Example fetch_ghost :
  @fetch_artist_genres AsciiText.builtins JsonText.codec failing_source
    ["Ghost"] 3 (new_world None)
  = Ok ({["Ghost" := []]},
        mk_world (Some (JsonText.dump {["Ghost" := []]})) 3
          [EvSearch "Ghost" false; EvSleep 1100; EvSleep 5000;
           EvSearch "Ghost" false; EvSleep 1100; EvSleep 10000;
           EvSearch "Ghost" false; EvSleep 1100;
           EvSave {["Ghost" := []]}]).
Proof. vm_compute. reflexivity. Qed.


(** C4: the keys of the returned mapping are exactly the requested names,
    whatever the tag source answers; every requested name is mapped to its
    list in the saved cache, which is the empty list when its lookups all
    failed. *)
Theorem result_keys_are_requested_names `{PyBuiltins} `{JsonCodec} `{TagSource}
    (artist_names : list string) (max_retries : Z) (w : world)
    (cache : genre_cache) :
  load_genre_cache w = Ok cache ->
  exists result evs saved,
    fetch_returns artist_names max_retries w result evs saved
    /\ dom result = list_to_set artist_names
    /\ (forall name, name ∈ artist_names ->
          exists tags, saved !! name = Some tags /\ result !! name = Some tags)
    /\ (forall name, name ∈ artist_names -> cache !! name = None ->
          (forall ok, EvSearch name ok ∈ evs -> ok = false) ->
          result !! name = Some []).
Proof.
  intros Hload.
  destruct (fetch_artist_genres_run artist_names max_retries w cache Hload)
    as (cache' & to_fetch' & evs & Hrun & F).
  eexists _, evs, _. split; [exact Hrun|].
  split; [|split].
  - apply set_eq. intros n.
    rewrite elem_of_dom, result_mapping_lookup, elem_of_list_to_set.
    case_decide as Hin; split; intros Hn.
    + exact Hin.
    + eauto.
    + by destruct Hn.
    + done.
  - intros n Hn.
    destruct (requested_name_saved _ _ _ _ _ n F Hn) as [tags Htags].
    exists tags. split; [exact Htags|].
    rewrite result_mapping_lookup, decide_True by done.
    rewrite Htags. reflexivity.
  - intros n Hn Hnone Hall.
    rewrite result_mapping_lookup, decide_True by done.
    rewrite (unresolved_name_empty _ _ _ _ _ _ F Hn Hnone Hall). reflexivity.
Qed.

(** One requested name and an empty cache. *)
Lemma result_keys_are_requested_names_witness :
  exists result evs saved,
    @fetch_returns AsciiText.builtins JsonText.codec rock_pop_source
      ["NewArtist"] 3 (new_world None) result evs saved
    /\ dom result = list_to_set ["NewArtist"]
    /\ (forall name, name ∈ ["NewArtist"] ->
          exists tags, saved !! name = Some tags /\ result !! name = Some tags)
    /\ (forall name, name ∈ ["NewArtist"] -> (∅ : genre_cache) !! name = None ->
          (forall ok, EvSearch name ok ∈ evs -> ok = false) ->
          result !! name = Some []).
Proof.
  apply (@result_keys_are_requested_names AsciiText.builtins JsonText.codec
           rock_pop_source ["NewArtist"] 3 (new_world None) ∅).
  reflexivity.
Defined.

(** An empty cache, one requested name, one match tagged rock and pop. *)
Example fetch_new_artist :
  @fetch_artist_genres AsciiText.builtins JsonText.codec rock_pop_source
    ["NewArtist"] 3 (new_world None)
  = Ok ({["NewArtist" := ["rock"; "pop"]]},
        mk_world (Some (JsonText.dump {["NewArtist" := ["rock"; "pop"]]})) 1
          [EvSearch "NewArtist" true; EvSleep 1100;
           EvSave {["NewArtist" := ["rock"; "pop"]]}]).
Proof. vm_compute. reflexivity. Qed.


(** C5: every lookup that a call issues is for a requested name that is not
    a key of the loaded cache, whatever the value of a key; when the
    requested names are distinct, no lookup is issued for a name after a
    lookup has put it into the cache. *)
Theorem no_lookup_for_cached_name `{PyBuiltins} `{JsonCodec} `{TagSource}
    (artist_names : list string) (max_retries : Z) (w : world)
    (cache : genre_cache) :
  load_genre_cache w = Ok cache ->
  exists result evs saved,
    fetch_returns artist_names max_retries w result evs saved
    /\ (forall name ok, EvSearch name ok ∈ evs ->
          cache !! name = None /\ name ∈ artist_names)
    /\ (NoDup artist_names ->
        forall before name after,
          evs = before ++ EvSearch name true :: after ->
          forall ok, EvSearch name ok ∉ after).
Proof.
  intros Hload.
  destruct (fetch_artist_genres_run artist_names max_retries w cache Hload)
    as (cache' & to_fetch' & evs & Hrun & F).
  eexists _, evs, _. split; [exact Hrun|].
  split.
  - intros n ok Hin.
    pose proof (rf_events _ _ _ _ _ F) as Hev.
    rewrite Forall_forall in Hev. specialize (Hev _ Hin). simpl in Hev.
    apply pending_name in Hev. tauto.
  - intros Hnd before n after Hevs.
    destruct (rf_once _ _ _ _ _ F) as [Hns _].
    { by apply NoDup_filter. }
    exact (no_search_after_success_split _ _ _ _ Hns Hevs).
Qed.

(** Three requested names, two of them cached, one with an empty list. *)
Lemma no_lookup_for_cached_name_witness :
  exists result evs saved,
    @fetch_returns AsciiText.builtins JsonText.codec rock_pop_source
      example_names 3 example_world result evs saved
    /\ (forall name ok, EvSearch name ok ∈ evs ->
          example_cache !! name = None /\ name ∈ example_names)
    /\ (NoDup example_names ->
        forall before name after,
          evs = before ++ EvSearch name true :: after ->
          forall ok, EvSearch name ok ∉ after).
Proof.
  apply (@no_lookup_for_cached_name AsciiText.builtins JsonText.codec
           rock_pop_source example_names 3 example_world example_cache).
  vm_compute. reflexivity.
Defined.

(** A cached name is not looked up, even with an empty list of tags. *)
Example fetch_example_names :
  @fetch_artist_genres AsciiText.builtins JsonText.codec rock_pop_source
    example_names 3 example_world
  = Ok (<["NewArtist" := ["rock"; "pop"]]>
          (<["Netsky" := ["liquid DRUM AND BASS"; "electronic"]]>
             {["Ghost" := []]}),
        mk_world
          (Some (JsonText.dump (<["NewArtist" := ["rock"; "pop"]]> example_cache))) 1
          [EvSearch "NewArtist" true; EvSleep 1100;
           EvSave (<["NewArtist" := ["rock"; "pop"]]> example_cache)]).
Proof. vm_compute. reflexivity. Qed.





(** ** The JSON text of a genre cache *)

Module JsonTextFacts.
Import JsonText.
Local Open Scope nat_scope.

Lemma append_String (c : ascii) (s t : string) : String c s +:+ t = String c (s +:+ t).
Proof. reflexivity. Qed.
Lemma append_empty (t : string) : "" +:+ t = t.
Proof. reflexivity. Qed.
Lemma append_assoc (a b c : string) : (a +:+ b) +:+ c = a +:+ (b +:+ c).
Proof. induction a as [|x a IH]; [reflexivity|]. rewrite !append_String, IH. reflexivity. Qed.
Lemma length_append (a b : string) : String.length (a +:+ b) = String.length a + String.length b.
Proof. induction a as [|x a IH]; [reflexivity|]. rewrite append_String. simpl. by rewrite IH. Qed.

Lemma parse_chars_escape_char (c : ascii) (tail : string) :
  parse_chars (escape_char c +:+ tail)
  = match parse_chars tail with
    | Some (t, r) => Some (String c t, r)
    | None => None
    end.
Proof. destruct c as [[] [] [] [] [] [] [] []]; reflexivity. Qed.

Lemma parse_chars_escape (s rest : string) :
  parse_chars (escape s +:+ String dquote rest) = Some (s, rest).
Proof.
  induction s as [|c s IH]; [reflexivity|].
  cbn [escape]. rewrite append_assoc, parse_chars_escape_char, IH. reflexivity.
Qed.

Lemma parse_string_dump (s rest : string) :
  parse_string (dump_string s +:+ rest) = Some (s, rest).
Proof.
  unfold dump_string, str1. rewrite append_String, append_assoc, append_String, append_empty.
  unfold parse_string. simpl. apply parse_chars_escape.
Qed.

Lemma join_dump_string_quote (sep : string) (x : string) (l : list string) :
  exists t, join sep (map dump_string (x :: l)) = String dquote t.
Proof. destruct l; simpl; unfold dump_string; rewrite ?append_String; eauto. Qed.

Lemma join_length (sep : string) (l : list string) :
  length l <= String.length (join sep (map dump_string l)).
Proof.
  induction l as [|x [|y l] IH]; simpl in *; [lia | lia |].
  rewrite !length_append. simpl. lia.
Qed.

Lemma skip_ws_dquote (t : string) : skip_ws (String dquote t) = String dquote t.
Proof. reflexivity. Qed.

Lemma skip_ws_elem_sep (s : string) : skip_ws (elem_sep +:+ s) = elem_sep +:+ s.
Proof. reflexivity. Qed.
Lemma expect_elem_sep (s : string) :
  expect 44 (elem_sep +:+ s) = Some (String newline ("    " +:+ s)).
Proof. reflexivity. Qed.
Lemma skip_ws_indent4 (s : string) :
  skip_ws (String newline ("    " +:+ s)) = skip_ws s.
Proof. reflexivity. Qed.
Lemma skip_ws_close_list (rest : string) :
  skip_ws (String newline ("  ]" +:+ rest)) = String "]" rest.
Proof. reflexivity. Qed.

Lemma parse_elements_join (l : list string) (x : string) (fuel : nat) (rest : string) :
  length l < fuel ->
  parse_elements fuel
    (join elem_sep (map dump_string (x :: l)) +:+ String newline ("  ]" +:+ rest))
  = Some (x :: l, rest).
Proof.
  revert x fuel. induction l as [|y l IH]; intros x [|fuel] Hfuel; try (simpl in Hfuel; lia).
  - cbn [map join parse_elements]. rewrite parse_string_dump.
    cbn [mbind option_bind]. rewrite skip_ws_close_list. reflexivity.
  - change (join elem_sep (map dump_string (x :: y :: l)))
      with (dump_string x +:+ elem_sep +:+ join elem_sep (map dump_string (y :: l))).
    rewrite !append_assoc. cbn [parse_elements]. rewrite parse_string_dump.
    cbn [mbind option_bind].
    rewrite skip_ws_elem_sep, expect_elem_sep, skip_ws_indent4.
    destruct (join_dump_string_quote elem_sep y l) as [t Ht].
    rewrite Ht at 1. rewrite append_String, skip_ws_dquote, <- append_String, <- Ht.
    rewrite IH by (simpl in Hfuel; lia). reflexivity.
Qed.

Lemma skip_ws_join (sep : string) (x : string) (l : list string) (tail : string) :
  skip_ws (join sep (map dump_string (x :: l)) +:+ tail)
  = join sep (map dump_string (x :: l)) +:+ tail.
Proof.
  destruct (join_dump_string_quote sep x l) as [t ->]. reflexivity.
Qed.

Lemma expect_join (n : nat) (sep : string) (x : string) (l : list string)
    (tail : string) :
  n <> 34 -> expect n (join sep (map dump_string (x :: l)) +:+ tail) = None.
Proof.
  intros Hn. destruct (join_dump_string_quote sep x l) as [t ->].
  rewrite append_String. unfold expect.
  change (nat_of_ascii dquote) with 34.
  destruct (34 =? n) eqn:Heq; [|reflexivity].
  apply Nat.eqb_eq in Heq. congruence.
Qed.

Lemma parse_array_dump (l : list string) (rest : string) :
  parse_array (dump_list l +:+ rest) = Some (l, rest).
Proof.
  destruct l as [|x l]; [reflexivity|].
  unfold dump_list.
  rewrite !append_assoc. unfold parse_array.
  change (expect 91 ("[" +:+ ?s)) with (Some s).
  cbn [mbind option_bind].
  change (String newline "    " +:+ ?s) with (String newline ("    " +:+ s)).
  rewrite skip_ws_indent4, skip_ws_join, expect_join by discriminate.
  change (String newline "  ]" +:+ rest) with (String newline ("  ]" +:+ rest)).
  apply parse_elements_join.
  rewrite length_append. pose proof (join_length elem_sep (x :: l)). simpl in *. lia.
Qed.

Lemma dump_list_bracket (l : list string) : exists t, dump_list l = String "[" t.
Proof. destruct l; simpl; eauto. Qed.

Lemma join_dump_member_quote (kv : string * list string)
    (items : list (string * list string)) :
  exists t, join member_sep (map dump_member (kv :: items)) = String dquote t.
Proof.
  destruct items; simpl; unfold dump_member, dump_string;
    rewrite ?append_String; eauto.
Qed.

Lemma join_member_length (items : list (string * list string)) :
  length items <= String.length (join member_sep (map dump_member items)).
Proof.
  induction items as [|x [|y l] IH]; simpl in *; [lia | |].
  - unfold dump_member, dump_string. simpl. lia.
  - rewrite !length_append. simpl. lia.
Qed.

Lemma skip_ws_colon (s : string) : skip_ws (": " +:+ s) = ": " +:+ s.
Proof. reflexivity. Qed.
Lemma expect_colon (s : string) : expect 58 (": " +:+ s) = Some (String " " s).
Proof. reflexivity. Qed.
Lemma skip_ws_space (s : string) : skip_ws (String " " s) = skip_ws s.
Proof. reflexivity. Qed.
Lemma skip_ws_dump_list (l : list string) (tail : string) :
  skip_ws (dump_list l +:+ tail) = dump_list l +:+ tail.
Proof. destruct (dump_list_bracket l) as [t ->]. reflexivity. Qed.
Lemma skip_ws_member_sep (s : string) : skip_ws (member_sep +:+ s) = member_sep +:+ s.
Proof. reflexivity. Qed.
Lemma expect_member_sep (s : string) :
  expect 44 (member_sep +:+ s) = Some (String newline ("  " +:+ s)).
Proof. reflexivity. Qed.
Lemma skip_ws_indent2 (s : string) :
  skip_ws (String newline ("  " +:+ s)) = skip_ws s.
Proof. reflexivity. Qed.
Lemma skip_ws_close_object (rest : string) :
  skip_ws (String newline ("}" +:+ rest)) = String "}" rest.
Proof. reflexivity. Qed.

Lemma parse_members_join (items : list (string * list string))
    (kv : string * list string) (fuel : nat) (rest : string) :
  length items < fuel ->
  parse_members fuel
    (join member_sep (map dump_member (kv :: items)) +:+ String newline ("}" +:+ rest))
  = Some (kv :: items, rest).
Proof.
  revert kv fuel.
  induction items as [|kv' items IH]; intros [k v] [|fuel] Hfuel;
    try (simpl in Hfuel; lia).
  - cbn [map join parse_members]. unfold dump_member. cbn [fst snd].
    rewrite !append_assoc, parse_string_dump. cbn [mbind option_bind].
    rewrite skip_ws_colon, expect_colon. cbn [mbind option_bind].
    rewrite skip_ws_space, skip_ws_dump_list, parse_array_dump.
    cbn [mbind option_bind]. rewrite skip_ws_close_object. reflexivity.
  - change (join member_sep (map dump_member ((k, v) :: kv' :: items)))
      with (dump_member (k, v) +:+ member_sep
            +:+ join member_sep (map dump_member (kv' :: items))).
    unfold dump_member at 1. cbn [fst snd].
    rewrite !append_assoc. cbn [parse_members]. rewrite parse_string_dump.
    cbn [mbind option_bind].
    rewrite skip_ws_colon, expect_colon. cbn [mbind option_bind].
    rewrite skip_ws_space, skip_ws_dump_list, parse_array_dump.
    cbn [mbind option_bind].
    rewrite skip_ws_member_sep, expect_member_sep, skip_ws_indent2.
    destruct (join_dump_member_quote kv' items) as [t Ht].
    rewrite Ht at 1. rewrite append_String, skip_ws_dquote, <- append_String, <- Ht.
    rewrite IH by (simpl in Hfuel; lia). reflexivity.
Qed.

Lemma parse_dump_items (items : list (string * list string)) :
  parse (dump_items items) = Some items.
Proof.
  destruct items as [|kv items]; [reflexivity|].
  unfold dump_items.
  destruct (join_dump_member_quote kv items) as [t Ht].
  unfold parse, parse_object.
  change (skip_ws ("{" +:+ ?s)) with ("{" +:+ s).
  change (expect 123 ("{" +:+ ?s)) with (Some s).
  cbn [mbind option_bind].
  change (String newline "  " +:+ ?s) with (String newline ("  " +:+ s)).
  rewrite skip_ws_indent2.
  assert (skip_ws (join member_sep (map dump_member (kv :: items)) +:+ String newline "}")
          = join member_sep (map dump_member (kv :: items)) +:+ String newline "}")
    as -> by (rewrite Ht; reflexivity).
  assert (expect 125 (join member_sep (map dump_member (kv :: items)) +:+ String newline "}")
          = None) as -> by (rewrite Ht; reflexivity).
  change (String newline "}") with (String newline ("}" +:+ "")).
  rewrite parse_members_join; [reflexivity|].
  rewrite length_append. pose proof (join_member_length (kv :: items)). simpl in *. lia.
Qed.

Lemma foldl_insert_items (items : list (string * list string)) (m0 : genre_cache) :
  NoDup (items.*1) ->
  foldl (fun (m : genre_cache) kv => <[fst kv := snd kv]> m) m0 items
  = list_to_map items ∪ m0.
Proof.
  revert m0. induction items as [|[k v] items IH]; intros m0 Hnd; cbn [foldl].
  - simpl. by rewrite (left_id_L ∅ (∪)).
  - simpl in Hnd. apply NoDup_cons in Hnd as [Hk Hnd].
    rewrite IH by exact Hnd. simpl.
    rewrite <- insert_union_l. symmetry. apply insert_union_r.
    by apply not_elem_of_list_to_map_1.
Qed.

Lemma load_dump (cache : genre_cache) : load (dump cache) = Ok cache.
Proof.
  unfold load, dump. rewrite parse_dump_items.
  rewrite foldl_insert_items by apply NoDup_fst_map_to_list.
  by rewrite (right_id_L ∅ (∪)), list_to_map_to_list.
Qed.

End JsonTextFacts.

(** ** The genre cache *)

(** C6: loading after saving a mapping gives the mapping back, for every
    JSON implementation that reads the text it writes for the mapping back
    to it, and for every mapping with the JSON text of [JsonText]; loading
    without a cache file gives the empty mapping. *)
Theorem load_after_save (M : genre_cache) (w : world) :
  (forall codec : JsonCodec,
     @json_load codec (@json_dump codec M) = Ok M ->
     @load_genre_cache codec (@save_genre_cache codec M w) = Ok M)
  /\ @load_genre_cache JsonText.codec (@save_genre_cache JsonText.codec M w) = Ok M
  /\ (forall codec : JsonCodec, @load_genre_cache codec (new_world None) = Ok ∅).
Proof.
  split; [|split].
  - intros codec Hjson. unfold load_genre_cache, save_genre_cache. simpl.
    exact Hjson.
  - unfold load_genre_cache, save_genre_cache. simpl.
    apply JsonTextFacts.load_dump.
  - intros codec. reflexivity.
Qed.

(** Saving [example_cache] over an older file and loading it. *)
Lemma load_after_save_witness :
  @load_genre_cache JsonText.codec
    (@save_genre_cache JsonText.codec example_cache example_world)
  = Ok example_cache.
Proof.
  apply (proj1 (load_after_save example_cache example_world) JsonText.codec).
  vm_compute. reflexivity.
Defined.

(** The text written for [example_cache]; [n] stands for a line feed. *)
Example dump_example_cache :
  JsonText.dump {["Ghost" := []; "Netsky" := ["liquid DRUM AND BASS"; "electronic"]]}
  = let n := String JsonText.newline in
    let q := String JsonText.dquote in
    "{" +:+ n "  " +:+ q "Ghost" +:+ q ": []," +:+
    n "  " +:+ q "Netsky" +:+ q ": [" +:+
    n "    " +:+ q "liquid DRUM AND BASS" +:+ q "," +:+
    n "    " +:+ q "electronic" +:+ q "" +:+
    n "  ]" +:+
    n "}".
Proof. vm_compute. reflexivity. Qed.


(** ** The drum-and-bass selection of [make_playlists.py] *)

Section Dnb.
Context `{PyBuiltins}.

Lemma dnb_artists_of_not_excluded (items : list (string * list string))
    (a : string) :
  a ∈ MakePlaylists.dnb_artists_of items -> a ∉ MakePlaylists.DNB_EXCLUDE.
Proof.
  unfold MakePlaylists.dnb_artists_of.
  assert (forall acc : gset string,
            (forall x, x ∈ acc -> x ∉ MakePlaylists.DNB_EXCLUDE) ->
            forall x,
              x ∈ foldl (fun acc '(artist_name, genres) =>
                           if MakePlaylists.any_dnb genres then
                             if decide (artist_name ∈ MakePlaylists.DNB_EXCLUDE)
                             then acc else {[artist_name]} ∪ acc
                           else acc) acc items ->
              x ∉ MakePlaylists.DNB_EXCLUDE) as Hgen.
  { induction items as [|[n genres] items IH]; intros acc Hacc x; cbn [foldl].
    - apply Hacc.
    - apply IH. intros y.
      destruct (MakePlaylists.any_dnb genres); [|apply Hacc].
      destruct (decide (n ∈ MakePlaylists.DNB_EXCLUDE)) as [|Hn]; [apply Hacc|].
      rewrite elem_of_union, elem_of_singleton. intros [->|Hy]; auto. }
  apply Hgen. intros x Hx. by apply not_elem_of_empty in Hx.
Qed.

Lemma in_artists_true (v : jval) (artists : gset string) :
  MakePlaylists.in_artists v artists = true ->
  exists a, v = JStr a /\ a ∈ artists.
Proof.
  destruct v as [|a|z]; simpl; try discriminate.
  rewrite bool_decide_eq_true. eauto.
Qed.
End Dnb.

(** C10: whatever the genre cache and the play events, the artist of a
    track selected into the top-100 drum-and-bass list is none of the names
    of [DNB_EXCLUDE]; it is a name that the genre cache tags as drum and
    bass and that is not excluded. *)
Theorem excluded_artists_are_never_selected `{PyBuiltins}
    (entries : list entry) (cache : genre_cache)
    (selected : list (jval * MakePlaylists.TrackStat.t)) :
  MakePlaylists.top_100_dnb entries cache = Ok selected ->
  forall uri t, (uri, t) ∈ selected ->
    exists a, MakePlaylists.TrackStat.artist_name t = JStr a
              /\ a ∈ MakePlaylists.dnb_artists cache
              /\ a ∉ MakePlaylists.DNB_EXCLUDE.
Proof.
  unfold MakePlaylists.top_100_dnb.
  destruct (MakePlaylists.aggregate_tracks entries default_min_ms) as [all_tracks|x];
    simpl; [|discriminate].
  intros [= <-] uri t Hin.
  pose proof (elem_of_sublist _ _ _ Hin (sublist_take _ _)) as Hin'.
  clear Hin. rewrite sorted_desc_perm in Hin'.
  apply list_elem_of_In, filter_In in Hin' as [_ Hart]. simpl in Hart.
  apply in_artists_true in Hart as (a & Ha & Hdnb).
  exists a. split; [exact Ha|]. split; [exact Hdnb|].
  exact (dnb_artists_of_not_excluded _ _ Hdnb).
Qed.

(** [Lane 8] is tagged drum and bass in [example_cache] and excluded; the
    only selected track is by [Netsky]. *)
Lemma excluded_artists_are_never_selected_witness :
  exists a,
    MakePlaylists.TrackStat.artist_name
      (MakePlaylists.TrackStat.mk (JStr "Y") (JStr "Netsky") 2 85000) = JStr a
    /\ a ∈ @MakePlaylists.dnb_artists AsciiText.builtins example_cache
    /\ a ∉ MakePlaylists.DNB_EXCLUDE.
Proof.
  apply (@excluded_artists_are_never_selected AsciiText.builtins
           dnb_events example_cache
           [(JStr "b", MakePlaylists.TrackStat.mk (JStr "Y") (JStr "Netsky") 2 85000)]
           eq_refl (JStr "b")).
  apply list_elem_of_singleton. reflexivity.
Defined.

Example top_100_dnb_example :
  @MakePlaylists.top_100_dnb AsciiText.builtins dnb_events example_cache
  = Ok [(JStr "b", MakePlaylists.TrackStat.mk (JStr "Y") (JStr "Netsky") 2 85000)].
Proof. vm_compute. reflexivity. Qed.


(** * Further properties *)

(** ** Dictionaries *)

Lemma dict_get_set {V : Type} (d : dict V) (k k' : jval) (v : V) :
  dict_get (dict_set d k v) k' = if decide (k' = k) then Some v else dict_get d k'.
Proof.
  induction d as [|[k0 v0] d IH]; simpl.
  - repeat case_decide; congruence.
  - destruct (decide (k = k0)) as [->|Hne]; simpl.
    + repeat case_decide; congruence.
    + rewrite IH. repeat case_decide; congruence.
Qed.

Lemma dict_keys_set {V : Type} (d : dict V) (k : jval) (v : V) :
  map fst (dict_set d k v) = add_key (map fst d) k.
Proof.
  unfold add_key. induction d as [|[k0 v0] d IH]; simpl.
  - reflexivity.
  - destruct (decide (k = k0)) as [->|Hne]; simpl.
    + rewrite decide_True by (by left). reflexivity.
    + rewrite IH. destruct (decide (k ∈ map fst d)) as [Hin|Hin].
      * rewrite decide_True by (by right). reflexivity.
      * rewrite decide_False; [reflexivity|].
        rewrite elem_of_cons. intros [?|?]; done.
Qed.

Lemma add_key_NoDup (acc : list jval) (k : jval) :
  NoDup acc -> NoDup (add_key acc k).
Proof.
  intros Hnd. unfold add_key. case_decide as Hin; [exact Hnd|].
  apply NoDup_app. split; [exact Hnd|]. split.
  - intros x Hx Hk. apply list_elem_of_singleton in Hk. congruence.
  - apply NoDup_singleton.
Qed.

Lemma foldl_add_key_NoDup (l acc : list jval) :
  NoDup acc -> NoDup (foldl add_key acc l).
Proof.
  revert acc. induction l as [|k l IH]; intros acc Hnd; cbn [foldl]; [exact Hnd|].
  apply IH, add_key_NoDup, Hnd.
Qed.

Lemma foldl_add_key_elem (l acc : list jval) (k : jval) :
  k ∈ foldl add_key acc l <-> k ∈ acc \/ k ∈ l.
Proof.
  revert acc. induction l as [|x l IH]; intros acc; cbn [foldl].
  - rewrite elem_of_nil. tauto.
  - rewrite IH, elem_of_cons. unfold add_key. case_decide as Hin.
    + split; [tauto|]. intros [?|[->|?]]; auto.
    + rewrite elem_of_app, list_elem_of_singleton. tauto.
Qed.

Lemma dict_get_elem {V : Type} (d : dict V) (k : jval) (v : V) :
  dict_get d k = Some v -> (k, v) ∈ d.
Proof.
  induction d as [|[k0 v0] d IH]; simpl; [discriminate|].
  case_decide as Hk.
  - intros [= ->]. subst. by left.
  - intros Hg. right. by apply IH.
Qed.

Lemma dict_elem_get {V : Type} (d : dict V) (k : jval) (v : V) :
  NoDup (map fst d) -> (k, v) ∈ d -> dict_get d k = Some v.
Proof.
  induction d as [|[k0 v0] d IH]; simpl; intros Hnd Hin.
  - by apply elem_of_nil in Hin.
  - apply NoDup_cons in Hnd as [Hk0 Hnd].
    apply elem_of_cons in Hin as [[= -> ->]|Hin].
    + by rewrite decide_True.
    + rewrite decide_False; [by apply IH|].
      intros ->. apply Hk0. apply list_elem_of_fmap. by exists (k0, v).
Qed.

(** ** A loop that folds the counted events into a dictionary *)

Section KeyedFold.
Context {V : Type} (body : dict V -> entry -> result (dict V))
  (outcome : entry -> result bool) (key : entry -> jval)
  (upd : V -> entry -> V) (dflt : V).
Hypothesis body_update : forall d e,
  match outcome e with
  | Ok true =>
      body d e = Ok (dict_set d (key e) (upd (default dflt (dict_get d (key e))) e))
  | Ok false => body d e = Ok d
  | Raise x => body d e = Raise x
  end.

Lemma keyed_fold_get (l : list entry) (d0 d : dict V) (k : jval) :
  for_each body d0 l = Ok d ->
  dict_get d k =
  match filter (fun e => outcome e = Ok true /\ key e = k) l with
  | [] => dict_get d0 k
  | e :: plays => Some (foldl upd (default dflt (dict_get d0 k)) (e :: plays))
  end.
Proof.
  revert d0. induction l as [|e l IH]; intros d0; simpl.
  - intros [= <-]. reflexivity.
  - pose proof (body_update d0 e) as Hb. rewrite filter_cons.
    destruct (decide (outcome e = Ok true /\ key e = k)) as [[Ho <-]|Hno].
    + rewrite Ho in Hb. rewrite Hb. simpl. intros Hl.
      rewrite (IH _ Hl), dict_get_set, decide_True by done. simpl.
      destruct (filter _ l); reflexivity.
    + destruct (outcome e) as [[|]|x] eqn:Ho; rewrite Hb; simpl;
        try discriminate; intros Hl; rewrite (IH _ Hl); [|reflexivity].
      rewrite dict_get_set, decide_False; [reflexivity|].
      intros ->. by apply Hno.
Qed.

Lemma keyed_fold_keys (l : list entry) (d0 d : dict V) :
  for_each body d0 l = Ok d ->
  map fst d = foldl add_key (map fst d0)
                (map key (filter (fun e => outcome e = Ok true) l)).
Proof.
  revert d0. induction l as [|e l IH]; intros d0; simpl.
  - intros [= <-]. reflexivity.
  - pose proof (body_update d0 e) as Hb. rewrite filter_cons.
    destruct (decide (outcome e = Ok true)) as [Ho|Hno].
    + rewrite Ho in Hb. rewrite Hb. simpl. intros Hl.
      rewrite (IH _ Hl), dict_keys_set. reflexivity.
    + destruct (outcome e) as [[|]|x] eqn:Ho; rewrite Hb; simpl;
        try discriminate; try done.
      intros Hl. exact (IH _ Hl).
Qed.
End KeyedFold.

(** ** Aggregation: what the statistics of a track and of an artist are *)

Lemma track_body_update (min_ms : Z) (d : dict TrackStat.t) (e : entry) :
  match track_outcome min_ms e with
  | Ok true =>
      aggregate_tracks_body min_ms d e
      = Ok (dict_set d (uri_of e)
              (track_update (default TrackStat.default (dict_get d (uri_of e))) e))
  | Ok false => aggregate_tracks_body min_ms d e = Ok d
  | Raise x => aggregate_tracks_body min_ms d e = Raise x
  end.
Proof.
  unfold track_outcome, aggregate_tracks_body, getitem, track_update, ms_of,
    ms_played_int, uri_of.
  destruct (negb _ || negb _); [reflexivity|].
  destruct (e !! "ms_played") as [[| |z]|]; simpl; try reflexivity.
  destruct (z <? min_ms); reflexivity.
Qed.

Lemma artist_body_update (min_ms : Z) (d : dict ArtistStat.t) (e : entry) :
  match artist_outcome min_ms e with
  | Ok true =>
      aggregate_artists_body min_ms d e
      = Ok (dict_set d (artist_of e)
              (artist_update (default ArtistStat.default (dict_get d (artist_of e))) e))
  | Ok false => aggregate_artists_body min_ms d e = Ok d
  | Raise x => aggregate_artists_body min_ms d e = Raise x
  end.
Proof.
  unfold artist_outcome, aggregate_artists_body, getitem, artist_update, ms_of,
    ms_played_int, uri_of, artist_of.
  destruct (negb _ || negb _); [reflexivity|].
  destruct (e !! "ms_played") as [[| |z]|]; simpl; try reflexivity.
  destruct (z <? min_ms); reflexivity.
Qed.

Lemma track_outcome_counted (min_ms : Z) (e : entry) :
  track_outcome min_ms e = Ok true ->
  truthy (uri_of e) = true /\ min_ms <= ms_of e.
Proof.
  unfold track_outcome, ms_of, ms_played_int, uri_of.
  destruct (truthy (get e "spotify_track_uri")); simpl; [|discriminate].
  destruct (negb _); simpl; [discriminate|].
  destruct (e !! "ms_played") as [[| |z]|]; simpl; try discriminate.
  intros [= Hz]. split; [reflexivity|].
  apply negb_true_iff, Z.ltb_ge in Hz. exact Hz.
Qed.

Lemma artist_outcome_counted (min_ms : Z) (e : entry) :
  artist_outcome min_ms e = Ok true ->
  truthy (artist_of e) = true /\ min_ms <= ms_of e.
Proof.
  unfold artist_outcome, ms_of, ms_played_int, artist_of.
  destruct (truthy (get e "master_metadata_album_artist_name")); simpl;
    [|discriminate].
  destruct (negb _); simpl; [discriminate|].
  destruct (e !! "ms_played") as [[| |z]|]; simpl; try discriminate.
  intros [= Hz]. split; [reflexivity|].
  apply negb_true_iff, Z.ltb_ge in Hz. exact Hz.
Qed.

Lemma track_fold_counts (t : TrackStat.t) (l : list entry) :
  TrackStat.play_count (foldl track_update t l)
  = TrackStat.play_count t + Z.of_nat (length l)
  /\ TrackStat.total_ms (foldl track_update t l)
     = TrackStat.total_ms t + sum_Z (map ms_of l).
Proof.
  revert t. induction l as [|e l IH]; intros t; cbn [foldl length map].
  - simpl. lia.
  - destruct (IH (track_update t e)) as [-> ->]. simpl. lia.
Qed.

Lemma artist_fold_counts (a : ArtistStat.t) (l : list entry) :
  ArtistStat.play_count (foldl artist_update a l)
  = ArtistStat.play_count a + Z.of_nat (length l)
  /\ ArtistStat.total_ms (foldl artist_update a l)
     = ArtistStat.total_ms a + sum_Z (map ms_of l)
  /\ ArtistStat.track_uris (foldl artist_update a l)
     = list_to_set (map uri_of l) ∪ ArtistStat.track_uris a.
Proof.
  revert a. induction l as [|e l IH]; intros a; cbn [foldl length map].
  - simpl. repeat split; [lia | lia |]. by rewrite (left_id_L ∅ (∪)).
  - destruct (IH (artist_update a e)) as (-> & -> & ->). simpl.
    repeat split; [lia | lia |].
    by rewrite (assoc_L (∪)), (comm_L (∪) (list_to_set _)).
Qed.


Lemma size_list_to_set_le (l : list jval) :
  (size (list_to_set l : gset jval) <= length l)%nat.
Proof.
  induction l as [|x l IH]; cbn [list_to_set length].
  - rewrite size_empty. lia.
  - rewrite size_union_alt, size_singleton.
    pose proof (subseteq_size (list_to_set l ∖ {[x]}) (list_to_set l : gset jval))
      as Hsub.
    assert (list_to_set l ∖ {[x]} ⊆ (list_to_set l : gset jval)) as Hd
      by apply subseteq_difference_l, reflexivity.
    specialize (Hsub Hd). lia.
Qed.

Lemma aggregate_tracks_get (entries : list entry) (min_ms : Z)
    (tracks : dict TrackStat.t) (uri : jval) :
  aggregate_tracks entries min_ms = Ok tracks ->
  dict_get tracks uri =
  match track_plays min_ms uri entries with
  | [] => None
  | e :: plays => Some (foldl track_update TrackStat.default (e :: plays))
  end.
Proof.
  intros Hagg.
  exact (keyed_fold_get _ _ _ _ _ (track_body_update min_ms) _ _ _ uri Hagg).
Qed.

Lemma aggregate_tracks_keys (entries : list entry) (min_ms : Z)
    (tracks : dict TrackStat.t) :
  aggregate_tracks entries min_ms = Ok tracks ->
  map fst tracks
  = first_seen (map uri_of (filter (fun e => track_outcome min_ms e = Ok true)
                              entries)).
Proof.
  intros Hagg.
  exact (keyed_fold_keys _ _ _ _ _ (track_body_update min_ms) _ _ _ Hagg).
Qed.

Lemma aggregate_artists_get (entries : list entry) (min_ms : Z)
    (artists : dict ArtistStat.t) (artist : jval) :
  aggregate_artists entries min_ms = Ok artists ->
  dict_get artists artist =
  match artist_plays min_ms artist entries with
  | [] => None
  | e :: plays => Some (foldl artist_update ArtistStat.default (e :: plays))
  end.
Proof.
  intros Hagg.
  exact (keyed_fold_get _ _ _ _ _ (artist_body_update min_ms) _ _ _ artist Hagg).
Qed.

Lemma aggregate_artists_keys (entries : list entry) (min_ms : Z)
    (artists : dict ArtistStat.t) :
  aggregate_artists entries min_ms = Ok artists ->
  map fst artists
  = first_seen (map artist_of (filter (fun e => artist_outcome min_ms e = Ok true)
                                 entries)).
Proof.
  intros Hagg.
  exact (keyed_fold_keys _ _ _ _ _ (artist_body_update min_ms) _ _ _ Hagg).
Qed.

Lemma first_seen_NoDup (l : list jval) : NoDup (first_seen l).
Proof. apply foldl_add_key_NoDup, NoDup_nil_2. Qed.

Lemma first_seen_elem (l : list jval) (k : jval) : k ∈ first_seen l <-> k ∈ l.
Proof.
  unfold first_seen. rewrite foldl_add_key_elem, elem_of_nil. tauto.
Qed.

(** X1: the keys of the mapping of [aggregate_tracks] are distinct, they are
    the URIs of the counted events in the order of their first counted
    event, and none of them is empty. *)
Theorem track_keys_first_seen (entries : list entry) (min_ms : Z)
    (tracks : dict TrackStat.t) :
  aggregate_tracks entries min_ms = Ok tracks ->
  NoDup (map fst tracks)
  /\ map fst tracks
     = first_seen (map uri_of (filter (fun e => track_outcome min_ms e = Ok true)
                                 entries))
  /\ Forall (fun k => truthy k = true) (map fst tracks).
Proof.
  intros Hagg. pose proof (aggregate_tracks_keys _ _ _ Hagg) as Hkeys.
  split; [|split; [exact Hkeys|]].
  - rewrite Hkeys. apply first_seen_NoDup.
  - rewrite Hkeys. apply Forall_forall. intros k Hk.
    rewrite first_seen_elem in Hk.
    apply list_elem_of_fmap in Hk as (e & -> & He).
    apply list_elem_of_filter in He as [He _].
    by apply track_outcome_counted in He as [? _].
Qed.

(** The keys of [spec_tracks]. *)
Lemma track_keys_first_seen_witness :
  NoDup (map fst spec_tracks)
  /\ map fst spec_tracks
     = first_seen (map uri_of (filter (fun e => track_outcome 30000 e = Ok true)
                                 spec_events))
  /\ Forall (fun k => truthy k = true) (map fst spec_tracks).
Proof.
  apply (track_keys_first_seen spec_events 30000 spec_tracks).
  vm_compute. reflexivity.
Defined.

(** X2: a URI is a key of the mapping of [aggregate_tracks] exactly when some
    counted event has it; its [play_count] is then the number of the counted
    events with this URI and its [total_ms] the sum of their [ms_played]. *)
Theorem track_stat_accounting (entries : list entry) (min_ms : Z)
    (tracks : dict TrackStat.t) (uri : jval) :
  aggregate_tracks entries min_ms = Ok tracks ->
  match dict_get tracks uri with
  | Some t =>
      track_plays min_ms uri entries <> []
      /\ TrackStat.play_count t = Z.of_nat (length (track_plays min_ms uri entries))
      /\ TrackStat.total_ms t = sum_Z (map ms_of (track_plays min_ms uri entries))
  | None => track_plays min_ms uri entries = []
  end.
Proof.
  intros Hagg. rewrite (aggregate_tracks_get _ _ _ uri Hagg).
  destruct (track_plays min_ms uri entries) as [|e plays]; [reflexivity|].
  split; [discriminate|].
  destruct (track_fold_counts TrackStat.default (e :: plays)) as [-> ->].
  simpl. split; lia.
Qed.

(** Track "a" of the example: one counted play of 31000 ms, the play of
    29000 ms is not counted. *)
Lemma track_stat_accounting_witness :
  track_plays 30000 (JStr "a") spec_events <> []
  /\ 1 = Z.of_nat (length (track_plays 30000 (JStr "a") spec_events))
  /\ 31000 = sum_Z (map ms_of (track_plays 30000 (JStr "a") spec_events)).
Proof.
  apply (track_stat_accounting spec_events 30000 spec_tracks (JStr "a")).
  vm_compute. reflexivity.
Defined.

(** X3: the [track_name], [artist_name] and [album_name] of a track are
    those of the last counted event with its URI; an absent artist or album
    gives the empty string and a null one gives [None]. *)
Theorem track_metadata_is_last (entries : list entry) (min_ms : Z)
    (tracks : dict TrackStat.t) (uri : jval) (t : TrackStat.t) :
  aggregate_tracks entries min_ms = Ok tracks ->
  dict_get tracks uri = Some t ->
  exists e,
    last (track_plays min_ms uri entries) = Some e
    /\ TrackStat.track_name t = get e "master_metadata_track_name"
    /\ TrackStat.artist_name t
       = get_default e "master_metadata_album_artist_name" (JStr "")
    /\ TrackStat.album_name t
       = get_default e "master_metadata_album_album_name" (JStr "").
Proof.
  intros Hagg. rewrite (aggregate_tracks_get _ _ _ uri Hagg).
  destruct (track_plays min_ms uri entries) as [|e0 plays] using rev_ind;
    [discriminate|].
  clear IHplays. intros Ht. exists e0. rewrite last_snoc. split; [reflexivity|].
  destruct (plays ++ [e0]) as [|e1 l] eqn:Hl.
  { by apply app_nil in Hl as [_ ?]. }
  rewrite <- Hl, foldl_app in Ht. injection Ht as <-. simpl. auto.
Qed.

(** Track "a" of the example with a second counted play under another
    name. *)
Lemma track_metadata_is_last_witness :
  exists e,
    last (track_plays 30000 (JStr "a")
            [play "a" "X" "Art1" 31000; play "a" "X (remaster)" "Art2" 35000])
    = Some e
    /\ JStr "X (remaster)" = get e "master_metadata_track_name"
    /\ JStr "Art2" = get_default e "master_metadata_album_artist_name" (JStr "")
    /\ JStr "" = get_default e "master_metadata_album_album_name" (JStr "").
Proof.
  apply (track_metadata_is_last
           [play "a" "X" "Art1" 31000; play "a" "X (remaster)" "Art2" 35000]
           30000
           [(JStr "a", TrackStat.mk (JStr "X (remaster)") (JStr "Art2") (JStr "")
                         2 66000)]
           (JStr "a")
           (TrackStat.mk (JStr "X (remaster)") (JStr "Art2") (JStr "") 2 66000));
    vm_compute; reflexivity.
Defined.



(** X5: an artist is a key of the mapping of [aggregate_artists] exactly
    when some counted event has it; its [play_count] is then the number of
    its counted events, its [total_ms] the sum of their [ms_played] and its
    [track_uris] the set of their URIs, which has at most [play_count]
    elements. *)
Theorem artist_stat_accounting (entries : list entry) (min_ms : Z)
    (artists : dict ArtistStat.t) (artist : jval) :
  aggregate_artists entries min_ms = Ok artists ->
  match dict_get artists artist with
  | Some a =>
      artist_plays min_ms artist entries <> []
      /\ ArtistStat.play_count a
         = Z.of_nat (length (artist_plays min_ms artist entries))
      /\ ArtistStat.total_ms a
         = sum_Z (map ms_of (artist_plays min_ms artist entries))
      /\ ArtistStat.track_uris a
         = list_to_set (map uri_of (artist_plays min_ms artist entries))
      /\ Z.of_nat (size (ArtistStat.track_uris a)) <= ArtistStat.play_count a
  | None => artist_plays min_ms artist entries = []
  end.
Proof.
  intros Hagg. rewrite (aggregate_artists_get _ _ _ artist Hagg).
  destruct (artist_plays min_ms artist entries) as [|e plays]; [reflexivity|].
  split; [discriminate|].
  destruct (artist_fold_counts ArtistStat.default (e :: plays)) as (-> & -> & ->).
  change (ArtistStat.track_uris ArtistStat.default) with (∅ : gset jval).
  rewrite (right_id_L ∅ (∪)).
  split; [simpl; lia|]. split; [simpl; lia|]. split; [reflexivity|].
  pose proof (size_list_to_set_le (map uri_of (e :: plays))) as Hsize.
  rewrite length_map in Hsize. simpl ArtistStat.play_count. lia.
Qed.

(** The artist of the example: two counted plays of two tracks. *)
Lemma artist_stat_accounting_witness :
  artist_plays 30000 (JStr "Art1") spec_events <> []
  /\ ArtistStat.play_count (ArtistStat.mk 2 71000 {[JStr "a"; JStr "b"]})
     = Z.of_nat (length (artist_plays 30000 (JStr "Art1") spec_events))
  /\ ArtistStat.total_ms (ArtistStat.mk 2 71000 {[JStr "a"; JStr "b"]})
     = sum_Z (map ms_of (artist_plays 30000 (JStr "Art1") spec_events))
  /\ ArtistStat.track_uris (ArtistStat.mk 2 71000 {[JStr "a"; JStr "b"]})
     = list_to_set (map uri_of (artist_plays 30000 (JStr "Art1") spec_events))
  /\ Z.of_nat (size (ArtistStat.track_uris
                       (ArtistStat.mk 2 71000 {[JStr "a"; JStr "b"]})))
     <= ArtistStat.play_count (ArtistStat.mk 2 71000 {[JStr "a"; JStr "b"]}).
Proof.
  apply (artist_stat_accounting spec_events 30000 spec_artists (JStr "Art1")).
  vm_compute. reflexivity.
Defined.

(** ** The resolver: pacing, bounds and the stored lists *)

Lemma paced_app (e1 e2 : list event) : paced e1 -> paced e2 -> paced (e1 ++ e2).
Proof.
  induction 1 as [|n ok evs Hp IH|ms evs Hp IH]; simpl; intros H2.
  - exact H2.
  - apply paced_search, IH, H2.
  - apply paced_sleep, IH, H2.
Qed.

Lemma paced_next (evs before after : list event) (n : string) (ok : bool) :
  paced evs -> evs = before ++ EvSearch n ok :: after ->
  exists after', after = EvSleep 1100 :: after'.
Proof.
  intros Hp. revert before. induction Hp as [|n0 ok0 evs Hp IH|ms evs Hp IH];
    intros before Heq.
  - by destruct before.
  - destruct before as [|b0 [|b1 before]]; simplify_eq/=; eauto.
  - destruct before as [|b0 before]; simplify_eq/=; eauto.
Qed.

Lemma searches_app (e1 e2 : list event) :
  searches (e1 ++ e2) = (searches e1 + searches e2)%nat.
Proof. unfold searches. by rewrite List.filter_app, length_app. Qed.

Section Trace.
Context `{PyBuiltins} `{TagSource}.

Lemma top_tags_length (answer : option response) (tags : list string) :
  top_tags answer = Some tags -> (length tags <= 5)%nat.
Proof.
  unfold top_tags. destruct answer as [r|]; simpl; [|discriminate].
  destruct (default [] (artist_list r)) as [|a rest].
  - intros [= <-]. simpl. lia.
  - destruct (sorted_tags _) as [sorted|]; simpl; [|discriminate].
    intros Hm. apply length_mapM in Hm. rewrite <- Hm, length_take. lia.
Qed.

(** What the rounds keep of a property [P] of the cache that survives
    storing a list of at most five tags. *)
Section CacheInvariant.
Context (P : genre_cache -> Prop).
Hypothesis P_insert : forall c n tags,
  P c -> (length tags <= 5)%nat -> P (<[n := tags]> c).

Lemma fetch_one_trace (c : genre_cache) (f : list string) (w : world) (n : string) :
  exists c' f' w' ok,
    fetch_one (c, f, w) n = (c', f', w')
    /\ events w' = events w ++ [EvSearch n ok; EvSleep 1100]
    /\ lookups w' = S (lookups w)
    /\ (length f' <= S (length f))%nat
    /\ (P c -> P c').
Proof.
  unfold fetch_one.
  destruct (top_tags (search_artists (lookups w) n)) as [tags|] eqn:Htags.
  - eexists _, _, _, true. split; [reflexivity|]. simpl.
    rewrite <- app_assoc. split_and!; [done | done | lia |].
    intros Hc. apply P_insert; [exact Hc | by eapply top_tags_length].
  - eexists _, _, _, false. split; [reflexivity|]. simpl.
    rewrite <- app_assoc, length_app. simpl. split_and!; [done | done | lia | done].
Qed.

Lemma foldl_fetch_one_trace (l : list string) (c : genre_cache)
    (f : list string) (w : world) :
  exists c' f' w' evs,
    foldl fetch_one (c, f, w) l = (c', f', w')
    /\ events w' = events w ++ evs
    /\ paced evs
    /\ searches evs = length l
    /\ lookups w' = (lookups w + length l)%nat
    /\ (length f' <= length f + length l)%nat
    /\ (P c -> P c').
Proof.
  revert c f w. induction l as [|n l IH]; intros c f w.
  - exists c, f, w, []. rewrite app_nil_r. simpl.
    split_and!; [done | done | apply paced_nil | done | lia | lia | done].
  - destruct (fetch_one_trace c f w n) as (c1 & f1 & w1 & ok & Hone & He1 & Hl1 & Hf1 & HP1).
    destruct (IH c1 f1 w1) as (c2 & f2 & w2 & e2 & Hfold & He2 & Hp2 & Hs2 & Hl2 & Hf2 & HP2).
    exists c2, f2, w2, ([EvSearch n ok; EvSleep 1100] ++ e2).
    cbn [foldl]. rewrite Hone. split; [exact Hfold|].
    split; [rewrite He2, He1; by rewrite <- app_assoc|].
    split; [simpl; by constructor|].
    split; [unfold searches in *; simpl; by rewrite Hs2|].
    split; [simpl; lia|]. split; [simpl; lia | auto].
Qed.

Lemma attempts_trace (remaining : nat) (attempt max_retries : Z)
    (to_fetch : list string) (c : genre_cache) (w : world) :
  exists c' to_fetch' w' evs,
    attempts remaining attempt max_retries to_fetch c w = (c', to_fetch', w')
    /\ events w' = events w ++ evs
    /\ paced evs
    /\ (searches evs <= remaining * length to_fetch)%nat
    /\ lookups w' = (lookups w + searches evs)%nat
    /\ (length to_fetch' <= length to_fetch)%nat
    /\ (P c -> P c').
Proof.
  revert attempt to_fetch c w.
  induction remaining as [|remaining IH]; intros attempt to_fetch c w.
  - exists c, to_fetch, w, []. rewrite app_nil_r. simpl.
    split_and!; [done | done | apply paced_nil | | | lia | done];
      unfold searches; simpl; lia.
  - destruct to_fetch as [|n to_fetch].
    { exists c, [], w, []. rewrite app_nil_r. simpl.
      split_and!; [done | done | apply paced_nil | | | lia | done];
      unfold searches; simpl; lia. }
    cbn [attempts]. unfold fetch_round.
    destruct (foldl_fetch_one_trace (n :: to_fetch) c [] w)
      as (c1 & failed & w1 & e1 & -> & He1 & Hp1 & Hs1 & Hl1 & Hf1 & HP1).
    set (w1' := match failed with
                | [] => w1
                | _ :: _ => if attempt <? max_retries
                            then sleep (5000 * attempt) w1 else w1
                end).
    assert (exists es, events w1' = events w1 ++ es /\ paced es
                       /\ searches es = 0%nat /\ lookups w1' = lookups w1)
      as (es & He1' & Hps & Hss & Hls).
    { subst w1'. destruct failed as [|m failed].
      - exists []. rewrite app_nil_r. split_and!; [done | apply paced_nil | done | done].
      - destruct (attempt <? max_retries).
        + exists [EvSleep (5000 * attempt)].
          split_and!; [done | apply paced_sleep, paced_nil | done | done].
        + exists []. rewrite app_nil_r.
          split_and!; [done | apply paced_nil | done | done]. }
    destruct (IH (attempt + 1) failed c1 w1')
      as (c2 & t2 & w2 & e2 & -> & He2 & Hp2 & Hs2 & Hl2 & Hf2 & HP2).
    exists c2, t2, w2, ((e1 ++ es) ++ e2).
    split; [reflexivity|].
    split; [rewrite He2, He1', He1; by rewrite !app_assoc|].
    split; [by repeat apply paced_app|].
    rewrite !searches_app, Hss, Hs1.
    assert (remaining * length failed <= remaining * length (n :: to_fetch))%nat
      as Hmul by (apply Nat.mul_le_mono_l; simpl in *; lia).
    rewrite Nat.mul_succ_l. simpl in Hf1.
    split_and!; [lia | lia | simpl in *; lia | auto].
Qed.
End CacheInvariant.
End Trace.

Section RunTrace.
Context `{PyBuiltins} `{JsonCodec} `{TagSource}.

Lemma mark_unresolved_invariant (P : genre_cache -> Prop) (l : list string)
    (c : genre_cache) :
  (forall c n tags, P c -> (length tags <= 5)%nat -> P (<[n := tags]> c)) ->
  P c -> P (mark_unresolved l c).
Proof.
  intros HP. unfold mark_unresolved. revert c.
  induction l as [|n l IH]; intros c Hc; cbn [foldl]; [exact Hc|].
  apply IH, HP; [exact Hc | simpl; lia].
Qed.

(** Every call that loads a cache returns; its events before the save are
    paced, its lookups are bounded, and the saved cache keeps every property
    of the loaded one that survives storing a list of at most five tags. *)
Lemma fetch_artist_genres_trace (P : genre_cache -> Prop)
    (names : list string) (max_retries : Z) (w : world) (cache : genre_cache) :
  (forall c n tags, P c -> (length tags <= 5)%nat -> P (<[n := tags]> c)) ->
  load_genre_cache w = Ok cache ->
  exists result evs saved w',
    fetch_artist_genres names max_retries w = Ok (result, w')
    /\ events w' = events w ++ evs ++ [EvSave saved]
    /\ cache_file w' = Some (json_dump saved)
    /\ paced evs
    /\ (searches evs <= Z.to_nat max_retries * length (pending cache names))%nat
    /\ lookups w' = (lookups w + searches evs)%nat
    /\ (P cache -> P saved).
Proof.
  intros HP Hload. unfold fetch_artist_genres, resolve. rewrite Hload. simpl.
  fold (pending cache names).
  destruct (attempts_trace P HP (Z.to_nat max_retries) 1 max_retries
              (pending cache names) cache w)
    as (c' & t' & w' & evs & -> & Hev & Hp & Hs & Hl & _ & HPc).
  eexists _, evs, _, _. split; [reflexivity|]. simpl.
  split_and!; [rewrite Hev; by rewrite app_assoc | done | done | done | done |].
  intros Hc. apply mark_unresolved_invariant; [exact HP | auto].
Qed.
End RunTrace.

(** X6: in every call of [fetch_artist_genres], each lookup of the tag
    source, successful or not, is directly followed by the pause of 1.1
    seconds. *)
Theorem lookups_are_paced `{PyBuiltins} `{JsonCodec} `{TagSource}
    (artist_names : list string) (max_retries : Z) (w : world)
    (cache : genre_cache) :
  load_genre_cache w = Ok cache ->
  exists result evs saved,
    fetch_returns artist_names max_retries w result evs saved
    /\ forall before name ok after,
         evs = before ++ EvSearch name ok :: after ->
         exists after', after = EvSleep 1100 :: after'.
Proof.
  intros Hload.
  destruct (fetch_artist_genres_trace (fun _ => True) artist_names max_retries
              w cache (fun _ _ _ _ _ => I) Hload)
    as (result & evs & saved & w' & Hrun & Hev & Hfile & Hp & _).
  exists result, evs, saved. split; [by exists w'|].
  intros before n ok after Heq. exact (paced_next _ _ _ _ _ Hp Heq).
Qed.

(** One name whose lookup succeeds and the example names with a source that
    always fails. *)
Lemma lookups_are_paced_witness :
  exists result evs saved,
    @fetch_returns AsciiText.builtins JsonText.codec failing_source
      example_names 3 example_world result evs saved
    /\ forall before name ok after,
         evs = before ++ EvSearch name ok :: after ->
         exists after', after = EvSleep 1100 :: after'.
Proof.
  apply (@lookups_are_paced AsciiText.builtins JsonText.codec failing_source
           example_names 3 example_world example_cache).
  vm_compute. reflexivity.
Defined.

(** ** The resolver: the lookups of one name *)




Section PerName.
Context `{PyBuiltins} `{TagSource}.



End PerName.




(** A name requested twice is looked up twice in each round. *)
Example repeated_name_lookups :
  exists result w',
    @fetch_artist_genres AsciiText.builtins JsonText.codec failing_source
      ["NewArtist"; "Ghost"; "NewArtist"] 3 example_world = Ok (result, w')
    /\ searches_of "NewArtist" (events w') = 6%nat
    /\ searches_of "Ghost" (events w') = 0%nat
    /\ times "NewArtist" (pending example_cache ["NewArtist"; "Ghost"; "NewArtist"])
       = 2%nat.
Proof. eexists _, _. split_and!; vm_compute; reflexivity. Qed.

(** X8: every list that a call stores in the cache has at most five tags: an
    entry of the saved cache is an entry of the loaded cache or has at most
    five elements. *)
Theorem stored_lists_have_at_most_five_tags `{PyBuiltins} `{JsonCodec} `{TagSource}
    (artist_names : list string) (max_retries : Z) (w : world)
    (cache : genre_cache) :
  load_genre_cache w = Ok cache ->
  exists result evs saved,
    fetch_returns artist_names max_retries w result evs saved
    /\ forall name tags, saved !! name = Some tags ->
         cache !! name = Some tags \/ (length tags <= 5)%nat.
Proof.
  intros Hload.
  destruct (fetch_artist_genres_trace
              (fun c => forall name tags, c !! name = Some tags ->
                          cache !! name = Some tags \/ (length tags <= 5)%nat)
              artist_names max_retries w cache)
    as (result & evs & saved & w' & Hrun & Hev & Hfile & _ & _ & _ & HP).
  - intros c n tags Hc Hlen name tags'. rewrite lookup_insert.
    case_decide as Hn; [|apply Hc]. intros [= <-]. by right.
  - exact Hload.
  - exists result, evs, saved. split; [by exists w'|]. apply HP. auto.
Qed.

(** A source with seven tags for every name. *)
Lemma stored_lists_have_at_most_five_tags_witness :
  exists result evs saved,
    @fetch_returns AsciiText.builtins JsonText.codec seven_tags_source
      example_names 3 example_world result evs saved
    /\ forall name tags, saved !! name = Some tags ->
         example_cache !! name = Some tags \/ (length tags <= 5)%nat.
Proof.
  apply (@stored_lists_have_at_most_five_tags AsciiText.builtins JsonText.codec
           seven_tags_source example_names 3 example_world example_cache).
  vm_compute. reflexivity.
Defined.

(** ** The resolver: keys of the saved cache and calls without lookups *)

(** X9: the keys of the saved cache are the keys of the loaded cache
    together with the requested names: a call adds the requested names and
    no other key. *)
Theorem saved_keys_are_loaded_and_requested `{PyBuiltins} `{JsonCodec} `{TagSource}
    (artist_names : list string) (max_retries : Z) (w : world)
    (cache : genre_cache) :
  load_genre_cache w = Ok cache ->
  exists result evs saved,
    fetch_returns artist_names max_retries w result evs saved
    /\ dom saved = dom cache ∪ list_to_set artist_names.
Proof.
  intros Hload.
  destruct (fetch_artist_genres_run artist_names max_retries w cache Hload)
    as (cache' & to_fetch' & evs & Hrun & F).
  eexists _, evs, _. split; [exact Hrun|].
  apply set_eq. intros k.
  rewrite elem_of_union, !elem_of_dom, elem_of_list_to_set. split.
  - intros Hk. destruct (cache !! k) as [v|] eqn:Hc; [left; eauto|]. right.
    destruct (decide (k ∈ artist_names)) as [Hin|Hnot]; [exact Hin|].
    exfalso. rewrite mark_unresolved_lookup in Hk.
    assert (k ∉ filter (fun n => cache !! n = None) artist_names) as Hp.
    { rewrite pending_name. tauto. }
    rewrite decide_False in Hk.
    + rewrite (rf_frame _ _ _ _ _ F k Hp), Hc in Hk. by destruct Hk.
    + intros Hin. apply Hp. eapply elem_of_sublist; [exact Hin | apply F].
  - intros [[v Hv]|Hin].
    + rewrite (cached_entry_saved _ _ _ _ _ _ _ F Hv). eauto.
    + exact (requested_name_saved _ _ _ _ _ k F Hin).
Qed.

(** The example cache and the example names. *)
Lemma saved_keys_are_loaded_and_requested_witness :
  exists result evs saved,
    @fetch_returns AsciiText.builtins JsonText.codec rock_pop_source
      example_names 3 example_world result evs saved
    /\ dom saved = dom example_cache ∪ list_to_set example_names.
Proof.
  apply (@saved_keys_are_loaded_and_requested AsciiText.builtins JsonText.codec
           rock_pop_source example_names 3 example_world example_cache).
  vm_compute. reflexivity.
Defined.

Section NoLookups.
Context `{PyBuiltins} `{JsonCodec} `{TagSource}.

Lemma attempts_nothing_to_fetch (remaining : nat) (attempt max_retries : Z)
    (c : genre_cache) (w : world) :
  attempts remaining attempt max_retries [] c w = (c, [], w).
Proof. by destruct remaining. Qed.

Lemma pending_nil (cache : genre_cache) (names : list string) :
  (forall n, n ∈ names -> is_Some (cache !! n)) ->
  filter (fun n => cache !! n = None) names = [].
Proof.
  intros Hall. induction names as [|n names IH]; [reflexivity|].
  rewrite filter_cons. destruct (Hall n) as [v Hv]; [by left|].
  rewrite decide_False by congruence. apply IH. intros m Hm. apply Hall. by right.
Qed.
End NoLookups.

(** X10: when every requested name is a key of the loaded cache, whatever
    its value, a call issues no lookup and no pause, saves the cache as it
    was and returns the cached lists. *)
Theorem cached_names_need_no_lookup `{PyBuiltins} `{JsonCodec} `{TagSource}
    (artist_names : list string) (max_retries : Z) (w : world)
    (cache : genre_cache) :
  load_genre_cache w = Ok cache ->
  (forall name, name ∈ artist_names -> is_Some (cache !! name)) ->
  exists result,
    fetch_returns artist_names max_retries w result [] cache
    /\ forall name, name ∈ artist_names -> result !! name = cache !! name.
Proof.
  intros Hload Hall. eexists. split.
  - unfold fetch_returns, fetch_artist_genres, resolve. rewrite Hload. simpl.
    rewrite (pending_nil _ _ Hall), attempts_nothing_to_fetch. simpl.
    eexists. split; [reflexivity|]. split; reflexivity.
  - intros n Hn. rewrite result_mapping_lookup, decide_True by done.
    destruct (Hall n Hn) as [v ->]. reflexivity.
Qed.

(** Two cached names, one with an empty list, and a source that would
    fail. *)
Lemma cached_names_need_no_lookup_witness :
  exists result,
    @fetch_returns AsciiText.builtins JsonText.codec failing_source
      ["Ghost"; "Netsky"] 3 example_world result [] example_cache
    /\ forall name, name ∈ ["Ghost"; "Netsky"] ->
         result !! name = example_cache !! name.
Proof.
  apply (@cached_names_need_no_lookup AsciiText.builtins JsonText.codec
           failing_source ["Ghost"; "Netsky"] 3 example_world example_cache).
  - vm_compute. reflexivity.
  - intros name Hn.
    apply elem_of_cons in Hn as [->|Hn]; [vm_compute; eauto|].
    apply list_elem_of_singleton in Hn as ->. vm_compute. eauto.
Defined.

(** X11: with [max_retries <= 0] a call issues no lookup at all: every
    requested name that is not in the loaded cache is saved, and returned,
    as an empty list, and the other entries are saved as they were. *)
Theorem no_retries_no_lookup `{PyBuiltins} `{JsonCodec} `{TagSource}
    (artist_names : list string) (max_retries : Z) (w : world)
    (cache : genre_cache) :
  load_genre_cache w = Ok cache ->
  max_retries <= 0 ->
  exists result saved,
    fetch_returns artist_names max_retries w result [] saved
    /\ (forall name, name ∈ artist_names -> cache !! name = None ->
          saved !! name = Some [] /\ result !! name = Some [])
    /\ (forall name, is_Some (cache !! name) -> saved !! name = cache !! name).
Proof.
  intros Hload Hmax.
  exists (result_mapping artist_names
            (mark_unresolved (pending cache artist_names) cache)),
    (mark_unresolved (pending cache artist_names) cache).
  split; [|split].
  - unfold fetch_returns, fetch_artist_genres, resolve. rewrite Hload. simpl.
    replace (Z.to_nat max_retries) with 0%nat by lia. simpl.
    eexists. split; [reflexivity|]. split; reflexivity.
  - intros n Hn Hnone.
    assert (mark_unresolved (pending cache artist_names) cache !! n = Some [])
      as Hs.
    { rewrite mark_unresolved_lookup, decide_True; [reflexivity|].
      apply pending_name. auto. }
    split; [exact Hs|].
    rewrite result_mapping_lookup, decide_True by done. by rewrite Hs.
  - intros n [v Hv]. rewrite mark_unresolved_lookup, decide_False; [reflexivity|].
    unfold pending. rewrite pending_name. intros [_ ?]. congruence.
Qed.

(** The example names with no attempt allowed. *)
Lemma no_retries_no_lookup_witness :
  exists result saved,
    @fetch_returns AsciiText.builtins JsonText.codec rock_pop_source
      example_names 0 example_world result [] saved
    /\ (forall name, name ∈ example_names -> example_cache !! name = None ->
          saved !! name = Some [] /\ result !! name = Some [])
    /\ (forall name, is_Some (example_cache !! name) ->
          saved !! name = example_cache !! name).
Proof.
  apply (@no_retries_no_lookup AsciiText.builtins JsonText.codec
           rock_pop_source example_names 0 example_world example_cache).
  - vm_compute. reflexivity.
  - lia.
Defined.

(** X12: after a call, a second call for the same names reads the saved
    cache and issues no lookup, whatever the tag source then answers and
    whatever [max_retries]; it returns the same result and saves the same
    cache. The JSON implementation has to read back what it writes. *)
Theorem second_call_needs_no_lookup `{PyBuiltins} `{JsonCodec}
    (first second : TagSource) (artist_names : list string)
    (max_retries max_retries' : Z) (w : world) (cache : genre_cache) :
  (forall c, json_load (json_dump c) = Ok c) ->
  load_genre_cache w = Ok cache ->
  exists result w' saved,
    @fetch_artist_genres _ _ first artist_names max_retries w = Ok (result, w')
    /\ cache_file w' = Some (json_dump saved)
    /\ @fetch_returns _ _ second artist_names max_retries' w' result [] saved.
Proof.
  intros Hjson Hload.
  destruct (@fetch_artist_genres_run _ _ first artist_names max_retries w cache
              Hload) as (cache' & to_fetch' & evs & (w' & Hrun & Hev & Hfile) & F).
  eexists _, w', _. split; [exact Hrun|]. split; [exact Hfile|].
  unfold fetch_returns, fetch_artist_genres, resolve, load_genre_cache.
  rewrite Hfile, Hjson. simpl.
  rewrite pending_nil, attempts_nothing_to_fetch.
  - simpl. eexists. split; [reflexivity|]. split; reflexivity.
  - intros n Hn. exact (requested_name_saved _ _ _ _ _ n F Hn).
Qed.

(** A first call with a source that answers, a second one with a source
    that fails. *)
Lemma second_call_needs_no_lookup_witness :
  exists result w' saved,
    @fetch_artist_genres AsciiText.builtins JsonText.codec rock_pop_source
      example_names 3 example_world = Ok (result, w')
    /\ cache_file w' = Some (JsonText.dump saved)
    /\ @fetch_returns AsciiText.builtins JsonText.codec failing_source
         example_names 1 w' result [] saved.
Proof.
  apply (@second_call_needs_no_lookup AsciiText.builtins JsonText.codec
           rock_pop_source failing_source example_names 3 1 example_world
           example_cache).
  - exact JsonTextFacts.load_dump.
  - vm_compute. reflexivity.
Defined.

(** ** The resolver: the rounds when every lookup fails *)

Section AllFail.
Context `{PyBuiltins} `{TagSource}.
Hypothesis all_fail : forall i n, search_artists i n = None.

Lemma foldl_fetch_one_all_fail (l : list string) (c : genre_cache)
    (f : list string) (w : world) :
  foldl fetch_one (c, f, w) l
  = (c, f ++ l,
     mk_world (cache_file w) (lookups w + length l) (events w ++ failed_round l)).
Proof.
  revert f w. induction l as [|n l IH]; intros f w; cbn [foldl].
  - destruct w. simpl. by rewrite !app_nil_r, Nat.add_0_r.
  - unfold fetch_one at 2. rewrite all_fail. simpl top_tags. cbv iota beta.
    rewrite IH. simpl. rewrite <- !app_assoc. simpl.
    do 2 f_equal. lia.
Qed.

Lemma attempts_all_fail (remaining first n : nat) (l : list string)
    (c : genre_cache) (w : world) :
  l <> [] ->
  attempts remaining (Z.of_nat first) (Z.of_nat n) l c w
  = (c, l,
     mk_world (cache_file w) (lookups w + remaining * length l)
       (events w ++ failing_rounds l first remaining n)).
Proof.
  intros Hl. revert first w.
  induction remaining as [|remaining IH]; intros first w; cbn [attempts].
  - destruct w. unfold failing_rounds. simpl. by rewrite app_nil_r, Nat.add_0_r.
  - destruct l as [|m l]; [done|].
    unfold fetch_round. rewrite foldl_fetch_one_all_fail. simpl app.
    replace (Z.of_nat first + 1) with (Z.of_nat (S first)) by lia.
    unfold failing_rounds. cbn [seq flat_map]. fold (failing_rounds (m :: l)).
    destruct (decide (first < n)%nat) as [Hlt|Hge].
    + replace (Z.of_nat first <? Z.of_nat n) with true
        by (symmetry; apply Z.ltb_lt; lia).
      rewrite IH. unfold sleep, log. simpl.
      rewrite <- !app_assoc. simpl. do 2 f_equal. lia.
    + replace (Z.of_nat first <? Z.of_nat n) with false
        by (symmetry; apply Z.ltb_ge; lia).
      rewrite IH. simpl. rewrite app_nil_r, <- !app_assoc. do 2 f_equal. lia.
Qed.
End AllFail.

(** X13: when every lookup raises, a call makes [max_retries] rounds over
    the requested names that are not in the loaded cache, pauses [5 * k]
    seconds after round [k], and does not pause after the last round. *)
Theorem failing_lookups_follow_the_schedule `{PyBuiltins} `{JsonCodec} `{TagSource}
    (artist_names : list string) (max_retries : Z) (w : world)
    (cache : genre_cache) :
  (forall i n, search_artists i n = None) ->
  load_genre_cache w = Ok cache ->
  exists result saved,
    fetch_returns artist_names max_retries w result
      (failing_schedule (pending cache artist_names) (Z.to_nat max_retries))
      saved.
Proof.
  intros Hfail Hload.
  unfold fetch_returns, fetch_artist_genres, resolve. rewrite Hload. simpl.
  fold (pending cache artist_names).
  destruct (pending cache artist_names) as [|m l] eqn:Hp.
  - rewrite attempts_nothing_to_fetch. simpl.
    eexists _, _, _. split; [reflexivity|]. split; reflexivity.
  - destruct (Z.to_nat max_retries) as [|r] eqn:Hr.
    + simpl. eexists _, _, _. split; [reflexivity|]. split; reflexivity.
    + assert (max_retries = Z.of_nat (S r)) as -> by lia.
      pose proof (attempts_all_fail Hfail (S r) 1 (S r) (m :: l) cache w) as Ha.
      change (Z.of_nat 1) with 1 in Ha. rewrite Ha by done.
      eexists _, _, _. split; [reflexivity|]. simpl events.
      split; [by rewrite <- app_assoc | reflexivity].
Qed.

(** Two pending names and three attempts. *)
Lemma failing_lookups_follow_the_schedule_witness :
  exists result saved,
    @fetch_returns AsciiText.builtins JsonText.codec failing_source
      ["Ghost"; "NewArtist"; "Other"] 3 example_world result
      (failing_schedule (pending example_cache ["Ghost"; "NewArtist"; "Other"])
         (Z.to_nat 3))
      saved.
Proof.
  apply (@failing_lookups_follow_the_schedule AsciiText.builtins JsonText.codec
           failing_source ["Ghost"; "NewArtist"; "Other"] 3 example_world
           example_cache).
  - reflexivity.
  - vm_compute. reflexivity.
Defined.

Example failing_schedule_two_names :
  failing_schedule ["NewArtist"; "Other"] 3
  = [EvSearch "NewArtist" false; EvSleep 1100; EvSearch "Other" false; EvSleep 1100;
     EvSleep 5000;
     EvSearch "NewArtist" false; EvSleep 1100; EvSearch "Other" false; EvSleep 1100;
     EvSleep 10000;
     EvSearch "NewArtist" false; EvSleep 1100; EvSearch "Other" false; EvSleep 1100].
Proof. reflexivity. Qed.

(** ** [make_playlists.py] against [analyze_history.py] *)

Lemma for_each_simulation {S T A : Type} (body1 : S -> A -> result S)
    (body2 : T -> A -> result T) (proj : S -> T) :
  (forall s a, body2 (proj s) a
               = match body1 s a with Ok s' => Ok (proj s') | Raise x => Raise x end) ->
  forall l s, for_each body2 (proj s) l
              = match for_each body1 s l with
                | Ok s' => Ok (proj s')
                | Raise x => Raise x
                end.
Proof.
  intros Hbody. induction l as [|a l IH]; intros s; simpl; [reflexivity|].
  rewrite Hbody. destruct (body1 s a) as [s'|x]; simpl; [apply IH | reflexivity].
Qed.

Lemma dict_get_drop_albums (tracks : dict TrackStat.t) (k : jval) :
  dict_get (drop_albums tracks) k = drop_album <$> dict_get tracks k.
Proof.
  induction tracks as [|[k0 t0] tracks IH]; simpl; [reflexivity|].
  case_decide; [reflexivity | exact IH].
Qed.

Lemma dict_set_drop_albums (tracks : dict TrackStat.t) (k : jval) (t : TrackStat.t) :
  dict_set (drop_albums tracks) k (drop_album t) = drop_albums (dict_set tracks k t).
Proof.
  induction tracks as [|[k0 t0] tracks IH]; simpl; [reflexivity|].
  case_decide; simpl; [reflexivity | by rewrite IH].
Qed.

Lemma aggregate_tracks_body_drop_albums (min_ms : Z) (tracks : dict TrackStat.t)
    (e : entry) :
  MakePlaylists.aggregate_tracks_body min_ms (drop_albums tracks) e
  = match aggregate_tracks_body min_ms tracks e with
    | Ok tracks' => Ok (drop_albums tracks')
    | Raise x => Raise x
    end.
Proof.
  unfold MakePlaylists.aggregate_tracks_body, aggregate_tracks_body, getitem.
  destruct (negb _ || negb _); [reflexivity|].
  destruct (e !! "ms_played") as [[| |z]|]; simpl; try reflexivity.
  destruct (z <? min_ms); simpl; [reflexivity|].
  rewrite dict_get_drop_albums, <- dict_set_drop_albums.
  destruct (dict_get tracks _); reflexivity.
Qed.

(** X14: the [aggregate_tracks] of [make_playlists.py] is the one of
    [analyze_history.py] without the album: it raises on the same inputs and
    otherwise gives the same tracks, in the same order, with the same names,
    play counts and listening times. *)
Theorem aggregate_tracks_copies_agree (entries : list entry) (min_ms : Z) :
  MakePlaylists.aggregate_tracks entries min_ms
  = match aggregate_tracks entries min_ms with
    | Ok tracks => Ok (drop_albums tracks)
    | Raise x => Raise x
    end.
Proof.
  unfold MakePlaylists.aggregate_tracks, aggregate_tracks.
  exact (for_each_simulation (aggregate_tracks_body min_ms)
           (MakePlaylists.aggregate_tracks_body min_ms) drop_albums
           (aggregate_tracks_body_drop_albums min_ms) entries []).
Qed.

Lemma mp_aggregate_tracks_inv (entries : list entry) (min_ms : Z)
    (mp_tracks : dict MakePlaylists.TrackStat.t) :
  MakePlaylists.aggregate_tracks entries min_ms = Ok mp_tracks ->
  exists tracks, aggregate_tracks entries min_ms = Ok tracks
                 /\ mp_tracks = drop_albums tracks.
Proof.
  unfold MakePlaylists.aggregate_tracks, aggregate_tracks.
  pose proof (for_each_simulation (aggregate_tracks_body min_ms)
                (MakePlaylists.aggregate_tracks_body min_ms) drop_albums
                (aggregate_tracks_body_drop_albums min_ms) entries []) as Hsim.
  change (drop_albums []) with (@nil (jval * MakePlaylists.TrackStat.t)) in Hsim.
  rewrite Hsim.
  destruct (for_each (aggregate_tracks_body min_ms) [] entries) as [tracks|x];
    [|discriminate].
  intros [= <-]. eauto.
Qed.

Lemma mp_aggregate_tracks_NoDup (entries : list entry) (min_ms : Z)
    (mp_tracks : dict MakePlaylists.TrackStat.t) :
  MakePlaylists.aggregate_tracks entries min_ms = Ok mp_tracks ->
  NoDup (map fst mp_tracks).
Proof.
  intros (tracks & Hagg & ->)%mp_aggregate_tracks_inv.
  assert (map fst (drop_albums tracks) = map fst tracks) as ->.
  { unfold drop_albums. rewrite map_map. reflexivity. }
  rewrite (aggregate_tracks_keys _ _ _ Hagg). apply first_seen_NoDup.
Qed.

(** ** The first [n] of a ranking *)

Section TopN.
Context {A : Type} (key : A -> Z).

Lemma sorted_take_drop (n : nat) (l : list A) (x y : A) :
  StronglySorted (fun a b => key b <= key a) l ->
  x ∈ take n l -> y ∈ drop n l -> key y <= key x.
Proof.
  intros Hs. revert n. induction Hs as [|a l Hs IH Ha]; intros n Hx Hy.
  - rewrite take_nil in Hx. by apply elem_of_nil in Hx.
  - destruct n as [|n]; simpl in *; [by apply elem_of_nil in Hx|].
    apply elem_of_cons in Hx as [->|Hx]; [|by eapply IH].
    rewrite Forall_forall in Ha. apply Ha.
    eapply elem_of_sublist; [exact Hy | apply sublist_drop].
Qed.

Lemma top_n_dominates (n : nat) (l : list A) (x y : A) :
  NoDup l ->
  x ∈ take n (sorted_desc key l) -> y ∈ l -> y ∉ take n (sorted_desc key l) ->
  key y <= key x.
Proof.
  intros Hnd Hx Hy Hny.
  apply (sorted_take_drop n (sorted_desc key l)); [apply sorted_desc_sorted | exact Hx |].
  rewrite <- (sorted_desc_perm key l) in Hy.
  rewrite <- (take_drop n (sorted_desc key l)) in Hy.
  apply elem_of_app in Hy as [Hy|Hy]; [done | exact Hy].
Qed.

Lemma top_n_all (n : nat) (l : list A) :
  (length l <= n)%nat -> take n (sorted_desc key l) ≡ₚ l.
Proof.
  intros Hn. rewrite take_ge; [apply sorted_desc_perm|].
  by rewrite (Permutation_length (sorted_desc_perm key l)).
Qed.
End TopN.

Lemma NoDup_fst_elements {V : Type} (d : dict V) : NoDup (map fst d) -> NoDup d.
Proof. apply NoDup_fmap_1. Qed.

Lemma NoDup_fst_sublist {V : Type} (d d' : dict V) :
  d' `sublist_of` d -> NoDup (map fst d) -> NoDup (map fst d').
Proof.
  intros Hsub Hnd. eapply sublist_NoDup; [exact Hnd|].
  by apply (fmap_sublist fst).
Qed.

(** ** The playlists of [make_playlists.py] *)

Lemma list_filter_sublist {A : Type} (f : A -> bool) (l : list A) :
  List.filter f l `sublist_of` l.
Proof.
  induction l as [|x l IH]; simpl; [constructor|].
  destruct (f x); by constructor.
Qed.



Lemma recent_spec (entries acc : list entry) :
  for_each (fun acc e =>
              keep ← Recent.py_ge_str (get_default e "ts" (JStr "")) "2016-01-01";
              Ok (if (keep : bool) then acc ++ [e] else acc)) acc entries
  = if forallb ts_comparable entries
    then Ok (acc ++ List.filter is_recent entries)
    else Raise TypeError.
Proof.
  revert acc. induction entries as [|e entries IH]; intros acc; simpl.
  - by rewrite app_nil_r.
  - unfold ts_comparable at 1, is_recent at 1, Recent.py_ge_str at 1.
    destruct (get_default e "ts" (JStr "")) as [|t|z]; simpl; try reflexivity.
    rewrite IH. destruct (forallb ts_comparable entries); [|reflexivity].
    destruct (String.leb "2016-01-01" t); [|reflexivity].
    by rewrite <- app_assoc.
Qed.

(** X16: the filter of the last ten years keeps, in order, the events whose
    [ts] is a string not before ['2016-01-01'] and drops the others, also
    those without [ts]; it raises [TypeError] exactly when some event has a
    [ts] that is not a string, such as a null. *)
Theorem recent_keeps_dated_events (entries : list entry) :
  Recent.recent entries
  = if forallb ts_comparable entries
    then Ok (List.filter is_recent entries)
    else Raise TypeError.
Proof. unfold Recent.recent. rewrite recent_spec. reflexivity. Qed.

Example recent_dated_events :
  Recent.recent dated_events
  = Ok [play_at "a" "X" "Art1" 32000 "2016-01-01T00:00:00Z";
        play_at "c" "Z" "Art2" 50000 "2020-05-17T10:00:00Z"].
Proof. vm_compute. reflexivity. Qed.

Example recent_null_ts :
  Recent.recent [<["ts" := JNull]> (play "a" "X" "Art1" 31000)] = Raise TypeError.
Proof. vm_compute. reflexivity. Qed.

(** X17: the top-100 list of the last ten years has at most 100 tracks with
    distinct URIs, and the [play_count] of each counts the counted plays of
    its URI among the events not before ['2016-01-01'] only, of which there
    is at least one. *)
Theorem top_100_recent_counts_recent_plays (entries : list entry)
    (selected : list (jval * MakePlaylists.TrackStat.t)) :
  Recent.top_100_recent entries = Ok selected ->
  (length selected <= 100)%nat
  /\ NoDup (map fst selected)
  /\ forall uri t, (uri, t) ∈ selected ->
       1 <= MakePlaylists.TrackStat.play_count t
       /\ MakePlaylists.TrackStat.play_count t
          = Z.of_nat (length (track_plays default_min_ms uri
                                (List.filter is_recent entries))).
Proof.
  unfold Recent.top_100_recent, Recent.recent. rewrite recent_spec.
  destruct (forallb ts_comparable entries); [|discriminate]. simpl.
  destruct (MakePlaylists.aggregate_tracks (List.filter is_recent entries)
              default_min_ms) as [recent_tracks|x] eqn:Hagg; [|discriminate].
  simpl. intros [= <-]. unfold Recent.top_100.
  pose proof (mp_aggregate_tracks_NoDup _ _ _ Hagg) as Hnd.
  split_and!.
  - rewrite length_take. lia.
  - eapply NoDup_fst_sublist; [apply sublist_take|].
    by rewrite (sorted_desc_perm _ recent_tracks).
  - intros uri t Hin.
    pose proof (elem_of_sublist _ _ _ Hin (sublist_take _ _)) as Hin'.
    rewrite sorted_desc_perm in Hin'. clear Hin.
    apply mp_aggregate_tracks_inv in Hagg as (tracks & Hagg & ->).
    apply list_elem_of_fmap in Hin' as ([uri0 t0] & [= -> ->] & Hin0).
    assert (NoDup (map fst tracks)) as Hnd0.
    { rewrite (aggregate_tracks_keys _ _ _ Hagg). apply first_seen_NoDup. }
    pose proof (aggregate_tracks_get _ _ _ uri0 Hagg) as Hget.
    rewrite (dict_elem_get _ _ _ Hnd0 Hin0) in Hget.
    destruct (track_plays default_min_ms uri0 (List.filter is_recent entries))
      as [|e plays]; [discriminate|].
    injection Hget as ->.
    destruct (track_fold_counts TrackStat.default (e :: plays)) as [Hc _].
    simpl drop_album. simpl MakePlaylists.TrackStat.play_count.
    change (foldl track_update (track_update TrackStat.default e) plays)
      with (foldl track_update TrackStat.default (e :: plays)).
    rewrite Hc. simpl TrackStat.play_count. rewrite length_cons. lia.
Qed.

(** Track "a" has a play in 2015 and one in 2016; the play of "b" has no
    [ts]. *)
Lemma top_100_recent_counts_recent_plays_witness :
  (length [(JStr "a", MakePlaylists.TrackStat.mk (JStr "X") (JStr "Art1") 1 32000);
           (JStr "c", MakePlaylists.TrackStat.mk (JStr "Z") (JStr "Art2") 1 50000)]
   <= 100)%nat
  /\ NoDup [JStr "a"; JStr "c"].
Proof.
  destruct (top_100_recent_counts_recent_plays dated_events
              [(JStr "a", MakePlaylists.TrackStat.mk (JStr "X") (JStr "Art1") 1 32000);
               (JStr "c", MakePlaylists.TrackStat.mk (JStr "Z") (JStr "Art2") 1 50000)])
    as (Hlen & Hnd & _).
  - vm_compute. reflexivity.
  - split; [exact Hlen | exact Hnd].
Defined.


(** ** [create_playlist]: the batches *)

Import CreatePlaylist.

Lemma range_100_bound (n i : nat) :
  (i < (n + 100 - 1) / 100 <-> i * 100 < n)%nat.
Proof.
  pose proof (Nat.div_mod_eq (n + 100 - 1) 100) as Hq.
  pose proof (Nat.mod_upper_bound (n + 100 - 1) 100) as Hr.
  lia.
Qed.

Lemma batches_lookup {A : Type} (l : list A) (i : nat) :
  CreatePlaylist.batches l !! i
  = if decide (i * 100 < length l)%nat then Some (take 100 (drop (i * 100) l))
    else None.
Proof.
  unfold CreatePlaylist.batches, CreatePlaylist.py_range_step.
  rewrite !list_lookup_fmap.
  case_decide as Hi.
  - rewrite (lookup_seq_lt _ _ i) by (by apply range_100_bound). reflexivity.
  - rewrite lookup_seq_ge; [reflexivity|].
    pose proof (range_100_bound (length l) i). lia.
Qed.

Lemma concat_slices {A : Type} (l : list A) (m : nat) :
  concat (map (fun i => take 100 (drop i l)) (map (fun k => (k * 100)%nat) (seq 0 m)))
  = take (m * 100) l.
Proof.
  induction m as [|m IH]; [reflexivity|].
  rewrite seq_S, !map_app, concat_app, IH. simpl.
  rewrite app_nil_r, take_take_drop. f_equal. lia.
Qed.

Lemma batches_concat {A : Type} (l : list A) :
  concat (CreatePlaylist.batches l) = l.
Proof.
  unfold CreatePlaylist.batches, CreatePlaylist.py_range_step.
  rewrite concat_slices. apply take_ge.
  pose proof (Nat.div_mod_eq (length l + 100 - 1) 100) as Hq.
  pose proof (Nat.mod_upper_bound (length l + 100 - 1) 100) as Hr.
  lia.
Qed.

Lemma batches_length {A : Type} (l : list A) :
  length (CreatePlaylist.batches l) = ((length l + 99) / 100)%nat.
Proof.
  unfold CreatePlaylist.batches, CreatePlaylist.py_range_step.
  rewrite !length_map, length_seq. f_equal. lia.
Qed.

(** X18: the batches of [create_playlist] cut the list of URIs into
    consecutive slices: concatenated they give the list back, there are
    [ceil(len / 100)] of them, the batch of index [i] is
    [track_uris[100 * i : 100 * i + 100]], none is empty or longer than
    100, and all but the last hold exactly 100 URIs. *)
Theorem batches_partition {A : Type} (track_uris : list A) :
  concat (CreatePlaylist.batches track_uris) = track_uris
  /\ length (CreatePlaylist.batches track_uris) = ((length track_uris + 99) / 100)%nat
  /\ (forall i b,
        CreatePlaylist.batches track_uris !! i = Some b ->
        b = take 100 (drop (i * 100) track_uris)
        /\ (1 <= length b <= 100)%nat
        /\ ((S i < length (CreatePlaylist.batches track_uris))%nat ->
            length b = 100%nat)).
Proof.
  split_and!; [apply batches_concat | apply batches_length |].
  intros i b Hb. rewrite batches_lookup in Hb.
  case_decide as Hi; [|discriminate]. injection Hb as <-.
  rewrite length_take, length_drop. split_and!; [reflexivity | lia | lia |].
  rewrite batches_length. intros Hlast.
  pose proof (Nat.div_mod_eq (length track_uris + 99) 100) as Hq.
  pose proof (Nat.mod_upper_bound (length track_uris + 99) 100) as Hr.
  lia.
Qed.

(** ** [create_playlist]: the requests *)

Section Requests.
Context `{Api}.

Lemma post_batches_ok (n : nat) (pid : string) (bs : list (list jval))
    (reqs : list request) :
  post_batches n pid bs = (reqs, true) <->
  reqs = map (PostItems pid) bs
  /\ forall i b, bs !! i = Some b -> is_Some (post (n + i) (PostItems pid b)).
Proof.
  revert n reqs. induction bs as [|b bs IH]; intros n reqs; simpl.
  - split.
    + intros [= <-]. split; [reflexivity|]. intros i b Hb. discriminate.
    + intros [-> _]. reflexivity.
  - destruct (post n (PostItems pid b)) as [p|] eqn:Hp.
    + destruct (post_batches (S n) pid bs) as [reqs' ok] eqn:Hrest. split.
      * intros [= <- ->]. apply IH in Hrest as [-> Hall].
        split; [reflexivity|]. intros [|i] b' Hb'; simpl in Hb'.
        -- injection Hb' as <-. rewrite Nat.add_0_r, Hp. by eexists.
        -- rewrite Nat.add_succ_r. apply (Hall i b' Hb').
      * intros [-> Hall].
        assert (post_batches (S n) pid bs = (map (PostItems pid) bs, true)) as Hok.
        { apply IH. split; [reflexivity|]. intros i b' Hb'.
          specialize (Hall (S i) b' Hb'). by rewrite Nat.add_succ_r in Hall. }
        rewrite Hok in Hrest. by injection Hrest as <- <-.
    + split; [discriminate|]. intros [_ Hall].
      destruct (Hall 0%nat b eq_refl) as [p Hp']. rewrite Nat.add_0_r in Hp'.
      congruence.
Qed.

Lemma post_batches_stop (n k : nat) (pid : string) (bs : list (list jval))
    (b : list jval) :
  bs !! k = Some b ->
  post (n + k) (PostItems pid b) = None ->
  (forall j b', (j < k)%nat -> bs !! j = Some b' ->
                is_Some (post (n + j) (PostItems pid b'))) ->
  post_batches n pid bs = (map (PostItems pid) (take (S k) bs), false).
Proof.
  revert n k. induction bs as [|b0 bs IH]; intros n k Hb Hrej Hacc; [discriminate|].
  destruct k as [|k]; simpl in *.
  - injection Hb as ->. rewrite Nat.add_0_r in Hrej. rewrite Hrej. by rewrite ?take_0.
  - destruct (Hacc 0%nat b0 ltac:(lia) eq_refl) as [p Hp].
    rewrite Nat.add_0_r in Hp. rewrite Hp.
    rewrite (IH (S n) k Hb).
    + reflexivity.
    + by rewrite Nat.add_succ_r in Hrej.
    + intros j b' Hj Hb'. specialize (Hacc (S j) b' ltac:(lia) Hb').
      by rewrite Nat.add_succ_r in Hacc.
Qed.

Lemma post_batches_length (n : nat) (pid : string) (bs : list (list jval)) :
  (length (fst (post_batches n pid bs)) <= length bs)%nat.
Proof.
  revert n. induction bs as [|b bs IH]; intros n; simpl; [lia|].
  destruct (post n (PostItems pid b)); simpl; [|lia].
  specialize (IH (S n)). destruct (post_batches (S n) pid bs). simpl in *. lia.
Qed.
End Requests.

Lemma posted_uris_items (pid : string) (bs : list (list jval)) :
  posted_uris (map (PostItems pid) bs) = concat bs.
Proof.
  unfold posted_uris. induction bs as [|b bs IH]; simpl; [reflexivity|].
  by rewrite IH.
Qed.

Lemma batches_nonempty {A : Type} (l : list A) :
  l <> [] -> CreatePlaylist.batches l <> [].
Proof.
  intros Hl Hb. pose proof (batches_lookup l 0) as H0. rewrite Hb in H0.
  destruct l as [|x l]; [done|].
  rewrite decide_True in H0 by (simpl; lia). discriminate.
Qed.

(** X19: when [create_playlist] returns a URL, the creation request was
    answered with a playlist that has this URL, every batch was posted to
    that playlist and answered, in order and after the creation request,
    and the URIs posted are the given ones, each once and in order. *)
Theorem returned_url_means_all_posted `{Api} (name : string)
    (track_uris : list jval) (description : string) (public : bool)
    (reqs : list request) (url : string) :
  create_playlist name track_uris description public = (reqs, inr url) ->
  exists p,
    post 0 (PostPlaylist name public description) = Some p
    /\ external_urls p = Some (Some url)
    /\ (track_uris <> [] -> is_Some (id p))
    /\ reqs = PostPlaylist name public description
              :: map (PostItems (default "" (id p))) (batches track_uris)
    /\ (forall i b, batches track_uris !! i = Some b ->
                    is_Some (post (S i) (PostItems (default "" (id p)) b)))
    /\ posted_uris reqs = track_uris.
Proof.
  unfold create_playlist.
  destruct (post 0 (PostPlaylist name public description)) as [p|]; [|discriminate].
  intros Hrun. exists p. split; [reflexivity|].
  assert (exists reqs',
            post_batches 1 (default "" (id p)) (batches track_uris) = (reqs', true)
            /\ reqs = PostPlaylist name public description :: reqs'
            /\ playlist_url p = inr url
            /\ (track_uris <> [] -> is_Some (id p)))
    as (reqs' & Hpost & -> & Hurl & Hid).
  { revert Hrun. destruct (batches track_uris) as [|b bs] eqn:Hbs.
    - exists []. assert (track_uris <> [] -> is_Some (id p)) as Hid.
      { intros Hne. by apply batches_nonempty in Hne. }
      revert Hrun. destruct (id p); simpl; intros [= <- Hurl]; done.
    - destruct (id p) as [pid|]; [|discriminate].
      change (default "" (Some pid)) with pid.
      destruct (post_batches 1 pid (b :: bs)) as [r ok].
      destruct ok; [|discriminate].
      intros [= <- Hurl]. exists r. split_and!; done. }
  apply post_batches_ok in Hpost as [-> Hall].
  split_and!.
  - unfold playlist_url in Hurl. by destruct (external_urls p) as [[?|]|]; simplify_eq.
  - exact Hid.
  - reflexivity.
  - intros i b Hb. exact (Hall i b Hb).
  - change (posted_uris (map (PostItems (default "" (id p))) (batches track_uris))
            = track_uris).
    rewrite posted_uris_items. apply batches_concat.
Qed.

(** 150 URIs and a service that answers every request. *)
Lemma returned_url_means_all_posted_witness :
  posted_uris
    (PostPlaylist "My Playlist" true "Created via script"
     :: map (PostItems "p1") (batches many_uris))
  = many_uris.
Proof.
  destruct (@returned_url_means_all_posted (accepting example_playlist)
              "My Playlist" many_uris "Created via script" true
              (PostPlaylist "My Playlist" true "Created via script"
               :: map (PostItems "p1") (batches many_uris))
              "https://open.spotify.com/playlist/p1")
    as (p & _ & _ & _ & _ & _ & Hposted).
  - vm_compute. reflexivity.
  - exact Hposted.
Defined.

(** X20: when the request of the batch of index [k] raises after the
    earlier ones were answered, [create_playlist] raises: the requests it
    has posted are the creation request and the batches up to that one, so
    that the playlist exists and keeps the earlier batches; no later batch
    is posted. *)
Theorem rejected_batch_stops_the_call `{Api} (name : string)
    (track_uris : list jval) (description : string) (public : bool)
    (p : playlist) (pid : string) (k : nat) (b : list jval) :
  post 0 (PostPlaylist name public description) = Some p ->
  id p = Some pid ->
  batches track_uris !! k = Some b ->
  post (S k) (PostItems pid b) = None ->
  (forall j b', (j < k)%nat -> batches track_uris !! j = Some b' ->
                is_Some (post (S j) (PostItems pid b'))) ->
  create_playlist name track_uris description public
  = (PostPlaylist name public description
     :: map (PostItems pid) (take (S k) (batches track_uris)),
     inl ApiError).
Proof.
  intros Hp Hid Hb Hrej Hacc. unfold create_playlist. rewrite Hp, Hid.
  remember (batches track_uris) as bs eqn:Hbs. clear Hbs.
  pose proof (post_batches_stop 1 k pid bs b Hb Hrej Hacc) as Hstop.
  destruct bs as [|b0 bs]; [discriminate|].
  change (default "" (Some pid)) with pid. rewrite Hstop. reflexivity.
Qed.

(** 150 URIs and a service that fails on the second batch. *)
Lemma rejected_batch_stops_the_call_witness :
  @create_playlist (failing_at 2 example_playlist)
    "My Playlist" many_uris "Created via script" true
  = ([PostPlaylist "My Playlist" true "Created via script";
      PostItems "p1" (take 100 many_uris);
      PostItems "p1" (drop 100 many_uris)],
     inl ApiError).
Proof.
  rewrite (@rejected_batch_stops_the_call (failing_at 2 example_playlist)
             "My Playlist" many_uris "Created via script" true
             example_playlist "p1" 1 (drop 100 many_uris)).
  - vm_compute. reflexivity.
  - reflexivity.
  - reflexivity.
  - vm_compute. reflexivity.
  - reflexivity.
  - intros j b' Hj Hb'. assert (j = 0%nat) as -> by lia. by eexists.
Defined.

(** X21: when the answer to the creation request has no [id], a call with
    at least one URI raises [KeyError] on ['id'] after the playlist was
    created; a call with no URI never reads the [id] and ends as the URL
    lookup does. In both cases the creation request is the only one. *)
Theorem missing_id_raises_after_creation `{Api} (name : string)
    (track_uris : list jval) (description : string) (public : bool)
    (p : playlist) :
  post 0 (PostPlaylist name public description) = Some p ->
  id p = None ->
  create_playlist name track_uris description public
  = ([PostPlaylist name public description],
     match track_uris with
     | [] => playlist_url p
     | _ :: _ => inl (MissingKey "id")
     end).
Proof.
  intros Hp Hid. unfold create_playlist. rewrite Hp, Hid.
  destruct track_uris as [|u l]; [reflexivity|].
  destruct (batches (u :: l)) eqn:Hb; [|reflexivity].
  by apply (batches_nonempty (u :: l)) in Hb.
Qed.

(** An answer without [id]. *)
Lemma missing_id_raises_after_creation_witness :
  @create_playlist (accepting playlist_without_id)
    "My Playlist" many_uris "Created via script" true
  = ([PostPlaylist "My Playlist" true "Created via script"], inl (MissingKey "id")).
Proof.
  exact (@missing_id_raises_after_creation (accepting playlist_without_id)
           "My Playlist" many_uris "Created via script" true playlist_without_id
           eq_refl eq_refl).
Defined.

(** ** The playlists of [main] are posted in one batch *)

Lemma batches_short {A : Type} (l : list A) :
  (length l <= 100)%nat ->
  batches l = match l with [] => [] | _ :: _ => [l] end.
Proof.
  intros Hl. apply list_eq. intros i. rewrite batches_lookup.
  destruct l as [|x l]; [by rewrite decide_False by (simpl; lia)|].
  destruct i as [|i].
  - rewrite decide_True by (simpl; lia). simpl. f_equal. f_equal.
    apply take_ge. simpl in Hl. lia.
  - rewrite decide_False by (simpl in *; lia). reflexivity.
Qed.

Lemma create_playlist_requests `{Api} (name : string) (track_uris : list jval)
    (description : string) (public : bool) :
  (length (fst (create_playlist name track_uris description public))
   <= S (length (batches track_uris)))%nat.
Proof.
  unfold create_playlist.
  destruct (post 0 (PostPlaylist name public description)) as [p|]; [|simpl; lia].
  pose proof (post_batches_length 1 (default "" (id p)) (batches track_uris)) as Hlen.
  destruct (batches track_uris) as [|b bs].
  - destruct (id p); simpl; lia.
  - destruct (id p) as [pid|]; [|simpl; lia].
    destruct (post_batches 1 (default "" (Some pid)) (b :: bs)). simpl in *. lia.
Qed.

(** X22: each of the two lists of [main] has at most 100 tracks, so its
    URIs form one batch (none for an empty list): [create_playlist] posts
    at most two requests for it. *)
Theorem top_100_is_posted_at_once `{Api} `{PyBuiltins} (entries : list entry)
    (cache : genre_cache) (name description : string)
    (selected : list (jval * MakePlaylists.TrackStat.t)) :
  Recent.top_100_recent entries = Ok selected
  \/ MakePlaylists.top_100_dnb entries cache = Ok selected ->
  batches (map fst selected)
  = match selected with [] => [] | _ :: _ => [map fst selected] end
  /\ (length (fst (Playlists.create_playlist name (map fst selected) description))
      <= 2)%nat.
Proof.
  intros Hsel.
  assert (length selected <= 100)%nat as Hlen.
  { destruct Hsel as [Hsel|Hsel].
    - unfold Recent.top_100_recent in Hsel.
      destruct (Recent.recent entries); [|discriminate]. simpl in Hsel.
      destruct (MakePlaylists.aggregate_tracks _ _); [|discriminate].
      injection Hsel as <-. unfold Recent.top_100. rewrite length_take. lia.
    - unfold MakePlaylists.top_100_dnb in Hsel.
      destruct (MakePlaylists.aggregate_tracks _ _); [|discriminate].
      injection Hsel as <-. rewrite length_take. lia. }
  assert (batches (map fst selected)
          = match selected with [] => [] | _ :: _ => [map fst selected] end) as Hb.
  { rewrite batches_short by (by rewrite length_map). by destruct selected. }
  split; [exact Hb|].
  pose proof (create_playlist_requests name (map fst selected) description true) as Hr.
  unfold Playlists.create_playlist. rewrite Hb in Hr.
  destruct selected; cbn [length] in Hr; lia.
Qed.

(** The two recent tracks of [dated_events]. *)
Lemma top_100_is_posted_at_once_witness :
  batches [JStr "a"; JStr "c"] = [[JStr "a"; JStr "c"]].
Proof.
  destruct (@top_100_is_posted_at_once (accepting example_playlist)
              AsciiText.builtins dated_events example_cache
              "My Top 100" "Top 100 most-played tracks"
              [(JStr "a", MakePlaylists.TrackStat.mk (JStr "X") (JStr "Art1") 1 32000);
               (JStr "c", MakePlaylists.TrackStat.mk (JStr "Z") (JStr "Art2") 1 50000)])
    as [Hb _].
  - left. vm_compute. reflexivity.
  - exact Hb.
Defined.

(** ** [load_streaming_history] *)

Lemma insert_asc_perm (x : string) (l : list string) :
  History.insert_asc x l ≡ₚ x :: l.
Proof.
  induction l as [|y l IH]; simpl; [reflexivity|].
  destruct (String.leb x y); [reflexivity|].
  rewrite IH. apply perm_swap.
Qed.

Lemma sorted_names_perm (l : list string) : History.sorted_names l ≡ₚ l.
Proof.
  induction l as [|x l IH]; simpl; [reflexivity|].
  by rewrite insert_asc_perm, IH.
Qed.

Lemma insert_asc_sorted (x : string) (l : list string) :
  Sorted String.le l -> Sorted String.le (History.insert_asc x l).
Proof.
  induction 1 as [|y l Hs IH Hhd]; simpl.
  - repeat constructor.
  - destruct (String.leb x y) eqn:Hxy.
    + constructor; [by constructor|]. constructor. unfold String.le. by rewrite Hxy.
    + constructor; [exact IH|].
      assert (String.le y x) as Hyx.
      { unfold String.le. destruct (String.leb_total x y) as [Hle|Hle]; [congruence|].
        by rewrite Hle. }
      destruct Hhd as [|z l Hyz]; simpl; [by constructor|].
      destruct (String.leb x z); by constructor.
Qed.

Lemma sorted_names_sorted (l : list string) : Sorted String.le (History.sorted_names l).
Proof.
  induction l as [|x l IH]; simpl; [constructor|]. by apply insert_asc_sorted.
Qed.

Lemma list_filter_perm {A : Type} (f : A -> bool) (l l' : list A) :
  l ≡ₚ l' -> List.filter f l ≡ₚ List.filter f l'.
Proof.
  induction 1 as [|x l l' _ IH|x y l|l1 l2 l3 _ IH1 _ IH2]; simpl.
  - reflexivity.
  - destruct (f x); [by constructor | exact IH].
  - destruct (f x), (f y); try reflexivity. apply perm_swap.
  - by etrans.
Qed.

Lemma list_filter_strongly_sorted {A : Type} (R : relation A) (f : A -> bool)
    (l : list A) :
  StronglySorted R l -> StronglySorted R (List.filter f l).
Proof.
  induction 1 as [|x l Hs IH Hall]; simpl; [constructor|].
  destruct (f x); [|exact IH]. constructor; [exact IH|].
  rewrite Forall_forall in Hall. apply Forall_forall. intros y Hy. apply Hall.
  eapply elem_of_sublist; [exact Hy | apply list_filter_sublist].
Qed.

Lemma history_files_sorted (listdir : list string) :
  StronglySorted String.le (history_files listdir).
Proof.
  apply list_filter_strongly_sorted, Sorted_StronglySorted; [apply _|].
  apply sorted_names_sorted.
Qed.

Lemma history_files_perm (listdir : list string) :
  history_files listdir ≡ₚ List.filter History.is_history_file listdir.
Proof. apply list_filter_perm, sorted_names_perm. Qed.

Lemma history_files_unique (listdir listdir' : list string) :
  List.filter History.is_history_file listdir
  ≡ₚ List.filter History.is_history_file listdir' ->
  history_files listdir = history_files listdir'.
Proof.
  intros Hp. apply (StronglySorted_unique String.le); try apply history_files_sorted.
  by rewrite !history_files_perm.
Qed.

Lemma load_reads_history_files (read : string -> result (list entry))
    (names : list string) (acc : list entry) :
  for_each (fun entries filename =>
              if History.is_history_file filename then
                loaded ← read filename; Ok (entries ++ loaded)
              else Ok entries) acc names
  = (contents ← mapM read (List.filter History.is_history_file names);
     Ok (acc ++ concat contents)).
Proof.
  revert acc. induction names as [|f names IH]; intros acc; simpl.
  - by rewrite app_nil_r.
  - destruct (History.is_history_file f); simpl; [|apply IH].
    destruct (read f) as [loaded|x]; simpl; [|reflexivity].
    rewrite IH. destruct (mapM read _) as [contents|x]; simpl; [|reflexivity].
    by rewrite app_assoc.
Qed.

Lemma mapM_result_ext {A B : Type} (f g : A -> result B) (l : list A) :
  (forall x, x ∈ l -> f x = g x) -> mapM f l = mapM g l.
Proof.
  induction l as [|x l IH]; intros Hfg; simpl; [reflexivity|].
  rewrite (Hfg x) by (by left). rewrite IH; [reflexivity|].
  intros y Hy. apply Hfg. by right.
Qed.

(** X23: [load_streaming_history] reads the history files of the
    directory, and only them, in ascending order of their names, and
    returns the concatenation of their contents; it raises what the first
    file that fails to load raises. *)
Theorem history_is_concatenation (listdir : list string)
    (read : string -> result (list entry)) :
  History.load_streaming_history listdir read
  = (contents ← mapM read (history_files listdir); Ok (concat contents))
  /\ StronglySorted String.le (history_files listdir)
  /\ history_files listdir ≡ₚ List.filter History.is_history_file listdir.
Proof.
  split_and!; [|apply history_files_sorted | apply history_files_perm].
  unfold History.load_streaming_history. rewrite load_reads_history_files. reflexivity.
Qed.

(** X24: the result of [load_streaming_history] depends neither on the
    order in which the directory is listed, nor on the other files of the
    directory, nor on what reading them would give. *)
Theorem history_depends_on_history_files (listdir listdir' : list string)
    (read read' : string -> result (list entry)) :
  List.filter History.is_history_file listdir
  ≡ₚ List.filter History.is_history_file listdir' ->
  (forall f, f ∈ listdir -> History.is_history_file f = true -> read f = read' f) ->
  History.load_streaming_history listdir read
  = History.load_streaming_history listdir' read'.
Proof.
  intros Hp Hread. unfold History.load_streaming_history.
  rewrite !load_reads_history_files.
  fold (history_files listdir). fold (history_files listdir').
  rewrite <- (history_files_unique _ _ Hp).
  rewrite (mapM_result_ext read read'); [reflexivity|].
  intros f Hf. rewrite history_files_perm in Hf.
  apply list_elem_of_In, filter_In in Hf as [Hin Hh].
  apply Hread; [by apply list_elem_of_In | exact Hh].
Qed.

(** Two listings with the same history files in another order, and other
    files beside them. *)
Lemma history_depends_on_history_files_witness :
  History.load_streaming_history
    ["Streaming_History_Audio_2.json"; "notes.txt"; "Streaming_History_Audio_1.json"]
    example_read
  = History.load_streaming_history
      ["Streaming_History_Audio_1.json"; "Streaming_History_Video_1.json";
       "Streaming_History_Audio_2.json"]
      example_read_all.
Proof.
  apply history_depends_on_history_files.
  - vm_compute. apply perm_swap.
  - intros f _ Hf. unfold example_read, example_read_all. by rewrite Hf.
Defined.

(** ** [main] of [analyze_history.py]: the genre breakdown *)

Lemma occurrences_cons (g x : string) (l : list string) :
  occurrences g (x :: l) = (if decide (x = g) then 1 else 0) + occurrences g l.
Proof.
  unfold occurrences. rewrite filter_cons. case_decide; simpl length; lia.
Qed.

Lemma occurrences_absent (g : string) (l : list string) :
  g ∉ l -> occurrences g l = 0.
Proof.
  induction l as [|x l IH]; intros Hg; [reflexivity|].
  rewrite occurrences_cons, IH, decide_False; [lia| |].
  - intros ->. apply Hg. by left.
  - intros Hin. apply Hg. by right.
Qed.

Lemma add_to_genre_get (amt : Z) (d : dict Z) (g g' : string) :
  dict_get (add_to_genre amt d g) (JStr g')
  = if decide (g' = g) then Some (default 0 (dict_get d (JStr g)) + amt)
    else dict_get d (JStr g').
Proof.
  unfold add_to_genre. rewrite dict_get_set.
  destruct (decide (g' = g)) as [->|Hne].
  - by rewrite decide_True.
  - rewrite decide_False; [reflexivity|]. congruence.
Qed.

Lemma genres_fold_get (amt : Z) (gs : list string) (d : dict Z) (g : string) :
  dict_get (foldl (add_to_genre amt) d gs) (JStr g)
  = if decide (g ∈ gs)
    then Some (default 0 (dict_get d (JStr g)) + amt * occurrences g gs)
    else dict_get d (JStr g).
Proof.
  revert d. induction gs as [|x gs IH]; intros d; cbn [foldl].
  - rewrite decide_False; [reflexivity|]. apply not_elem_of_nil.
  - rewrite IH, add_to_genre_get, occurrences_cons.
    destruct (decide (g = x)) as [->|Hne].
    + rewrite (decide_True (P := x ∈ x :: gs)) by (by left).
      rewrite !(decide_True (P := x = x)) by done.
      destruct (decide (x ∈ gs)) as [Hin|Hin]; simpl; f_equal.
      * lia.
      * rewrite (occurrences_absent _ _ Hin). lia.
    + rewrite (decide_False (P := x = g)) by congruence.
      destruct (decide (g ∈ gs)) as [Hin|Hin].
      * rewrite decide_True by (by right). f_equal; lia.
      * rewrite decide_False; [reflexivity|].
        rewrite elem_of_cons. intros [?|?]; done.
Qed.

Lemma genres_fold_keys (amt : Z) (gs : list string) (d : dict Z) :
  map fst (foldl (add_to_genre amt) d gs) = foldl add_key (map fst d) (map JStr gs).
Proof.
  revert d. induction gs as [|x gs IH]; intros d; cbn [foldl map]; [reflexivity|].
  rewrite IH. unfold add_to_genre. by rewrite dict_keys_set.
Qed.

Lemma breakdown_by_get (amount : ArtistStat.t -> Z) (ag : genre_cache)
    (artists : dict ArtistStat.t) (d : dict Z) (g : string) :
  dict_get (breakdown_by amount ag d artists) (JStr g)
  = if decide (g ∈ all_genres artists ag)
    then Some (default 0 (dict_get d (JStr g)) + genre_total amount artists ag g)
    else dict_get d (JStr g).
Proof.
  unfold breakdown_by, all_genres, genre_total.
  revert d. induction artists as [|na artists IH]; intros d; cbn [foldl flat_map map].
  - rewrite decide_False; [reflexivity|]. apply not_elem_of_nil.
  - rewrite IH, genres_fold_get. cbn [sum_Z foldr].
    fold (sum_Z (map (fun na => amount (snd na) * occurrences g (genres_of ag (fst na)))
                   artists)).
    destruct (decide (g ∈ genres_of ag (fst na))) as [Hna|Hna];
      destruct (decide (g ∈ flat_map (fun na => genres_of ag (fst na)) artists))
        as [Hl|Hl].
    + rewrite decide_True by (apply elem_of_app; by left). simpl. f_equal; lia.
    + rewrite decide_True by (apply elem_of_app; by left).
      f_equal.
      assert (sum_Z (map (fun na => amount (snd na)
                                   * occurrences g (genres_of ag (fst na)))
                     artists) = 0) as ->; [|lia].
      clear IH. induction artists as [|na' artists IH']; [reflexivity|].
      cbn [flat_map] in Hl. rewrite elem_of_app in Hl.
      cbn [map sum_Z foldr].
      fold (sum_Z (map (fun na => amount (snd na)
                                  * occurrences g (genres_of ag (fst na))) artists)).
      rewrite IH' by tauto. rewrite occurrences_absent by tauto. lia.
    + rewrite decide_True by (apply elem_of_app; by right).
      f_equal. rewrite (occurrences_absent _ _ Hna). lia.
    + rewrite decide_False; [reflexivity|]. rewrite elem_of_app. tauto.
Qed.

Lemma breakdown_by_keys (amount : ArtistStat.t -> Z) (ag : genre_cache)
    (artists : dict ArtistStat.t) (d : dict Z) :
  map fst (breakdown_by amount ag d artists)
  = foldl add_key (map fst d) (map JStr (all_genres artists ag)).
Proof.
  unfold breakdown_by, all_genres.
  revert d. induction artists as [|na artists IH]; intros d; cbn [foldl flat_map];
    [reflexivity|].
  by rewrite IH, genres_fold_keys, map_app, foldl_app.
Qed.

Lemma genre_breakdown_by (artists : dict ArtistStat.t) (ag : genre_cache) :
  genre_breakdown artists ag
  = (breakdown_by ArtistStat.total_ms ag [] artists,
     breakdown_by ArtistStat.play_count ag [] artists).
Proof.
  unfold genre_breakdown, breakdown_by.
  generalize (@nil (jval * Z)) at 1 3. generalize (@nil (jval * Z)).
  induction artists as [|na artists IH]; intros d2 d1; cbn [foldl]; [reflexivity|].
  rewrite <- IH. f_equal.
  generalize (genres_of ag (fst na)) as gs. clear IH. intros gs.
  revert d1 d2. induction gs as [|g gs IHg]; intros d1 d2; cbn [foldl]; [reflexivity|].
  apply IHg.
Qed.

(** X25: [genre_ms] and [genre_plays] have the same keys in the same
    order, the genres in the order the loop first meets them; the value of
    a genre is the sum of [total_ms], respectively of [play_count], of the
    artists that have it, an artist counting in full for each of its
    genres and once for each occurrence of the genre in its list. *)
Theorem genre_totals_count_every_artist (artists : dict ArtistStat.t)
    (artist_genres : genre_cache) (genre_ms genre_plays : dict Z) :
  genre_breakdown artists artist_genres = (genre_ms, genre_plays) ->
  map fst genre_ms = first_seen (map JStr (all_genres artists artist_genres))
  /\ map fst genre_plays = map fst genre_ms
  /\ forall genre,
       genre ∈ all_genres artists artist_genres ->
       dict_get genre_ms (JStr genre)
       = Some (genre_total ArtistStat.total_ms artists artist_genres genre)
       /\ dict_get genre_plays (JStr genre)
          = Some (genre_total ArtistStat.play_count artists artist_genres genre).
Proof.
  rewrite genre_breakdown_by. intros [= <- <-].
  rewrite !breakdown_by_keys. split_and!; [reflexivity | reflexivity |].
  intros genre Hin. rewrite !breakdown_by_get, !decide_True by done.
  simpl. split; f_equal; lia.
Qed.

(** ["electronic"] is a genre of Netsky only. *)
Lemma genre_totals_count_every_artist_witness :
  dict_get [(JStr "liquid DRUM AND BASS", 85000); (JStr "electronic", 85000);
            (JStr "Drum and Bass", 31000)] (JStr "electronic")
  = Some (genre_total ArtistStat.total_ms two_genre_artists example_cache "electronic").
Proof.
  destruct (genre_totals_count_every_artist two_genre_artists example_cache
              [(JStr "liquid DRUM AND BASS", 85000); (JStr "electronic", 85000);
               (JStr "Drum and Bass", 31000)]
              [(JStr "liquid DRUM AND BASS", 2); (JStr "electronic", 2);
               (JStr "Drum and Bass", 1)])
    as (_ & _ & Hg).
  - vm_compute. reflexivity.
  - destruct (Hg "electronic") as [Hms _].
    + apply (bool_decide_unpack _). vm_compute. exact I.
    + exact Hms.
Defined.

(** ** [main] of [analyze_history.py]: the names passed to the resolver *)

Lemma aggregate_artists_NoDup (entries : list entry) (min_ms : Z)
    (artists : dict ArtistStat.t) :
  aggregate_artists entries min_ms = Ok artists -> NoDup (map fst artists).
Proof.
  intros Hagg. rewrite (aggregate_artists_keys _ _ _ Hagg). apply first_seen_NoDup.
Qed.

Lemma top_artist_names_elem (artists : dict ArtistStat.t) (name : jval) :
  NoDup (map fst artists) ->
  name ∈ top_artist_names artists <->
  exists a, (name, a) ∈ take 200 (top_artists artists)
            /\ dict_get artists name = Some a.
Proof.
  intros Hnd. unfold top_artist_names. rewrite list_elem_of_fmap. split.
  - intros ([name' a] & -> & Hin). exists a. split; [exact Hin|].
    apply dict_elem_get; [exact Hnd|].
    rewrite <- (sorted_desc_perm (fun x => ArtistStat.play_count (snd x)) artists).
    eapply elem_of_sublist; [exact Hin | apply sublist_take].
  - intros (a & Hin & _). by exists (name, a).
Qed.

(** X26: the names passed to [fetch_artist_genres] are at most 200
    distinct keys of [artists], none of them empty, each with at least one
    play; no artist left out has more plays than a selected one, and with
    at most 200 artists all of them are selected. *)
Theorem top_artist_names_are_the_top (entries : list entry)
    (artists : dict ArtistStat.t) :
  aggregate_artists entries default_min_ms = Ok artists ->
  (length (top_artist_names artists) <= 200)%nat
  /\ NoDup (top_artist_names artists)
  /\ (forall name, name ∈ top_artist_names artists ->
        truthy name = true
        /\ exists a, dict_get artists name = Some a /\ 1 <= ArtistStat.play_count a)
  /\ (forall name a name' a',
        name ∈ top_artist_names artists -> dict_get artists name = Some a ->
        dict_get artists name' = Some a' -> name' ∉ top_artist_names artists ->
        ArtistStat.play_count a' <= ArtistStat.play_count a)
  /\ ((length artists <= 200)%nat -> top_artist_names artists ≡ₚ map fst artists).
Proof.
  intros Hagg. pose proof (aggregate_artists_NoDup _ _ _ Hagg) as Hnd.
  split_and!.
  - unfold top_artist_names. rewrite length_map, length_take. lia.
  - unfold top_artist_names. eapply NoDup_fst_sublist; [apply sublist_take|].
    unfold top_artists. by rewrite (sorted_desc_perm _ artists).
  - intros name (a & _ & Hget)%top_artist_names_elem; [|exact Hnd].
    pose proof (aggregate_artists_get _ _ _ name Hagg) as Hplays.
    rewrite Hget in Hplays.
    destruct (artist_plays default_min_ms name entries) as [|e plays] eqn:Hp;
      [discriminate|].
    assert (e ∈ artist_plays default_min_ms name entries) as He
      by (rewrite Hp; by left).
    apply list_elem_of_filter in He as [[Ho <-] _].
    split; [by apply (artist_outcome_counted default_min_ms)|].
    exists a. split; [exact Hget|]. injection Hplays as ->.
    destruct (artist_fold_counts ArtistStat.default (e :: plays)) as [Hc _].
    change (foldl artist_update (artist_update ArtistStat.default e) plays)
      with (foldl artist_update ArtistStat.default (e :: plays)).
    rewrite Hc. simpl ArtistStat.play_count. rewrite length_cons. lia.
  - intros name a name' a' (a0 & Hin & Hget0)%top_artist_names_elem Hget Hget' Hout;
      [|exact Hnd].
    assert (a0 = a) as -> by congruence.
    apply (top_n_dominates (fun x => ArtistStat.play_count (snd x)) 200 artists
             (name, a) (name', a')).
    + by apply NoDup_fst_elements.
    + exact Hin.
    + by apply dict_get_elem.
    + intros Hin'. apply Hout, top_artist_names_elem; [exact Hnd|]. eauto.
  - intros Hlen. unfold top_artist_names, top_artists.
    by rewrite (top_n_all _ 200 artists Hlen).
Qed.

(** The artists of [spec_events]. *)
Lemma top_artist_names_are_the_top_witness :
  (length (top_artist_names spec_artists) <= 200)%nat
  /\ NoDup (top_artist_names spec_artists).
Proof.
  destruct (top_artist_names_are_the_top spec_events spec_artists)
    as (Hlen & Hnd & _).
  - vm_compute. reflexivity.
  - split; [exact Hlen | exact Hnd].
Defined.

(** ** [main] of [analyze_history.py]: the artists of the genre breakdown *)

Lemma foldl_filter_skip {S A : Type} (f : S -> A -> S) (P : A -> bool)
    (l : list A) (s : S) :
  (forall x, x ∈ l -> P x = false -> forall s, f s x = s) ->
  foldl f s (List.filter P l) = foldl f s l.
Proof.
  revert s. induction l as [|x l IH]; intros s Hskip; simpl; [reflexivity|].
  destruct (P x) eqn:HP; cbn [foldl].
  - apply IH. intros y Hy. apply Hskip. by right.
  - rewrite (Hskip x) by (done || by left). apply IH.
    intros y Hy. apply Hskip. by right.
Qed.

Lemma names_of_inv (l : list jval) (names : list string) :
  names_of l = Some names -> l = map JStr names.
Proof.
  intros Hm. symmetry.
  apply (mapM_fmap_Some_inv _ JStr _ _ Hm).
  intros [| s |z] y; simpl; congruence.
Qed.

(** X27: the genres returned for the top 200 names give no genre to any
    other artist, so the genre breakdown of [main] counts the artists of
    the top 200 only: it is the breakdown of [artists] restricted to
    them. *)
Theorem genre_breakdown_covers_top_artists `{PyBuiltins} `{JsonCodec} `{TagSource}
    (artists : dict ArtistStat.t) (names : list string) (max_retries : Z)
    (w w' : world) (artist_genres : genre_cache) :
  names_of (top_artist_names artists) = Some names ->
  fetch_artist_genres names max_retries w = Ok (artist_genres, w') ->
  (forall name, name ∉ top_artist_names artists ->
                genres_of artist_genres name = [])
  /\ genre_breakdown artists artist_genres
     = genre_breakdown (List.filter (in_top_200 artists) artists) artist_genres.
Proof.
  intros Hnames Hfetch.
  assert (forall name, name ∉ top_artist_names artists ->
                       genres_of artist_genres name = []) as Hout.
  { intros name Hname. destruct name as [|s|z]; try reflexivity. simpl.
    unfold fetch_artist_genres in Hfetch.
    destruct (load_genre_cache w) as [cache|x]; [|discriminate]. simpl in Hfetch.
    destruct (resolve cache names max_retries w) as [cache' w1].
    injection Hfetch as <- _.
    rewrite result_mapping_lookup, decide_False; [reflexivity|].
    intros Hs. apply Hname. rewrite (names_of_inv _ _ Hnames).
    apply list_elem_of_fmap. by exists s. }
  split; [exact Hout|].
  unfold genre_breakdown. symmetry. apply foldl_filter_skip.
  intros [name a] _ Hna st. unfold in_top_200 in Hna. simpl in *.
  apply bool_decide_eq_false in Hna. by rewrite (Hout name Hna).
Qed.

(** The artists of [spec_events] and a cache file that does not exist. *)
Lemma genre_breakdown_covers_top_artists_witness :
  exists artist_genres w',
    @fetch_artist_genres AsciiText.builtins JsonText.codec rock_pop_source
      ["Art1"] 3 (new_world None) = Ok (artist_genres, w')
    /\ genre_breakdown spec_artists artist_genres
       = genre_breakdown (List.filter (in_top_200 spec_artists) spec_artists)
           artist_genres.
Proof.
  eexists _, _. split; [vm_compute; reflexivity|].
  eapply (@genre_breakdown_covers_top_artists AsciiText.builtins JsonText.codec
            rock_pop_source spec_artists ["Art1"] 3 (new_world None)).
  - vm_compute. reflexivity.
  - vm_compute. reflexivity.
Defined.
